(** * ELBO estimators of [numpyro.infer.elbo]: a shallow embedding

    The development follows [src/numpyro/infer/elbo.py].  Python dictionaries
    whose order is irrelevant are [gmap]s, [frozenset]s are [gset]s, ordered
    dictionaries and traces are association lists.  Array entries are exact
    integers: the embedding of the estimators speaks about their structure,
    their shapes and their errors.  Where a value depends on the rounding of
    an addition or on the order of a sum, the arithmetic is a parameter of
    the definition, and [Float32] instantiates it with single precision, the
    default of JAX.  Exceptions are values of [exn]; warnings are collected
    in a log. *)

From stdpp Require Import gmap strings list fin_maps.
From Stdlib Require Import ZArith QArith Lia SpecFloat.

Open Scope Z_scope.

(** ** Exceptions and the two monads of the embedding *)

Inductive exn : Type :=
  | ValueError (msg : string)
  | KeyError (key : string)
  | IndexError
  | AssertionError
  | NotImplementedError
  | LoopBound
  | StructuralError (msg : string).

Inductive result (A : Type) : Type :=
  | Ok (a : A)
  | Raise (e : exn).
Arguments Ok {A} a.
Arguments Raise {A} e.

Global Instance result_ret : MRet result := fun A a => Ok a.
Global Instance result_bind : MBind result := fun A B f r =>
  match r with
  | Ok a => f a
  | Raise e => Raise e
  end.
Global Instance result_fmap : FMap result := fun A B f r =>
  match r with
  | Ok a => Ok (f a)
  | Raise e => Raise e
  end.

(** Left-to-right loop whose body may raise. *)
Fixpoint foldM {A B : Type} (f : A -> B -> result A) (a : A) (l : list B)
  : result A :=
  match l with
  | [] => Ok a
  | b :: l' => a' ← f a b; foldM f a' l'
  end.

Definition is_ok {A : Type} (r : result A) : Prop :=
  match r with Ok _ => True | Raise _ => False end.

(** ** Arrays *)

(** An array is its shape and its entries in row-major order. *)
Record tensor : Type := Tensor { shape : list nat; data : list Z }.

Global Instance tensor_eq_dec : EqDecision tensor.
Proof. solve_decision. Defined.

Definition scalar (z : Z) : tensor := Tensor [] [z].

Definition ndim (t : tensor) : nat := length (shape t).

Definition numel (s : list nat) : nat := foldr Nat.mul 1%nat s.

Definition well_shaped (t : tensor) : Prop := length (data t) = numel (shape t).

(** Python's indexing of a sequence of length [len] by a possibly negative
    integer. *)
Definition py_index (len : nat) (i : Z) : result nat :=
  if bool_decide (0 <= i < Z.of_nat len) then Ok (Z.to_nat i)
  else if bool_decide (- Z.of_nat len <= i < 0) then Ok (Z.to_nat (Z.of_nat len + i))
  else Raise IndexError.

(** [jnp.shape(value)[d]] *)
Definition shape_at (t : tensor) (d : Z) : result nat :=
  i ← py_index (ndim t) d;
  match shape t !! i with
  | Some n => Ok n
  | None => Raise IndexError
  end.

Fixpoint chunks (k size : nat) (l : list Z) : list (list Z) :=
  match k with
  | O => []
  | S k' => take size l :: chunks k' size (drop size l)
  end.

Definition sum_rows (inner : nat) (rows : list (list Z)) : list Z :=
  fold_left (zip_with Z.add) rows (replicate inner 0).

(** [value.sum(axis, keepdims=True)] for a normalised axis. *)
Definition sum_axis (t : tensor) (ax : nat) : tensor :=
  let n := default 1%nat (shape t !! ax) in
  let outer := numel (take ax (shape t)) in
  let inner := numel (drop (S ax) (shape t)) in
  Tensor (<[ax := 1%nat]> (shape t))
         (concat ((fun block => sum_rows inner (chunks n inner block))
                    <$> chunks outer (n * inner) (data t))).

Definition tensor_sum_keepdims (t : tensor) (axis : Z) : result tensor :=
  match py_index (ndim t) axis with
  | Ok ax => Ok (sum_axis t ax)
  | Raise _ => Raise (ValueError "axis is out of bounds for array")
  end.

(** [jnp.sum(value)] *)
Definition jnp_sum (t : tensor) : Z := foldr Z.add 0 (data t).

(** [value.squeeze(0)] *)
Definition squeeze0 (t : tensor) : result tensor :=
  match shape t with
  | 1%nat :: s => Ok (Tensor s (data t))
  | _ => Raise (ValueError "cannot select an axis to squeeze out")
  end.

(** Broadcasting: shapes are aligned on the right. *)
Definition pad_shape (n : nat) (s : list nat) : list nat :=
  replicate (n - length s) 1%nat ++ s.

Fixpoint broadcast_aligned (s1 s2 : list nat) : option (list nat) :=
  match s1, s2 with
  | [], [] => Some []
  | a :: s1', b :: s2' =>
      r ← broadcast_aligned s1' s2';
      if bool_decide (a = b) then Some (a :: r)
      else if bool_decide (a = 1%nat) then Some (b :: r)
      else if bool_decide (b = 1%nat) then Some (a :: r)
      else None
  | _, _ => None
  end.

Definition broadcast_shapes (s1 s2 : list nat) : option (list nat) :=
  let n := (length s1 `max` length s2)%nat in
  broadcast_aligned (pad_shape n s1) (pad_shape n s2).

(** Entries of an array of shape [s] seen at the aligned shape [target]. *)
Fixpoint broadcast_data (s target : list nat) (d : list Z) : list Z :=
  match s, target with
  | a :: s', b :: target' =>
      let blocks :=
        (broadcast_data s' target') <$> chunks a (numel s') d in
      if bool_decide (a = b) then concat blocks
      else concat (replicate b (concat blocks))
  | _, _ => d
  end.

Definition broadcast_to (t : tensor) (target : list nat) : list Z :=
  broadcast_data (pad_shape (length target) (shape t)) target (data t).

Definition tensor_zip (op : Z -> Z -> Z) (t1 t2 : tensor) : result tensor :=
  match broadcast_shapes (shape t1) (shape t2) with
  | Some s => Ok (Tensor s (zip_with op (broadcast_to t1 s) (broadcast_to t2 s)))
  | None => Raise (ValueError "Incompatible shapes for broadcasting")
  end.

Definition tensor_add : tensor -> tensor -> result tensor := tensor_zip Z.add.
Definition tensor_sub : tensor -> tensor -> result tensor := tensor_zip Z.sub.
Definition tensor_mul : tensor -> tensor -> result tensor := tensor_zip Z.mul.
Definition tensor_neg (t : tensor) : tensor := Tensor (shape t) (Z.opp <$> data t).

(** ** Plates *)

Record frame : Type := CondIndepStackFrame
  { frame_name : string; frame_dim : Z; frame_size : nat }.

Global Instance frame_eq_dec : EqDecision frame.
Proof. solve_decision. Defined.

Global Instance frame_countable : Countable frame.
Proof.
  refine (inj_countable' (fun f => (frame_name f, frame_dim f, frame_size f))
            (fun p => CondIndepStackFrame p.1.1 p.1.2 p.2) _).
  by intros [].
Defined.

(** ** [MultiFrameTensor] *)

Module MultiFrameTensor.

(** The dictionary from [frozenset]s of frames to arrays, in insertion
    order. *)
Definition t : Type := list (gset frame * tensor).

Definition empty : t := [].

Fixpoint get (self : t) (frames : gset frame) : option tensor :=
  match self with
  | [] => None
  | (k, v) :: rest => if bool_decide (k = frames) then Some v else get rest frames
  end.

Fixpoint set (self : t) (frames : gset frame) (value : tensor) : t :=
  match self with
  | [] => [(frames, value)]
  | (k, v) :: rest =>
      if bool_decide (k = frames) then (k, value) :: rest
      else (k, v) :: set rest frames value
  end.

Definition frames_in_rank (frames : gset frame) (value : tensor) : bool :=
  forallb (fun f => bool_decide (frame_dim f < 0)
                    && bool_decide (- Z.of_nat (ndim value) <= frame_dim f))
          (elements frames).

Definition add1 (self : t) (item : list frame * tensor) : result t :=
  let '(cond_indep_stack, value) := item in
  let frames : gset frame := list_to_set cond_indep_stack in
  if frames_in_rank frames value then
    match get self frames with
    | Some old => v ← tensor_add old value; Ok (set self frames v)
    | None => Ok (set self frames value)
    end
  else Raise AssertionError.

Definition add (self : t) (items : list (list frame * tensor)) : result t :=
  foldM add1 self items.

(** The constructor: an empty container to which the items are added. *)
Definition init (items : list (list frame * tensor)) : result t :=
  add empty items.

(** One pass of the loop over the frames of an entry. *)
Definition reduce_frame (target_frames : list frame) (value : tensor)
    (f : frame) : result tensor :=
  if bool_decide (f ∈ target_frames) then Ok value
  else
    n ← shape_at value (frame_dim f);
    if bool_decide (n ≠ 1%nat) then tensor_sum_keepdims value (frame_dim f)
    else Ok value.

(** [while jnp.shape(value) and jnp.shape(value)[0] == 1:
       value = value.squeeze(0)] *)
Fixpoint squeeze_loop (s : list nat) (d : list Z) : tensor :=
  match s with
  | 1%nat :: s' => squeeze_loop s' d
  | _ => Tensor s d
  end.

Definition squeeze_leading (value : tensor) : tensor :=
  squeeze_loop (shape value) (data value).

Definition sum_to_step (target_frames : list frame) (total : option tensor)
    (entry : gset frame * tensor) : result (option tensor) :=
  let '(frames, value) := entry in
  value ← foldM (reduce_frame target_frames) value (elements frames);
  let value := squeeze_leading value in
  match total with
  | None => Ok (Some value)
  | Some tot => Some <$> tensor_add tot value
  end.

Definition sum_to (self : t) (target_frames : list frame) : result tensor :=
  total ← foldM (sum_to_step target_frames) None self;
  Ok (default (scalar 0) total).

End MultiFrameTensor.

(** The per-entry relation of [sum_to]: [sq] is the stored array [entry.2]
    after the reduction over the frames of its key and the squeezing loop. *)
Definition reduced_and_squeezed (target_frames : list frame)
    (entry : gset frame * tensor) (sq : tensor) : Prop :=
  exists reduced k,
    foldM (MultiFrameTensor.reduce_frame target_frames) entry.2 (elements entry.1)
      = Ok reduced
    /\ sq = MultiFrameTensor.squeeze_leading reduced
    /\ shape reduced = replicate k 1%nat ++ shape sq
    /\ data sq = data reduced
    /\ head (shape sq) ≠ Some 1%nat.


(** ** Single precision *)

(** The arrays of JAX hold IEEE 754 binary32 numbers by default: 24 bits of
    precision, rounding to nearest, ties to even. *)
Module Float32.

Definition t : Type := spec_float.

Definition prec : Z := 24.
Definition emax : Z := 128.

(** [jnp.array(0.0)] *)
Definition zero : t := S754_zero false.

(** The array that holds the integer [z], rounded. *)
Definition of_Z (z : Z) : t := binary_normalize prec emax z 0 false.

Definition add : t -> t -> t := SFadd prec emax.
Definition sub : t -> t -> t := SFsub prec emax.
Definition mul : t -> t -> t := SFmul prec emax.
Definition neg : t -> t := SFopp.

End Float32.

(** ** Ordered dictionaries and [_partition] *)

(** [l.pop()] of a Python list: the last element and the rest. *)
Definition list_pop {A : Type} (l : list A) : option (A * list A) :=
  match reverse l with
  | [] => None
  | x :: r => Some (x, reverse r)
  end.

(** An [OrderedDict] from names to lists of names, in insertion order. *)
Module OrderedDict.

Definition t : Type := list (string * list string).

Definition keys (self : t) : list string := self.*1.

(** [self.pop(key)] *)
Fixpoint pop (self : t) (key : string) : result (list string * t) :=
  match self with
  | [] => Raise (KeyError key)
  | (k, v) :: rest =>
      if bool_decide (k = key) then Ok (v, rest)
      else '(r, rest') ← pop rest key; Ok (r, (k, v) :: rest')
  end.

(** [self.popitem()]: the pair inserted last. *)
Definition popitem (self : t) : result ((string * list string) * t) :=
  match list_pop self with
  | Some r => Ok r
  | None => Raise (KeyError "dictionary is empty")
  end.

(** [self[key].append(x)] *)
Fixpoint append_at (self : t) (key x : string) : result t :=
  match self with
  | [] => Raise (KeyError key)
  | (k, v) :: rest =>
      if bool_decide (k = key) then Ok ((k, v ++ [x]) :: rest)
      else rest' ← append_at rest key x; Ok ((k, v) :: rest')
  end.

(** [self.setdefault(key, []).append(x)] *)
Fixpoint setdefault_append (self : t) (key x : string) : t :=
  match self with
  | [] => [(key, [x])]
  | (k, v) :: rest =>
      if bool_decide (k = key) then (k, v ++ [x]) :: rest
      else (k, v) :: setdefault_append rest key x
  end.

End OrderedDict.

(** An [OrderedDict] with [None] values, used as an ordered set:
    [component[v] = None]. *)
Definition ordered_set_add (component : list string) (v : string) : list string :=
  if bool_decide (v ∈ component) then component else component ++ [v].

(** The body of the loop that builds the bipartite graph: one dependency
    [dim] of the cost term [key]. *)
Definition add_neighbor (sum_vars : gset string) (key : string)
    (neighbors : OrderedDict.t) (dim : string) : result OrderedDict.t :=
  if bool_decide (dim ∈ sum_vars) then
    neighbors ← OrderedDict.append_at neighbors key dim;
    Ok (OrderedDict.setdefault_append neighbors dim key)
  else Ok neighbors.

Definition build_neighbors (model_sum_deps : list (string * gset string))
    (sum_vars : gset string) : result OrderedDict.t :=
  foldM (fun neighbors '(key, deps) =>
           foldM (add_neighbor sum_vars key) neighbors (elements deps))
        ((fun kv => (kv.1, [])) <$> model_sum_deps) model_sum_deps.

(** [for v in neighbors.pop(v): if v not in component: ...] *)
Definition scan_neighbors (adjacent : list string)
    (component pending : list string) : list string * list string :=
  fold_left (fun '(component, pending) v =>
               if bool_decide (v ∈ component) then (component, pending)
               else (component ++ [v], pending ++ [v]))
            adjacent (component, pending).

(** [while pending: ...].  Every turn of the loop pops a key of [neighbors],
    so the number of keys bounds the number of turns; [fuel] is that bound
    and [LoopBound] is what the embedding returns if it were exceeded. *)
Fixpoint visit_pending (fuel : nat) (neighbors : OrderedDict.t)
    (component pending : list string)
  : result (OrderedDict.t * list string) :=
  match list_pop pending with
  | None => Ok (neighbors, component)
  | Some (v, pending) =>
      '(adjacent, neighbors) ← OrderedDict.pop neighbors v;
      let '(component, pending) := scan_neighbors adjacent component pending in
      match fuel with
      | O => Raise LoopBound
      | S fuel => visit_pending fuel neighbors component pending
      end
  end.

(** [while neighbors: ...] *)
Fixpoint components_loop (fuel : nat) (sum_vars : gset string)
    (neighbors : OrderedDict.t) (components : list (gset string * gset string))
  : result (list (gset string * gset string)) :=
  match neighbors with
  | [] => Ok components
  | _ :: _ =>
      match fuel with
      | O => Raise LoopBound
      | S fuel =>
          '((v, pending), neighbors) ← OrderedDict.popitem neighbors;
          let component := fold_left ordered_set_add pending [v] in
          '(neighbors, component) ←
            visit_pending (length neighbors) neighbors component pending;
          let component_factors : list string :=
            filter (fun v => v ∉ sum_vars) component in
          let components :=
            match component_factors with
            | [] => components
            | _ :: _ =>
                let component_measures : list string :=
                  filter (fun v => v ∈ sum_vars) component in
                components ++
                  [(list_to_set component_factors, list_to_set component_measures)]
            end in
          components_loop fuel sum_vars neighbors components
      end
  end.

Definition _partition (model_sum_deps : list (string * gset string))
    (sum_vars : gset string) : result (list (gset string * gset string)) :=
  neighbors ← build_neighbors model_sum_deps sum_vars;
  components_loop (length neighbors) sum_vars neighbors [].


(** ** The graph of [_partition]: vocabulary of its specification *)

(** [built ks E nb]: the dictionary [nb] is the adjacency structure of the
    edges [E] over the cost terms [ks]. *)
Definition built (ks : list string) (E : gset (string * string))
    (nb : OrderedDict.t) : Prop :=
  NoDup (OrderedDict.keys nb)
  /\ (forall u, u ∈ OrderedDict.keys nb <-> u ∈ ks \/ exists k, (k, u) ∈ E)
  /\ (forall u l, (u, l) ∈ nb ->
        NoDup l /\ (forall w, w ∈ l <-> (u, w) ∈ E \/ (w, u) ∈ E)).

Definition bipartite (sum_vars : gset string) (E : gset (string * string)) : Prop :=
  forall a b, (a, b) ∈ E -> (a ∉ sum_vars) /\ b ∈ sum_vars.

(** The edges of the bipartite graph: cost term [key] depends on the
    enumerated variable [dim]. *)
Definition edges_from (sum_vars : gset string) (key : string) (ds : list string)
  : gset (string * string) :=
  list_to_set ((fun d => (key, d)) <$> filter (fun d => d ∈ sum_vars) ds).

Definition edges_of (sum_vars : gset string)
    (items : list (string * gset string)) : gset (string * string) :=
  ⋃ ((fun kv => edges_from sum_vars kv.1 (elements kv.2)) <$> items).

Definition adjacent (nb : OrderedDict.t) (u w : string) : Prop :=
  exists l, (u, l) ∈ nb /\ w ∈ l.

(** The dictionary is the adjacency structure of an undirected graph without
    loops and without repeated edges. *)
Definition wf_graph (nb : OrderedDict.t) : Prop :=
  NoDup (OrderedDict.keys nb)
  /\ (forall u l, (u, l) ∈ nb -> NoDup l /\ u ∉ l)
  /\ (forall u w, adjacent nb u w -> adjacent nb w u).

(** The state of the inner loop: [nb0] is the dictionary before [popitem],
    [v0] the key that [popitem] returned. *)
Definition dfs_inv (nb0 : OrderedDict.t) (v0 : string) (nb : OrderedDict.t)
    (component pending : list string) : Prop :=
  NoDup component /\ NoDup pending
  /\ (forall w, w ∈ pending -> w ∈ component)
  /\ NoDup (OrderedDict.keys nb)
  /\ (forall p, p ∈ nb <-> p ∈ nb0 /\ (p.1 ∉ component \/ p.1 ∈ pending))
  /\ (forall w, w ∈ component -> w ∈ OrderedDict.keys nb0)
  /\ (forall u w, u ∈ component -> u ∉ pending -> adjacent nb0 u w -> w ∈ component)
  /\ (forall w, w ∈ component -> rtc (adjacent nb0) v0 w).

(** [F] and [M] are the cost terms and the enumerated variables of one
    connected component of the graph [g]. *)
Definition is_component (g : OrderedDict.t) (sum_vars : gset string)
    (F M : gset string) : Prop :=
  F ≠ ∅
  /\ (forall u, u ∈ F -> u ∉ sum_vars)
  /\ (forall u, u ∈ M -> u ∈ sum_vars)
  /\ (forall u, u ∈ F ∪ M -> u ∈ OrderedDict.keys g)
  /\ (forall u w, u ∈ F ∪ M -> adjacent g u w -> w ∈ F ∪ M)
  /\ (forall u w, u ∈ F ∪ M -> w ∈ F ∪ M -> rtc (adjacent g) u w).

(** The state of the outer loop over the graph [g]. *)
Definition outer_inv (g : OrderedDict.t) (sum_vars : gset string)
    (nb : OrderedDict.t) (components : list (gset string * gset string)) : Prop :=
  wf_graph nb
  /\ (forall p, p ∈ nb -> p ∈ g)
  /\ (forall F M, (F, M) ∈ components ->
        is_component g sum_vars F M
        /\ (forall u, u ∈ F ∪ M -> u ∉ OrderedDict.keys nb))
  /\ (forall i j F1 M1 F2 M2,
        i ≠ j -> components !! i = Some (F1, M1) -> components !! j = Some (F2, M2) ->
        (F1 ∪ M1) ## (F2 ∪ M2))
  /\ (forall u, u ∈ OrderedDict.keys g -> u ∉ sum_vars ->
        u ∈ OrderedDict.keys nb \/ exists F M, (F, M) ∈ components /\ u ∈ F).

(** The bipartite graph of the arguments of [_partition]: the cost term [k]
    depends on the enumerated variable [d]. *)
Definition depends (model_sum_deps : list (string * gset string))
    (sum_vars : gset string) (k d : string) : Prop :=
  exists deps, (k, deps) ∈ model_sum_deps /\ d ∈ deps /\ d ∈ sum_vars.

Definition linked (model_sum_deps : list (string * gset string))
    (sum_vars : gset string) (u w : string) : Prop :=
  depends model_sum_deps sum_vars u w \/ depends model_sum_deps sum_vars w u.

(** [u] and [w] are in the same connected component. *)
Definition connected (model_sum_deps : list (string * gset string))
    (sum_vars : gset string) : relation string :=
  rtc (linked model_sum_deps sum_vars).

(** ** Warnings *)

(** A computation of an estimator returns or raises, and emits warnings:
    [warnings.warn] appends to the log. *)
Definition M (A : Type) : Type := list string -> result A * list string.

Global Instance M_ret : MRet M := fun A a log => (Ok a, log).
Global Instance M_bind : MBind M := fun A B f m log =>
  match m log with
  | (Ok a, log') => f a log'
  | (Raise e, log') => (Raise e, log')
  end.

Definition warn (msg : string) : M unit := fun log => (Ok tt, log ++ [msg]).
Definition raise {A : Type} (e : exn) : M A := fun log => (Raise e, log).
Definition lift {A : Type} (r : result A) : M A := fun log => (r, log).

(** What a collaborator hands back: it returns or raises, and the warnings
    it emitted. *)
Definition W (A : Type) : Type := result A * list string.
Definition call {A : Type} (w : W A) : M A := fun log => (w.1, log ++ w.2).

Fixpoint mapM {A B : Type} (f : A -> M B) (l : list A) : M (list B) :=
  match l with
  | [] => mret []
  | a :: l' => b ← f a; bs ← mapM f l'; mret (b :: bs)
  end.

Fixpoint forM_ {A : Type} (l : list A) (f : A -> M unit) : M unit :=
  match l with
  | [] => mret tt
  | a :: l' => _ ← f a; forM_ l' f
  end.

Fixpoint foldM' {A B : Type} (f : A -> B -> M A) (a : A) (l : list B) : M A :=
  match l with
  | [] => mret a
  | b :: l' => a' ← f a b; foldM' f a' l'
  end.

(** ** Distributions and traces *)

(** The distribution objects, consumed through their interface.
    [kl_divergence] raises [NotImplementedError] when no closed form is
    registered for the pair. *)
Class Distributions : Type := {
  dist : Type;
  log_prob : dist -> tensor -> tensor;
  log_prob_intermediates : dist -> tensor -> list tensor -> tensor;
  has_rsample : dist -> bool;
  kl_divergence : dist -> dist -> result tensor;
  scale_and_mask : tensor -> option tensor -> tensor;
}.

Inductive site_type : Type :=
  | sample | param | mutable | plate | deterministic | other_site.

Global Instance site_type_eq_dec : EqDecision site_type.
Proof. solve_decision. Defined.

(** A site of a trace: the keys of the message that the estimators read. *)
Record site `{Distributions} : Type := Site {
  site_kind : site_type;
  site_fn : dist;
  site_value : tensor;
  site_is_observed : bool;
  site_scale : option tensor;
  site_intermediates : list tensor;
  site_is_auxiliary : bool;
  site_cond_indep_stack : list frame;
  site_log_prob : tensor;
}.

(** A trace is an [OrderedDict] from site names to sites. *)
Abbreviation trace := (list (string * site)).

Fixpoint trace_get `{Distributions} (tr : trace) (name : string) : option site :=
  match tr with
  | [] => None
  | (k, s) :: rest => if bool_decide (k = name) then Some s else trace_get rest name
  end.

(** [tr[name]] *)
Definition trace_item `{Distributions} (tr : trace) (name : string) : result site :=
  match trace_get tr name with
  | Some s => Ok s
  | None => Raise (KeyError name)
  end.

(** [name in tr] *)
Definition trace_mem `{Distributions} (tr : trace) (name : string) : bool :=
  bool_decide (name ∈ tr.*1).

Inductive plate_warning : Type := loose | strict.

(** The handlers and the functions of [numpyro.infer.util], [numpyro.util],
    [numpyro.ops.provenance] and [jax] that the estimators call. *)
Class Handlers `{Distributions} : Type := {
  program : Type;
  arguments : Type;
  key : Type;
  random_split : key -> key * key;
  random_split_n : key -> Z -> result (list key);
  seed : program -> key -> program;
  seed_hide : program -> key -> program;
  substitute : program -> gmap string tensor -> program;
  replay : program -> trace -> program;
  get_trace : program -> arguments -> W trace;
  compute_log_probs :
    program -> arguments -> gmap string tensor -> W (gmap string Z * trace);
  get_importance_trace :
    program -> program -> arguments -> gmap string tensor -> W (trace * trace);
  check_model_guide_match : trace -> trace -> W unit;
  _validate_model : trace -> plate_warning -> W unit;
  get_nonreparam_deps :
    program -> program -> arguments -> gmap string tensor -> gmap string tensor ->
    W (gmap string (gset string) * gmap string (gset string));
  jnp_mean : list Z -> Z;
}.

(** [stop_gradient]: the identity on values, which is all that the embedding
    holds. *)
Definition stop_gradient {A : Type} (x : A) : A := x.

(** ** Losses *)

(** The value of a loss: an array or a dictionary of arrays keyed by site. *)
Inductive pytree (A : Type) : Type :=
  | Leaf (a : A)
  | Dict (d : gmap string A).
Arguments Leaf {A} a.
Arguments Dict {A} d.

(** [jax.tree.map] *)
Definition tree_map {A B : Type} (f : A -> B) (t : pytree A) : pytree B :=
  match t with
  | Leaf a => Leaf (f a)
  | Dict d => Dict (f <$> d)
  end.

Definition tree_leaf {A : Type} (t : pytree A) : option A :=
  match t with Leaf a => Some a | Dict _ => None end.

Definition tree_lookup {A : Type} (name : string) (t : pytree A) : option A :=
  match t with Leaf _ => None | Dict d => d !! name end.

(** The outputs of the particles, stacked along a new leading axis.  The
    body is one Python function, so the outputs share the structure of the
    first. *)
Definition tree_stack {A : Type} (ts : list (pytree A)) : pytree (list A) :=
  match ts with
  | Dict d :: _ => Dict (map_imap (fun name _ => Some (omap (tree_lookup name) ts)) d)
  | _ => Leaf (omap tree_leaf ts)
  end.

Record LossWithMutableState : Type := {
  loss : pytree Z;
  mutable_state : option (gmap string tensor);
}.

(** ** [ELBO] *)

Inductive vectorize_option : Type :=
  | VBool (b : bool)
  | VCallable
  | VOther.

Inductive particle_map : Type := _apply_vmap | lax_map | custom_map.

Record ELBO : Type := {
  num_particles : Z;
  vectorize_particles : vectorize_option;
  vectorize_particles_fn : particle_map;
}.

Definition _assign_vectorize_particles_fn (vectorize_particles : vectorize_option)
  : result particle_map :=
  match vectorize_particles with
  | VCallable => Ok custom_map
  | VBool true => Ok _apply_vmap
  | VBool false => Ok lax_map
  | VOther =>
      Raise (ValueError "`vectorize_particles` needs to be a boolean or a callable.")
  end.

(** [ELBO.__init__]; an argument that is not supplied is [None]. *)
Definition ELBO_init (num_particles : option Z)
    (vectorize_particles : option vectorize_option) : result ELBO :=
  let num_particles := default 1 num_particles in
  let vectorize_particles := default (VBool true) vectorize_particles in
  fn ← _assign_vectorize_particles_fn vectorize_particles;
  Ok {| num_particles := num_particles;
        vectorize_particles := vectorize_particles;
        vectorize_particles_fn := fn |}.

(** [self.vectorize_particles_fn(fn, keys)]: each strategy maps the body over
    the keys and stacks the outputs; the strategies differ in how the work
    is scheduled. *)
Definition vectorize `{Handlers} {A : Type} (fn : particle_map)
    (body : key -> M A) (keys : list key) : M (list A) :=
  mapM body keys.

(** The values at the [mutable] sites of a trace. *)
Definition mutable_values `{Distributions} (tr : trace) : gmap string tensor :=
  fold_left (fun acc kv =>
               if bool_decide (site_kind kv.2 = mutable)
               then <[kv.1 := site_value kv.2]> acc else acc)
            tr ∅.

(** The end of [single_particle_elbo]: what becomes of the mutable state. *)
Definition return_particle {A : Type} (self : ELBO) (elbo_particle : A)
    (mutable_params : gmap string tensor) : M (A * option (gmap string tensor)) :=
  if bool_decide (mutable_params ≠ ∅) then
    if bool_decide (num_particles self = 1) then
      mret (elbo_particle, Some mutable_params)
    else
      _ ← warn "mutable state is currently ignored when num_particles > 1.";
      mret (elbo_particle, None)
  else mret (elbo_particle, None).

(** The end of [loss_with_mutable_state]: one particle, or the mean of
    [num_particles] of them. *)
Definition loss_of_particles `{Handlers} (self : ELBO)
    (single_particle_elbo : key -> M (pytree Z * option (gmap string tensor)))
    (rng_key : key) : M LossWithMutableState :=
  if bool_decide (num_particles self = 1) then
    '(elbo, mutable_state) ← single_particle_elbo rng_key;
    mret {| loss := tree_map Z.opp elbo; mutable_state := mutable_state |}
  else
    rng_keys ← lift (random_split_n rng_key (num_particles self));
    outputs ← vectorize (vectorize_particles_fn self) single_particle_elbo rng_keys;
    let elbos := tree_stack (fst <$> outputs) in
    let mutable_state := head (snd <$> outputs) ≫= id in
    mret {| loss := tree_map (fun x => - jnp_mean x) elbos;
            mutable_state := mutable_state |}.

(** ** [Trace_ELBO] *)

(** [log p(z) - log q(z)] at every site of the union, and their sum. *)
Definition elbo_sites (model_log_probs guide_log_probs : gmap string Z)
  : gmap string Z :=
  let union : gset string := dom model_log_probs ∪ dom guide_log_probs in
  set_to_map (fun name =>
                (name, default 0 (model_log_probs !! name)
                       - default 0 (guide_log_probs !! name)))
             union.

(** [sum(d.values(), start=jnp.array(0.0))] *)
Definition sum_values (d : gmap string Z) : Z :=
  foldl Z.add 0 (map_to_list d).*2.

(** [value[i]] along the leading axis. *)
Definition tensor_index0 (t : tensor) (i : nat) : result tensor :=
  match shape t with
  | n :: s =>
      if bool_decide (i < n)%nat
      then Ok (Tensor s (take (numel s) (drop (i * numel s) (data t))))
      else Raise IndexError
  | [] => Raise IndexError
  end.

Module Trace_ELBO.

Record t : Type := {
  base : ELBO;
  multi_sample_guide : bool;
  sum_sites : bool;
}.

Definition init (num_particles : option Z)
    (vectorize_particles : option vectorize_option)
    (multi_sample_guide sum_sites : option bool) : result t :=
  base ← ELBO_init num_particles vectorize_particles;
  Ok {| base := base;
        multi_sample_guide := default false multi_sample_guide;
        sum_sites := default true sum_sites |}.

Section single_particle.
Context `{Handlers}.
Context (self : t) (param_map : gmap string tensor) (model guide : program)
        (args : arguments).

(** The branch [if self.multi_sample_guide]: the log-densities of the model,
    one run per guide sample, summed over the samples. *)
Definition multi_sample_model_log_probs (params : gmap string tensor)
    (model_seed : key) (guide_trace : trace) : M (gmap string Z) :=
  let plates : gmap string tensor :=
    fold_left (fun acc kv =>
                 if bool_decide (site_kind kv.2 = plate)
                 then <[kv.1 := site_value kv.2]> acc else acc)
              guide_trace ∅ in
  let compute_model_log_probs (key_latent : key * gmap string tensor)
    : M (gmap string Z) :=
    let '(k, latent) := key_latent in
    '(model_log_probs, model_trace) ←
      call (compute_log_probs (seed (substitute model (plates ∪ latent)) k)
              args params);
    _ ← call (_validate_model model_trace loose);
    mret model_log_probs in
  num_guide_samples ←
    match list_find (fun kv => site_kind kv.2 = sample) guide_trace with
    | Some (_, (_, s)) => lift (shape_at (site_value s) 0)
    | None => raise (ValueError "guide is missing `sample` sites.")
    end;
  seeds ← lift (random_split_n model_seed (Z.of_nat num_guide_samples));
  let latents : gmap string tensor :=
    fold_left (fun acc kv =>
                 if bool_decide
                      ((site_kind kv.2 = sample
                        /\ (0 < numel (shape (site_value kv.2)))%nat)
                       \/ site_kind kv.2 = deterministic)
                 then <[kv.1 := site_value kv.2]> acc else acc)
              guide_trace ∅ in
  _ ← lift (map_fold (fun name v acc =>
                        _ ← acc;
                        n ← shape_at v 0;
                        if bool_decide (n = num_guide_samples) then Ok tt
                        else Raise (ValueError
                                      "vmap got inconsistent sizes for array axes to be mapped"))
                     (Ok tt) latents);
  batched ←
    mapM (fun i =>
            k ← lift (match seeds !! i with
                      | Some k => Ok k
                      | None => Raise IndexError
                      end);
            latent ← lift (map_fold (fun name v acc =>
                                       acc ← acc;
                                       v ← tensor_index0 v i;
                                       Ok (<[name := v]> acc))
                                    (Ok ∅) latents);
            compute_model_log_probs (k, latent))
         (seq 0 num_guide_samples);
  mret match tree_stack (Dict <$> batched) with
       | Dict d => foldl Z.add 0 <$> d
       | Leaf _ => ∅
       end.

(** The first part of [single_particle_elbo]: the runs of the guide and of
    the model; it ends with the two dictionaries of log-densities and the
    values collected at the [mutable] sites. *)
Definition particle_log_probs (rng_key : key)
  : M (gmap string Z * gmap string Z * gmap string tensor) :=
  let params := param_map in
  let '(model_seed, guide_seed) := random_split rng_key in
  let seeded_guide := seed guide guide_seed in
  '(guide_log_probs, guide_trace) ←
    call (compute_log_probs seeded_guide args param_map);
  let mutable_params := mutable_values guide_trace in
  let params := mutable_params ∪ params in
  if multi_sample_guide self then
    model_log_probs ←
      multi_sample_model_log_probs params model_seed guide_trace;
    mret (model_log_probs, guide_log_probs, mutable_params)
  else
    let seeded_model := seed model model_seed in
    let replay_model := replay seeded_model guide_trace in
    '(model_log_probs, model_trace) ←
      call (compute_log_probs replay_model args params);
    _ ← call (check_model_guide_match model_trace guide_trace);
    _ ← call (_validate_model model_trace loose);
    mret (model_log_probs, guide_log_probs,
          mutable_values model_trace ∪ mutable_params).

(** The second part: [log p(z) - log q(z)], summed over the sites or not. *)
Definition elbo_particle_of (model_log_probs guide_log_probs : gmap string Z)
  : pytree Z :=
  let _elbo_particle := elbo_sites model_log_probs guide_log_probs in
  if sum_sites self then Leaf (sum_values _elbo_particle)
  else Dict _elbo_particle.

Definition single_particle_elbo (rng_key : key)
  : M (pytree Z * option (gmap string tensor)) :=
  '(model_log_probs, guide_log_probs, mutable_params) ← particle_log_probs rng_key;
  return_particle (base self)
    (elbo_particle_of model_log_probs guide_log_probs) mutable_params.

Definition loss_with_mutable_state (rng_key : key) : M LossWithMutableState :=
  loss_of_particles (base self) single_particle_elbo rng_key.

(** [ELBO.loss]: the loss without the mutable state. *)
Definition loss (rng_key : key) : M (pytree Z) :=
  r ← loss_with_mutable_state rng_key; mret (loss r).

End single_particle.

End Trace_ELBO.

(** The contribution of a site as the specification words it: the
    log-density of the model minus that of the guide, a missing side counting
    for zero, at every name of the union of the two dictionaries. *)
Definition site_contribution (model_log_probs guide_log_probs : gmap string Z)
    (name : string) : option Z :=
  if bool_decide (name ∈ dom model_log_probs ∪ dom guide_log_probs) then
    Some (default 0 (model_log_probs !! name) - default 0 (guide_log_probs !! name))
  else None.

(** ** [TraceMeanField_ELBO] *)

Definition _get_log_prob_sum `{Distributions} (s : site) : Z :=
  let log_prob :=
    match site_intermediates s with
    | [] => log_prob (site_fn s) (site_value s)
    | _ :: _ =>
        log_prob_intermediates (site_fn s) (site_value s) (site_intermediates s)
    end in
  let log_prob := scale_and_mask log_prob (site_scale s) in
  jnp_sum log_prob.

(** The names of the [sample] sites of [tr] that are in [other], in the
    order of [tr]. *)
Definition shared_sample_sites `{Distributions} (tr other : trace) : list string :=
  fst <$> filter (fun kv => site_kind kv.2 = sample /\ trace_mem other kv.1 = true) tr.

Definition newline : string := String (Ascii.ascii_of_nat 10) EmptyString.

(** [sep.join(names)] *)
Fixpoint join (sep : string) (names : list string) : string :=
  match names with
  | [] => EmptyString
  | n :: rest =>
      match rest with
      | [] => n
      | _ :: _ => n +:+ sep +:+ join sep rest
      end
  end.

Definition mean_field_warning (model_sites guide_sites : list string) : string :=
  let sep := newline +:+ "  " in
  "Failed to verify mean field restriction on the guide. To eliminate this warning, ensure model and guide sites occur in the same order."
  +:+ newline +:+ "Model sites:" +:+ sep +:+ join sep model_sites
  +:+ newline +:+ "Guide sites:" +:+ sep +:+ join sep guide_sites.

Definition _check_mean_field_requirement `{Distributions}
    (model_trace guide_trace : trace) : M unit :=
  let model_sites := shared_sample_sites model_trace guide_trace in
  let guide_sites := shared_sample_sites guide_trace model_trace in
  if bool_decide ((list_to_set model_sites : gset string) = list_to_set guide_sites)
  then
    if bool_decide (model_sites ≠ guide_sites)
    then warn (mean_field_warning model_sites guide_sites)
    else mret tt
  else raise AssertionError.

Module TraceMeanField_ELBO.

Record t : Type := {
  base : ELBO;
  sum_sites : bool;
}.

Definition init (num_particles : option Z)
    (vectorize_particles : option vectorize_option)
    (sum_sites : option bool) : result t :=
  base ← ELBO_init num_particles vectorize_particles;
  Ok {| base := base; sum_sites := default true sum_sites |}.

Section single_particle.
Context `{Handlers}.

(** The contribution of a latent site of the model: the analytic
    Kullback-Leibler divergence, or the difference of the log-densities when
    [kl_divergence] raises [NotImplementedError]. *)
Definition latent_contribution (model_site guide_site : site) : result Z :=
  match kl_divergence (site_fn guide_site) (site_fn model_site) with
  | Ok kl_qp =>
      let kl_qp := scale_and_mask kl_qp (site_scale guide_site) in
      Ok (- jnp_sum kl_qp)
  | Raise NotImplementedError =>
      Ok (_get_log_prob_sum model_site - _get_log_prob_sum guide_site)
  | Raise e => Raise e
  end.

(** The body of the loop over the sites of the model. *)
Definition model_site_step (guide_trace : trace) (_elbo_particle : gmap string Z)
    (item : string * site) : result (gmap string Z) :=
  let '(name, model_site) := item in
  if bool_decide (site_kind model_site = sample) then
    if site_is_observed model_site then
      Ok (<[name := _get_log_prob_sum model_site]> _elbo_particle)
    else
      guide_site ← trace_item guide_trace name;
      v ← latent_contribution model_site guide_site;
      Ok (<[name := v]> _elbo_particle)
  else Ok _elbo_particle.

(** The body of the loop over the sites of the guide: auxiliary sites. *)
Definition guide_site_step (model_trace : trace) (_elbo_particle : gmap string Z)
    (item : string * site) : result (gmap string Z) :=
  let '(name, s) := item in
  if bool_decide (site_kind s = sample) && negb (trace_mem model_trace name) then
    if site_is_auxiliary s || site_is_observed s then
      Ok (<[name := - _get_log_prob_sum s]> _elbo_particle)
    else Raise AssertionError
  else Ok _elbo_particle.

Context (self : t) (param_map : gmap string tensor) (model guide : program)
        (args : arguments).

(** The first part of [single_particle_elbo]: the two traces, checked, and
    the values collected at the [mutable] sites. *)
Definition particle_traces (rng_key : key)
  : M (trace * trace * gmap string tensor) :=
  let params := param_map in
  let '(model_seed, guide_seed) := random_split rng_key in
  let seeded_model := seed model model_seed in
  let seeded_guide := seed guide guide_seed in
  let subs_guide := substitute seeded_guide param_map in
  guide_trace ← call (get_trace subs_guide args);
  let mutable_params := mutable_values guide_trace in
  let params := mutable_params ∪ params in
  let subs_model := substitute (replay seeded_model guide_trace) params in
  model_trace ← call (get_trace subs_model args);
  let mutable_params := mutable_values model_trace ∪ mutable_params in
  _ ← call (check_model_guide_match model_trace guide_trace);
  _ ← call (_validate_model model_trace loose);
  _ ← _check_mean_field_requirement model_trace guide_trace;
  mret (model_trace, guide_trace, mutable_params).

(** The second part: the two loops that fill [_elbo_particle]. *)
Definition elbo_sites_of_traces (model_trace guide_trace : trace)
  : result (gmap string Z) :=
  _elbo_particle ← foldM (model_site_step guide_trace) ∅ model_trace;
  foldM (guide_site_step model_trace) _elbo_particle guide_trace.

Definition single_particle_elbo (rng_key : key)
  : M (pytree Z * option (gmap string tensor)) :=
  '(model_trace, guide_trace, mutable_params) ← particle_traces rng_key;
  _elbo_particle ← lift (elbo_sites_of_traces model_trace guide_trace);
  let elbo_particle :=
    if sum_sites self then Leaf (sum_values _elbo_particle)
    else Dict _elbo_particle in
  return_particle (base self) elbo_particle mutable_params.

Definition loss_with_mutable_state (rng_key : key) : M LossWithMutableState :=
  loss_of_particles (base self) single_particle_elbo rng_key.

Definition loss (rng_key : key) : M (pytree Z) :=
  r ← loss_with_mutable_state rng_key; mret (loss r).

End single_particle.

End TraceMeanField_ELBO.

(** ** [RenyiELBO] *)

(** The arithmetic of the Rényi bound (plate scales, [logsumexp], [exp],
    division) is outside exact integer arithmetic and is consumed through
    two functions: [renyi_particle] is the end of [_single_particle_elbo],
    from the traces to the scaled bound and the common plate scale;
    [renyi_combine] is the end of [loss], from the stacked outputs of the
    particles to the loss. *)
Class RenyiArithmetic `{Distributions} : Type := {
  scaled_elbo : Type;
  renyi_particle : trace -> trace -> result (scaled_elbo * Q);
  renyi_combine : Q -> Z -> list scaled_elbo -> list Q -> result Z;
}.

Module RenyiELBO.

Record t : Type := {
  base : ELBO;
  alpha : Q;
}.

(** [RenyiELBO.__init__(self, alpha=0, num_particles=2)] *)
Definition init (alpha : option Q) (num_particles : option Z) : result t :=
  let alpha := default 0%Q alpha in
  let num_particles := default 2 num_particles in
  if Qeq_bool alpha 1 then
    Raise (ValueError
             "The order alpha should not be equal to 1. Please use ELBO classfor the case alpha = 1.")
  else
    base ← ELBO_init (Some num_particles) None;
    Ok {| base := base; alpha := alpha |}.

Section loss.
Context `{Handlers} `{!RenyiArithmetic}.
Context (self : t) (param_map : gmap string tensor) (model guide : program)
        (args : arguments).

Definition _single_particle_elbo (model guide : program) (rng_key : key)
  : M (scaled_elbo * Q) :=
  let '(model_seed, guide_seed) := random_split rng_key in
  let seeded_model := seed model model_seed in
  let seeded_guide := seed guide guide_seed in
  '(model_trace, guide_trace) ←
    call (get_importance_trace seeded_model seeded_guide args param_map);
  _ ← call (check_model_guide_match model_trace guide_trace);
  _ ← call (_validate_model model_trace loose);
  lift (renyi_particle model_trace guide_trace).

(** The sub-keys of the particles. *)
Definition particle_keys (rng_key : key) : result (list key) :=
  let '(plate_key, rng_key) := random_split rng_key in
  random_split_n rng_key (num_particles (base self)).

Definition loss (rng_key : key) : M Z :=
  let '(plate_key, rng_key) := random_split rng_key in
  let model := seed_hide model plate_key in
  let guide := seed_hide guide plate_key in
  let single_particle_elbo := _single_particle_elbo model guide in
  rng_keys ← lift (random_split_n rng_key (num_particles (base self)));
  outputs ←
    vectorize (vectorize_particles_fn (base self)) single_particle_elbo rng_keys;
  let elbos := fst <$> outputs in
  let common_plate_scale := snd <$> outputs in
  lift (renyi_combine (alpha self) (num_particles (base self)) elbos
          common_plate_scale).

(** [ELBO.loss_with_mutable_state], which [RenyiELBO] does not override. *)
Definition loss_with_mutable_state (rng_key : key) : M LossWithMutableState :=
  raise NotImplementedError.

End loss.

End RenyiELBO.

(** ** [TraceGraph_ELBO] *)

Module TraceGraph_ELBO.

Record t : Type := { base : ELBO }.

Definition init (num_particles : option Z)
    (vectorize_particles : option vectorize_option) : result t :=
  base ← ELBO_init num_particles vectorize_particles;
  Ok {| base := base |}.

(** [downstream_costs]: a [defaultdict] of [MultiFrameTensor]s, in insertion
    order. *)
Definition costs : Type := list (string * MultiFrameTensor.t).

Fixpoint costs_get (d : costs) (name : string) : option MultiFrameTensor.t :=
  match d with
  | [] => None
  | (k, v) :: rest => if bool_decide (k = name) then Some v else costs_get rest name
  end.

Fixpoint costs_set (d : costs) (name : string) (v : MultiFrameTensor.t) : costs :=
  match d with
  | [] => [(name, v)]
  | (k, v') :: rest =>
      if bool_decide (k = name) then (k, v) :: rest
      else (k, v') :: costs_set rest name v
  end.

(** [downstream_costs[key].add((stack, value))] *)
Definition costs_add (stack : list frame) (value : tensor) (d : costs)
    (name : string) : result costs :=
  let mft := default MultiFrameTensor.empty (costs_get d name) in
  mft ← MultiFrameTensor.add mft [(stack, value)];
  Ok (costs_set d name mft).

(** [elbo + surrogate - stop_gradient(surrogate)]: the sum is formed first,
    the detached copy is subtracted from it.  The arithmetic of the arrays
    is a parameter. *)
Definition add_surrogate {R : Type} (add sub : R -> R -> R) (elbo surrogate : R)
  : R :=
  sub (add elbo surrogate) (stop_gradient surrogate).

(** What the three loops of a particle do to [elbo]: from [jnp.array(0.0)],
    the summed log-density of every sample site of the model is added, that
    of every sample site of the guide is subtracted, and every surrogate is
    added and subtracted; each list is in the order of its loop. *)
Definition particle_value {R : Type} (zero : R) (add sub : R -> R -> R)
    (model_sums guide_sums surrogates : list R) : R :=
  fold_left (add_surrogate add sub) surrogates
    (fold_left sub guide_sums (fold_left add model_sums zero)).

Section single_particle.
Context `{Handlers}.

(** [deps[name]] *)
Definition deps_item (deps : gmap string (gset string)) (name : string)
  : result (gset string) :=
  match deps !! name with
  | Some s => Ok s
  | None => Raise (KeyError name)
  end.

(** The body of the loop over the sites of the model. *)
Definition model_step (model_deps : gmap string (gset string))
    (st : Z * costs) (item : string * site) : result (Z * costs) :=
  let '(elbo, downstream_costs) := st in
  let '(name, s) := item in
  if bool_decide (site_kind s = sample) then
    let elbo := elbo + jnp_sum (site_log_prob s) in
    upstream ← deps_item model_deps name;
    downstream_costs ←
      foldM (costs_add (site_cond_indep_stack s) (site_log_prob s))
            downstream_costs (elements upstream);
    Ok (elbo, downstream_costs)
  else Ok (elbo, downstream_costs).

(** The body of the loop over the sites of the guide. *)
Definition guide_step (guide_deps : gmap string (gset string))
    (st : Z * costs) (item : string * site) : result (Z * costs) :=
  let '(elbo, downstream_costs) := st in
  let '(name, s) := item in
  if bool_decide (site_kind s = sample) then
    let log_prob_sum := jnp_sum (site_log_prob s) in
    let log_prob_sum :=
      if has_rsample (site_fn s) then log_prob_sum else stop_gradient log_prob_sum in
    let elbo := elbo - log_prob_sum in
    upstream ← deps_item guide_deps name;
    downstream_costs ←
      foldM (costs_add (site_cond_indep_stack s) (tensor_neg (site_log_prob s)))
            downstream_costs (elements upstream);
    Ok (elbo, downstream_costs)
  else Ok (elbo, downstream_costs).

(** The surrogate term of one non-reparameterizable site. *)
Definition surrogate_of (guide_trace : trace)
    (item : string * MultiFrameTensor.t) : result Z :=
  let '(node, cost) := item in
  guide_site ← trace_item guide_trace node;
  downstream_cost ←
    MultiFrameTensor.sum_to cost (site_cond_indep_stack guide_site);
  product ← tensor_mul (site_log_prob guide_site) (stop_gradient downstream_cost);
  Ok (jnp_sum product).

(** The body of the loop over [downstream_costs]. *)
Definition surrogate_step (guide_trace : trace) (elbo : Z)
    (item : string * MultiFrameTensor.t) : result Z :=
  surrogate ← surrogate_of guide_trace item;
  Ok (add_surrogate Z.add Z.sub elbo surrogate).

Context (self : t) (param_map : gmap string tensor) (model guide : program)
        (args : arguments).

(** The first part of [single_particle_elbo]: the traces, checked, and the
    dependencies of the cost terms on non-reparameterizable sites. *)
Definition particle_traces (rng_key : key)
  : M (trace * trace * gmap string (gset string) * gmap string (gset string)) :=
  let '(model_seed, guide_seed) := random_split rng_key in
  let seeded_model := seed model model_seed in
  let seeded_guide := seed guide guide_seed in
  '(model_trace, guide_trace) ←
    call (get_importance_trace seeded_model seeded_guide args param_map);
  _ ← call (check_model_guide_match model_trace guide_trace);
  _ ← call (_validate_model model_trace strict);
  let latents : gmap string tensor :=
    fold_left (fun acc kv =>
                 if bool_decide (site_kind kv.2 = sample)
                    && negb (site_is_observed kv.2)
                 then <[kv.1 := site_value kv.2]> acc else acc)
              guide_trace ∅ in
  '(model_deps, guide_deps) ←
    call (get_nonreparam_deps model guide args param_map latents);
  mret (model_trace, guide_trace, model_deps, guide_deps).

(** The second part: the three loops. *)
Definition elbo_of_traces (model_trace guide_trace : trace)
    (model_deps guide_deps : gmap string (gset string)) : result Z :=
  let elbo := 0 in
  let downstream_costs : costs := [] in
  '(elbo, downstream_costs) ←
    foldM (model_step model_deps) (elbo, downstream_costs) model_trace;
  '(elbo, downstream_costs) ←
    foldM (guide_step guide_deps) (elbo, downstream_costs) guide_trace;
  foldM (surrogate_step guide_trace) elbo downstream_costs.

Definition single_particle_elbo (rng_key : key) : M Z :=
  '(model_trace, guide_trace, model_deps, guide_deps) ← particle_traces rng_key;
  lift (elbo_of_traces model_trace guide_trace model_deps guide_deps).

Definition loss (rng_key : key) : M Z :=
  if bool_decide (num_particles (base self) = 1) then
    elbo ← single_particle_elbo rng_key; mret (- elbo)
  else
    rng_keys ← lift (random_split_n rng_key (num_particles (base self)));
    elbos ←
      vectorize (vectorize_particles_fn (base self)) single_particle_elbo rng_keys;
    mret (- jnp_mean elbos).

End single_particle.

End TraceGraph_ELBO.

(** ** [TraceEnum_ELBO] *)

(** The enumeration of a particle runs in [funsor]; it is consumed as one
    function of the plate nesting, the programs and the two seeds.
    [guess_max_plate_nesting] is the shape inference of the same name. *)
Class Enumeration `{Handlers} : Type := {
  guess_max_plate_nesting :
    program -> program -> arguments -> gmap string tensor -> W nat;
  enum_particle_elbo :
    nat -> program -> program -> arguments -> gmap string tensor ->
    key -> key -> W Z;
}.

Module TraceEnum_ELBO.

(** [max_plate_nesting] is [None] for the sentinel [float("inf")]. *)
Record t : Type := {
  base : ELBO;
  max_plate_nesting : option nat;
}.

Definition init (num_particles : option Z) (max_plate_nesting : option nat)
    (vectorize_particles : option vectorize_option) : result t :=
  base ← ELBO_init num_particles vectorize_particles;
  Ok {| base := base; max_plate_nesting := max_plate_nesting |}.

Section loss.
Context `{Handlers} `{!Enumeration}.
Context (param_map : gmap string tensor) (model guide : program)
        (args : arguments).

(** The particle reads and, the first time, writes [self.max_plate_nesting]. *)
Definition single_particle_elbo (self : t) (rng_key : key) : M (Z * t) :=
  let '(model_seed, guide_seed) := random_split rng_key in
  '(nesting, self) ←
    match max_plate_nesting self with
    | Some n => mret (n, self)
    | None =>
        let seeded_model := seed model model_seed in
        let seeded_guide := seed guide guide_seed in
        n ← call (guess_max_plate_nesting seeded_model seeded_guide args param_map);
        mret (n, {| base := base self; max_plate_nesting := Some n |})
    end;
  elbo ← call (enum_particle_elbo nesting model guide args param_map
                 model_seed guide_seed);
  mret (elbo, self).

Fixpoint particles (self : t) (rng_keys : list key) : M (list Z * t) :=
  match rng_keys with
  | [] => mret ([], self)
  | k :: rest =>
      '(elbo, self) ← single_particle_elbo self k;
      '(elbos, self) ← particles self rest;
      mret (elbo :: elbos, self)
  end.

(** The loss and the estimator after the call. *)
Definition loss (self : t) (rng_key : key) : M (Z * t) :=
  if bool_decide (num_particles (base self) = 1) then
    '(elbo, self) ← single_particle_elbo self rng_key; mret (- elbo, self)
  else
    rng_keys ← lift (random_split_n rng_key (num_particles (base self)));
    '(elbos, self) ← particles self rng_keys;
    mret (- jnp_mean elbos, self).

End loss.

End TraceEnum_ELBO.

(** ** The check of the model against the guide *)

(** The names of the [sample] sites of a trace that are not observed. *)
Definition latent_names `{Distributions} (tr : trace) : list string :=
  fst <$> filter (fun kv => site_kind kv.2 = sample /\ site_is_observed kv.2 = false) tr.

(** Modelled from the spec: [check_model_guide_match] of [numpyro.util],
    whose source is not at hand.  "Validate that every non-observed model
    sample site has a corresponding guide site and vice versa (raise a
    structural error otherwise — model/guide mismatch)". *)
Definition check_model_guide_match_spec `{Distributions}
    (model_trace guide_trace : trace) : W unit :=
  if bool_decide (Forall (fun n => n ∈ guide_trace.*1) (latent_names model_trace)
                  /\ Forall (fun n => n ∈ model_trace.*1) (latent_names guide_trace))
  then (Ok tt, [])
  else (Raise (StructuralError "model/guide mismatch"), []).

(** A latent site of [tr] has no site of its name in [other]. *)
Definition unmatched_latent `{Distributions} (tr other : trace) : Prop :=
  exists name s,
    (name, s) ∈ tr /\ site_kind s = sample /\ site_is_observed s = false
    /\ name ∉ other.*1.

(** ** A computation that does not read the log *)

(** [m] appends its warnings to the log and its outcome does not depend on
    the log it starts from. *)
Definition parametric {A : Type} (m : M A) : Prop :=
  forall log, m log = ((m []).1, log ++ (m []).2).

(** ** The estimators, together *)

Inductive estimator : Type :=
  | ETrace (self : Trace_ELBO.t)
  | EMeanField (self : TraceMeanField_ELBO.t)
  | ERenyi (self : RenyiELBO.t)
  | EGraph (self : TraceGraph_ELBO.t)
  | EEnum (self : TraceEnum_ELBO.t).

Definition estimator_base (e : estimator) : ELBO :=
  match e with
  | ETrace self => Trace_ELBO.base self
  | EMeanField self => TraceMeanField_ELBO.base self
  | ERenyi self => RenyiELBO.base self
  | EGraph self => TraceGraph_ELBO.base self
  | EEnum self => TraceEnum_ELBO.base self
  end.

Section estimators.
Context `{Handlers} `{!RenyiArithmetic} `{!Enumeration}.
Context (param_map : gmap string tensor) (model guide : program) (args : arguments).

(** [estimator.loss(rng_key, param_map, model, guide, *args)]: the loss and
    the estimator after the call.  [TraceEnum_ELBO] is the only one that
    writes to itself, the first time it needs [max_plate_nesting]. *)
Definition estimator_loss (e : estimator) (rng_key : key)
  : M (pytree Z * estimator) :=
  match e with
  | ETrace self =>
      r ← Trace_ELBO.loss self param_map model guide args rng_key; mret (r, e)
  | EMeanField self =>
      r ← TraceMeanField_ELBO.loss self param_map model guide args rng_key;
      mret (r, e)
  | ERenyi self =>
      r ← RenyiELBO.loss self param_map model guide args rng_key;
      mret (Leaf r, e)
  | EGraph self =>
      r ← TraceGraph_ELBO.loss self param_map model guide args rng_key;
      mret (Leaf r, e)
  | EEnum self =>
      '(r, self) ← TraceEnum_ELBO.loss param_map model guide args self rng_key;
      mret (Leaf r, EEnum self)
  end.

(** [RenyiELBO] splits the key once more than the others, for the plates. *)
Definition splits_plate_key (e : estimator) : bool :=
  match e with ERenyi _ => true | _ => false end.

(** The sub-keys handed to the particles: a function of the key and of the
    number of particles. *)
Definition particle_keys (e : estimator) (rng_key : key) : result (list key) :=
  if splits_plate_key e then
    random_split_n (random_split rng_key).2 (num_particles (estimator_base e))
  else if bool_decide (num_particles (estimator_base e) = 1) then Ok [rng_key]
  else random_split_n rng_key (num_particles (estimator_base e)).

(** The loss computed from the results of the splitting: the key of the
    plates, which only [RenyiELBO] uses, and the sub-keys of the particles. *)
Definition loss_from_particle_keys (e : estimator) (plate_key : key)
    (rng_keys : list key) : M (pytree Z * estimator) :=
  match e with
  | ETrace self =>
      outputs ← mapM (Trace_ELBO.single_particle_elbo self param_map model guide args)
                   rng_keys;
      mret (if bool_decide (num_particles (Trace_ELBO.base self) = 1)
            then tree_map Z.opp (default (Leaf 0) (head (fst <$> outputs)))
            else tree_map (fun x => - jnp_mean x) (tree_stack (fst <$> outputs)),
            e)
  | EMeanField self =>
      outputs ← mapM (TraceMeanField_ELBO.single_particle_elbo self param_map model
                        guide args) rng_keys;
      mret (if bool_decide (num_particles (TraceMeanField_ELBO.base self) = 1)
            then tree_map Z.opp (default (Leaf 0) (head (fst <$> outputs)))
            else tree_map (fun x => - jnp_mean x) (tree_stack (fst <$> outputs)),
            e)
  | ERenyi self =>
      outputs ← mapM (RenyiELBO._single_particle_elbo param_map args
                        (seed_hide model plate_key) (seed_hide guide plate_key))
                   rng_keys;
      r ← lift (renyi_combine (RenyiELBO.alpha self)
                  (num_particles (RenyiELBO.base self))
                  (fst <$> outputs) (snd <$> outputs));
      mret (Leaf r, e)
  | EGraph self =>
      elbos ← mapM (TraceGraph_ELBO.single_particle_elbo param_map model guide args)
                 rng_keys;
      mret (Leaf (if bool_decide (num_particles (TraceGraph_ELBO.base self) = 1)
                  then - default 0 (head elbos)
                  else - jnp_mean elbos),
            e)
  | EEnum self =>
      '(elbos, self') ←
        TraceEnum_ELBO.particles param_map model guide args self rng_keys;
      mret (Leaf (if bool_decide (num_particles (TraceEnum_ELBO.base self) = 1)
                  then - default 0 (head elbos)
                  else - jnp_mean elbos),
            EEnum self')
  end.

End estimators.

Definition mutable_warning : string :=
  "mutable state is currently ignored when num_particles > 1.".

(** The contribution [v] of the sample site [s] of the model, named [name],
    as the specification words it for the mean-field estimator. *)
Definition mean_field_contribution `{Distributions} (guide_trace : trace)
    (name : string) (s : site) (v : Z) : Prop :=
  if site_is_observed s then v = _get_log_prob_sum s
  else
    exists guide_site,
      trace_item guide_trace name = Ok guide_site
      /\ match kl_divergence (site_fn guide_site) (site_fn s) with
         | Ok kl => v = - jnp_sum (scale_and_mask kl (site_scale guide_site))
         | Raise NotImplementedError =>
             v = _get_log_prob_sum s - _get_log_prob_sum guide_site
         | Raise _ => False
         end.

(** The sum of the log-densities of the sample sites of a trace. *)
Definition sum_log_probs `{Distributions} (tr : trace) : Z :=
  foldr Z.add 0
    ((fun kv => jnp_sum (site_log_prob kv.2))
       <$> filter (fun kv => site_kind kv.2 = sample) tr).

(** [jnp.sum(site["log_prob"])] for the sample sites of a trace, in its
    order. *)
Definition log_prob_sums `{Distributions} (tr : trace) : list Z :=
  (fun kv => jnp_sum (site_log_prob kv.2))
    <$> filter (fun kv => site_kind kv.2 = sample) tr.

(** ** [Trace_ELBO]: the order of the sites *)

(** [union = set(model_log_probs).union(guide_log_probs)] is a Python set of
    strings.  The order in which a set is iterated follows the hashes of its
    members, and the hash of a string changes from one interpreter process
    to the next.  Here the order is a parameter of the end of
    [single_particle_elbo], and so is the arithmetic of the arrays. *)
Module SiteOrder.

(** [order] is an order in which the set [union] can be iterated. *)
Definition iterates (order : list string) (union : gset string) : Prop :=
  NoDup order /\ forall name, name ∈ order <-> name ∈ union.

Section in_order.
Context {R : Type} (zero : R) (add sub : R -> R -> R) (neg : R -> R).

(** [{name: model_log_probs.get(name, jnp.array(0.0))
            - guide_log_probs.get(name, jnp.array(0.0)) for name in union}]:
    a dictionary keeps the order in which its keys are inserted. *)
Definition _elbo_particle (order : list string)
    (model_log_probs guide_log_probs : gmap string R) : list (string * R) :=
  (fun name => (name, sub (default zero (model_log_probs !! name))
                          (default zero (guide_log_probs !! name)))) <$> order.

(** [sum(_elbo_particle.values(), start=jnp.array(0.0))] *)
Definition sum_values (items : list (string * R)) : R :=
  foldl add zero items.*2.

(** The loss of a call with one particle and [sum_sites]:
    [jax.tree.map(jnp.negative, elbo)]. *)
Definition loss_value (order : list string)
    (model_log_probs guide_log_probs : gmap string R) : R :=
  neg (sum_values (_elbo_particle order model_log_probs guide_log_probs)).

(** The loss of a call with one particle, without [sum_sites]: a dictionary,
    which is compared without regard to the order of its keys. *)
Definition loss_sites (order : list string)
    (model_log_probs guide_log_probs : gmap string R) : gmap string R :=
  neg <$> list_to_map (_elbo_particle order model_log_probs guide_log_probs).

End in_order.

End SiteOrder.

(** ** A model and a guide to run the estimators on *)

Module Example.

(** Distributions are numbered; the log-density at [x] of distribution [d]
    is [-(x - d)^2], the odd ones have no reparameterized sampler, and the
    divergence has a closed form between distributions below 10. *)
Definition quadratic (d : nat) (v : tensor) : tensor :=
  Tensor (shape v) ((fun x => - (x - Z.of_nat d) * (x - Z.of_nat d)) <$> data v).

Global Instance distributions : Distributions := {|
  dist := nat;
  log_prob := quadratic;
  log_prob_intermediates := fun d v _ => quadratic d v;
  has_rsample := Nat.even;
  kl_divergence := fun q p =>
    if bool_decide (q < 10)%nat && bool_decide (p < 10)%nat
    then Ok (scalar ((Z.of_nat q - Z.of_nat p) * (Z.of_nat q - Z.of_nat p)))
    else Raise NotImplementedError;
  scale_and_mask := fun t s =>
    match s with
    | None => t
    | Some c => Tensor (shape t) ((fun x => x * foldr Z.add 0 (data c)) <$> data t)
    end;
|}.

(** What a run of a program leaves: its trace, the log-densities of its
    sample sites, and the dependencies of its cost terms. *)
Record run : Type := {
  run_trace : trace;
  run_log_probs : gmap string Z;
  run_deps : gmap string (gset string);
}.

(** A program is a function of its seed; keys are numbers. *)
Global Instance handlers : Handlers := {|
  program := nat -> run;
  arguments := unit;
  key := nat;
  random_split := fun k => (2 * k + 1, 2 * k + 2)%nat;
  random_split_n := fun k n =>
    if bool_decide (0 <= n) then Ok ((fun i => 100 * k + i)%nat <$> seq 0 (Z.to_nat n))
    else Raise (ValueError "negative number of keys");
  seed := fun p k _ => p k;
  seed_hide := fun p _ => p;
  substitute := fun p _ => p;
  replay := fun p _ => p;
  get_trace := fun p _ => (Ok (run_trace (p 0%nat)), []);
  compute_log_probs := fun p _ _ =>
    (Ok (run_log_probs (p 0%nat), run_trace (p 0%nat)), []);
  get_importance_trace := fun m g _ _ =>
    (Ok (run_trace (m 0%nat), run_trace (g 0%nat)), []);
  check_model_guide_match := check_model_guide_match_spec;
  _validate_model := fun _ _ => (Ok tt, []);
  get_nonreparam_deps := fun m g _ _ _ => (Ok (run_deps (m 0%nat), run_deps (g 0%nat)), []);
  jnp_mean := fun l => foldr Z.add 0 l `div` Z.of_nat (length l);
|}.

Definition data_plate : frame := CondIndepStackFrame "data" (-1) 2.

(** The guide: a latent [z] in a plate of size 2, drawn from a distribution
    without reparameterized sampler, and a mutable site. *)
Definition guide_z (k : nat) : site := {|
  site_kind := sample; site_fn := 3%nat;
  site_value := Tensor [2%nat] [Z.of_nat k; 2];
  site_is_observed := false; site_scale := None; site_intermediates := [];
  site_is_auxiliary := false; site_cond_indep_stack := [data_plate];
  site_log_prob := quadratic 3 (Tensor [2%nat] [Z.of_nat k; 2]);
|}.

Definition counter : site := {|
  site_kind := mutable; site_fn := 0%nat;
  site_value := scalar 7;
  site_is_observed := false; site_scale := None; site_intermediates := [];
  site_is_auxiliary := false; site_cond_indep_stack := [];
  site_log_prob := scalar 0;
|}.

Definition guide : program := fun k => {|
  run_trace := [("z", guide_z k); ("counter", counter)];
  run_log_probs := {[ "z" := jnp_sum (site_log_prob (guide_z k)) ]};
  run_deps := {[ "z" := {["z"]} ]};
|}.

(** The model: the latent [z] and an observation [x], in the same plate. *)
Definition model_z (k : nat) : site := {|
  site_kind := sample; site_fn := 0%nat;
  site_value := Tensor [2%nat] [Z.of_nat k; 2];
  site_is_observed := false; site_scale := None; site_intermediates := [];
  site_is_auxiliary := false; site_cond_indep_stack := [data_plate];
  site_log_prob := quadratic 0 (Tensor [2%nat] [Z.of_nat k; 2]);
|}.

Definition model_x : site := {|
  site_kind := sample; site_fn := 1%nat;
  site_value := Tensor [2%nat] [1; 3];
  site_is_observed := true; site_scale := None; site_intermediates := [];
  site_is_auxiliary := false; site_cond_indep_stack := [data_plate];
  site_log_prob := quadratic 1 (Tensor [2%nat] [1; 3]);
|}.

Definition model : program := fun k => {|
  run_trace := [("z", model_z k); ("x", model_x)];
  run_log_probs :=
    {[ "z" := jnp_sum (site_log_prob (model_z k));
       "x" := jnp_sum (site_log_prob model_x) ]};
  run_deps := {[ "z" := {["z"]}; "x" := {["z"]} ]};
|}.

(** A guide with a latent site that the model does not have. *)
Definition guide_extra : program := fun k => {|
  run_trace := [("z", guide_z k); ("w", guide_z k)];
  run_log_probs :=
    {[ "z" := jnp_sum (site_log_prob (guide_z k));
       "w" := jnp_sum (site_log_prob (guide_z k)) ]};
  run_deps := {[ "z" := {["z"]}; "w" := {["w"]} ]};
|}.

(** A guide whose latent [z] has a distribution without closed-form
    divergence to that of the model. *)
Definition guide_z_far (k : nat) : site := {|
  site_kind := sample; site_fn := 12%nat;
  site_value := Tensor [2%nat] [Z.of_nat k; 2];
  site_is_observed := false; site_scale := None; site_intermediates := [];
  site_is_auxiliary := false; site_cond_indep_stack := [data_plate];
  site_log_prob := quadratic 12 (Tensor [2%nat] [Z.of_nat k; 2]);
|}.

Definition guide_far : program := fun k => {|
  run_trace := [("z", guide_z_far k)];
  run_log_probs := {[ "z" := jnp_sum (site_log_prob (guide_z_far k)) ]};
  run_deps := {[ "z" := {["z"]} ]};
|}.

(** A guide whose latent [z] has a reparameterized sampler, and the model
    run against it: no cost term depends on a non-reparameterizable site. *)
Definition guide_z_smooth (k : nat) : site := {|
  site_kind := sample; site_fn := 2%nat;
  site_value := Tensor [2%nat] [Z.of_nat k; 2];
  site_is_observed := false; site_scale := None; site_intermediates := [];
  site_is_auxiliary := false; site_cond_indep_stack := [data_plate];
  site_log_prob := quadratic 2 (Tensor [2%nat] [Z.of_nat k; 2]);
|}.

Definition guide_smooth : program := fun k => {|
  run_trace := [("z", guide_z_smooth k); ("counter", counter)];
  run_log_probs := {[ "z" := jnp_sum (site_log_prob (guide_z_smooth k)) ]};
  run_deps := {[ "z" := ∅ ]};
|}.

Definition model_smooth : program := fun k => {|
  run_trace := run_trace (model k);
  run_log_probs := run_log_probs (model k);
  run_deps := {[ "z" := ∅; "x" := ∅ ]};
|}.

Definition trace_elbo (n : Z) (sum_sites : bool) : Trace_ELBO.t := {|
  Trace_ELBO.base :=
    {| num_particles := n; vectorize_particles := VBool true;
       vectorize_particles_fn := _apply_vmap |};
  Trace_ELBO.multi_sample_guide := false;
  Trace_ELBO.sum_sites := sum_sites;
|}.

Definition mean_field_elbo (n : Z) (sum_sites : bool) : TraceMeanField_ELBO.t := {|
  TraceMeanField_ELBO.base :=
    {| num_particles := n; vectorize_particles := VBool true;
       vectorize_particles_fn := _apply_vmap |};
  TraceMeanField_ELBO.sum_sites := sum_sites;
|}.

Definition graph_elbo (n : Z) : TraceGraph_ELBO.t := {|
  TraceGraph_ELBO.base :=
    {| num_particles := n; vectorize_particles := VBool true;
       vectorize_particles_fn := _apply_vmap |};
|}.

(** The particle of the Rényi bound, without plate scale, and the bound in
    the limit of a large order: the least of the particles. *)
Global Instance renyi_arithmetic : RenyiArithmetic := {|
  scaled_elbo := Z;
  renyi_particle := fun model_trace guide_trace =>
    Ok (sum_log_probs model_trace - sum_log_probs guide_trace, 1%Q);
  renyi_combine := fun _ _ elbos _ =>
    match elbos with
    | [] => Raise (ValueError "no particle")
    | e :: rest => Ok (- foldr Z.min e rest)
    end;
|}.

(** The depth of the plates of a trace. *)
Definition plate_depth (tr : trace) : nat :=
  foldr Nat.max 0%nat
    ((fun kv => foldr Nat.max 0%nat
                  ((fun f => Z.to_nat (- frame_dim f))
                     <$> site_cond_indep_stack kv.2)) <$> tr).

(** No site is enumerated: a particle is the sum of the log-ratios, when the
    nesting leaves room for the plates. *)
Global Instance enumeration : Enumeration := {|
  guess_max_plate_nesting := fun m g _ _ =>
    (Ok (plate_depth (run_trace (m 0%nat)) `max` plate_depth (run_trace (g 0%nat)))%nat,
     ["guessed max_plate_nesting"]);
  enum_particle_elbo := fun nesting m g _ _ model_seed guide_seed =>
    let model_trace := run_trace (m model_seed) in
    let guide_trace := run_trace (g guide_seed) in
    if bool_decide (plate_depth model_trace `max` plate_depth guide_trace <= nesting)%nat
    then (Ok (sum_log_probs model_trace - sum_log_probs guide_trace), [])
    else (Raise (ValueError "max_plate_nesting is too small"), []);
|}.

Definition enum_elbo (n : Z) (max_plate_nesting : option nat) : TraceEnum_ELBO.t := {|
  TraceEnum_ELBO.base :=
    {| num_particles := n; vectorize_particles := VBool true;
       vectorize_particles_fn := _apply_vmap |};
  TraceEnum_ELBO.max_plate_nesting := max_plate_nesting;
|}.

Definition renyi_elbo (alpha : Q) (n : Z) : RenyiELBO.t := {|
  RenyiELBO.base :=
    {| num_particles := n; vectorize_particles := VBool true;
       vectorize_particles_fn := _apply_vmap |};
  RenyiELBO.alpha := alpha;
|}.

(** Log-densities in single precision: the sites [x] and [y] of a model and
    the site [z] of a guide. *)
Definition model_log_probs32 : gmap string Float32.t :=
  {[ "x" := Float32.of_Z 1; "y" := Float32.of_Z 16777216 ]}.

Definition guide_log_probs32 : gmap string Float32.t :=
  {[ "z" := Float32.of_Z 16777216 ]}.

End Example.


(** ** [TraceEnum_ELBO.loss]: the dependencies of the cost terms *)

Module EnumCosts.

(** [{k: v & sum_vars for k, v in _model_deps.items() if k not in sum_vars}] *)
Definition model_sum_deps (_model_deps : list (string * gset string))
    (sum_vars : gset string) : list (string * gset string) :=
  (fun kv => (kv.1, kv.2 ∩ sum_vars))
    <$> filter (fun kv => kv.1 ∉ sum_vars) _model_deps.

(** [{k: v - sum_vars for k, v in _model_deps.items() if k not in sum_vars}] *)
Definition model_deps (_model_deps : list (string * gset string))
    (sum_vars : gset string) : list (string * gset string) :=
  (fun kv => (kv.1, kv.2 ∖ sum_vars))
    <$> filter (fun kv => kv.1 ∉ sum_vars) _model_deps.

(** [for group_names, group_sum_vars in _partition(model_sum_deps, sum_vars)] *)
Definition cost_groups (_model_deps : list (string * gset string))
    (sum_vars : gset string) : result (list (gset string * gset string)) :=
  _partition (model_sum_deps _model_deps sum_vars) sum_vars.

(** [if name != d: guide_desc[d] |= frozenset([name])], on a
    [defaultdict(frozenset)]. *)
Definition guide_desc_add (name : string) (guide_desc : gmap string (gset string))
    (d : string) : gmap string (gset string) :=
  if bool_decide (name ≠ d)
  then <[d := default ∅ (guide_desc !! d) ∪ {[name]}]> guide_desc
  else guide_desc.

(** The descendants of the variables in the guide:
    [for name, deps in guide_deps.items(): for d in deps: ...]. *)
Definition guide_desc (guide_deps : list (string * gset string))
  : gmap string (gset string) :=
  fold_left (fun acc '(name, deps) =>
               fold_left (guide_desc_add name) (elements deps) acc)
            guide_deps ∅.

(** [guide_desc[name]], a missing key reading as the empty set. *)
Definition guide_desc_get (guide_desc : gmap string (gset string))
    (name : string) : gset string :=
  default ∅ (guide_desc !! name).

End EnumCosts.

(** ** [TraceEnum_ELBO]: the plate nesting *)

Module PlateNesting.

(** The dictionary comprehension of [get_importance_log_probs]: the
    log-densities of the [sample] sites of a trace. *)
Definition sample_log_probs `{Distributions} (tr : trace)
  : list (string * tensor) :=
  (fun kv => (kv.1, site_log_prob kv.2))
    <$> filter (fun kv => site_kind kv.2 = sample) tr.

Definition get_importance_log_probs `{Handlers} (model guide : program)
    (args : arguments) (params : gmap string tensor)
  : W (list (string * tensor) * list (string * tensor)) :=
  let '(traces, warnings) := get_importance_trace model guide args params in
  ((fun '(model_tr, guide_tr) =>
      (sample_log_probs model_tr, sample_log_probs guide_tr)) <$> traces,
   warnings).

(** [max(ndims) if ndims else 0] *)
Definition max_or_zero (ndims : list nat) : nat :=
  match ndims with
  | [] => 0%nat
  | n :: rest => foldl Nat.max n rest
  end.

(** [guess_max_plate_nesting]; [eval_shape] keeps the shapes of what
    [get_importance_log_probs] returns. *)
Definition guess_max_plate_nesting `{Handlers} (model guide : program)
    (args : arguments) (param_map : gmap string tensor) : W nat :=
  let '(log_probs, warnings) :=
    get_importance_log_probs model guide args param_map in
  ((fun '(model_shapes, guide_shapes) =>
      let ndims :=
        (fun kv : string * tensor => length (shape kv.2))
          <$> (model_shapes ++ guide_shapes) in
      max_or_zero ndims) <$> log_probs,
   warnings).

(** [first_available_dim=(-max_plate_nesting - 1) if max_plate_nesting else None] *)
Definition first_available_dim (max_plate_nesting : nat) : option Z :=
  if bool_decide (max_plate_nesting ≠ 0%nat)
  then Some (- Z.of_nat max_plate_nesting - 1)
  else None.

End PlateNesting.

(** ** [get_importance_trace_enum]: the enumerated variables *)

(** The loop over the sites of the two traces, for what it decides: the
    checks of the analytic divergences, the names it adds to [sum_vars] and
    the sites that get a [kl] entry.  The arrays that it stores at the sites
    are values of [funsor] and are not part of the embedding. *)
Module EnumTrace.

Section sites.
Context `{Distributions}.

(** [site["infer"].get("kl") == "analytic"] *)
Variable kl_analytic : site -> bool.

Context (model_trace guide_trace : trace)
        (model_deps guide_desc : gmap string (gset string)).

(** [model_deps[name]] *)
Definition deps_item (name : string) : result (gset string) :=
  match model_deps !! name with
  | Some s => Ok s
  | None => Raise (KeyError name)
  end.

(** The branch of a site of the model that asks for the analytic
    divergence. *)
Definition analytic_kl (sum_vars : gset string) (name : string) (s : site)
  : result unit :=
  deps ← deps_item name;
  if bool_decide (~ deps ## EnumCosts.guide_desc_get guide_desc name) then
    Raise AssertionError
  else
    deps ← deps_item name;
    if bool_decide (~ deps ## sum_vars) then Raise AssertionError
    else if negb (trace_mem guide_trace name) then Raise AssertionError
    else
      guide_site ← trace_item guide_trace name;
      model_site ← trace_item model_trace name;
      _ ← kl_divergence (site_fn guide_site) (site_fn model_site);
      Ok tt.

(** The body of the loop for a site of the model; the state is [sum_vars]
    and the names of the sites with a [kl] entry. *)
Definition model_site_step (st : gset string * gset string)
    (item : string * site) : result (gset string * gset string) :=
  let '(sum_vars, kl_names) := st in
  let '(name, s) := item in
  if bool_decide (site_kind s = sample) then
    model_site ← trace_item model_trace name;
    kl_names ←
      (if kl_analytic model_site then
         _ ← analytic_kl sum_vars name s; Ok ({[name]} ∪ kl_names)
       else Ok kl_names);
    if negb (site_is_observed s || trace_mem guide_trace name)
    then Ok ({[name]} ∪ sum_vars, kl_names)
    else Ok (sum_vars, kl_names)
  else Ok (sum_vars, kl_names).

(** The body of the loop for a site of the guide:
    [model_trace[name].get("kl")] is read for every [sample] site. *)
Definition guide_site_step (st : gset string * gset string)
    (item : string * site) : result (gset string * gset string) :=
  let '(name, s) := item in
  if bool_decide (site_kind s = sample) then
    _ ← trace_item model_trace name; Ok st
  else Ok st.

Definition sum_vars_of_traces : result (gset string * gset string) :=
  st ← foldM model_site_step (∅, ∅) model_trace;
  foldM guide_site_step st guide_trace.

End sites.

End EnumTrace.

(** ** [RenyiELBO._single_particle_elbo]: the plates and the log-densities *)

Module RenyiParticle.

(** The exceptions of this function that [exn] does not list. *)
Inductive py_exn : Type :=
  | TypeError (msg : string)
  | ZeroDivisionError
  | Exn (e : exn).

Inductive outcome (A : Type) : Type :=
  | Returns (a : A)
  | Raises (e : py_exn).
Arguments Returns {A} a.
Arguments Raises {A} e.

Global Instance outcome_ret : MRet outcome := fun A a => Returns a.
Global Instance outcome_bind : MBind outcome := fun A B f r =>
  match r with
  | Returns a => f a
  | Raises e => Raises e
  end.

Definition of_result {A : Type} (r : result A) : outcome A :=
  match r with
  | Ok a => Returns a
  | Raise e => Raises (Exn e)
  end.

Fixpoint fold_outcome {A B : Type} (f : A -> B -> outcome A) (a : A) (l : list B)
  : outcome A :=
  match l with
  | [] => Returns a
  | b :: l' => a' ← f a b; fold_outcome f a' l'
  end.

(** [jnp.squeeze(value, axes)]: the axes listed are removed, and each must
    have size 1. *)
Definition squeeze (t : tensor) (axes : list nat) : result tensor :=
  if forallb (fun ax => bool_decide (shape t !! ax = Some 1%nat)) axes then
    Ok (Tensor (omap id (imap (fun i n => if bool_decide (i ∈ axes) then None
                                          else Some n) (shape t)))
               (data t))
  else
    Raise (ValueError
             "cannot select an axis to squeeze out which has size not equal to one").

Section particle.
Context `{Distributions}.

(** [site["args"][0]] of a [plate] site: the size of the plate, of which
    [frame.size] is the size of the subsample. *)
Variable plate_size : site -> Z.

(** The values of [site_plates], in the order of the trace. *)
Definition site_plates (model_trace : trace) : list (gset frame) :=
  (fun kv => list_to_set (site_cond_indep_stack kv.2))
    <$> filter (fun kv => site_kind kv.2 = sample) model_trace.

(** [set.intersection] of the values of [site_plates], and [set()] when
    there is no sample site. *)
Definition indep_plates (site_plates : list (gset frame)) : gset frame :=
  match site_plates with
  | [] => ∅
  | p :: rest => foldl (∩) p rest
  end.

(** [set.union] of the values of [site_plates]: without argument the
    unbound method raises. *)
Definition all_plates (site_plates : list (gset frame)) : outcome (gset frame) :=
  match site_plates with
  | [] => Raises (TypeError "unbound method set.union() needs an argument")
  | p :: rest => Returns (foldl (∪) p rest)
  end.

(** [model_trace[frame.name]["args"][0]] *)
Definition full_size (model_trace : trace) (f : frame) : result Z :=
  s ← trace_item model_trace (frame_name f);
  Ok (plate_size s).

Definition subsampling_error : exn :=
  ValueError
    "RenyiELBO only supports subsampling in plates that are common to all sample sites, e.g. a data plate that encloses the entire model.".

(** The body of the first loop over the frames. *)
Definition check_plate (model_trace : trace) (indep : gset frame) (_ : unit)
    (f : frame) : result unit :=
  if bool_decide (f ∉ indep) then
    let subsample_size := Z.of_nat (frame_size f) in
    size ← full_size model_trace f;
    if bool_decide (size > subsample_size) then Raise subsampling_error
    else Ok tt
  else Ok tt.

(** The body of the second loop:
    [indep_plate_scale = indep_plate_scale * size / subsample_size]. *)
Definition scale_step (model_trace : trace) (indep_plate_scale : Q) (f : frame)
  : outcome Q :=
  let subsample_size := Z.of_nat (frame_size f) in
  size ← of_result (full_size model_trace f);
  if bool_decide (size > subsample_size) then
    if bool_decide (subsample_size = 0) then Raises ZeroDivisionError
    else Returns (indep_plate_scale * inject_Z size / inject_Z subsample_size)%Q
  else Returns indep_plate_scale.

(** The body of [for dim in range(log_prob.ndim)]. *)
Definition reduce_dim (indep_plate_dims : gset Z) (st : tensor * list nat)
    (dim : nat) : result (tensor * list nat) :=
  let '(log_prob, squeeze_axes) := st in
  let neg_dim := Z.of_nat dim - Z.of_nat (ndim log_prob) in
  if bool_decide (neg_dim ∈ indep_plate_dims) then Ok (log_prob, squeeze_axes)
  else
    log_prob ← tensor_sum_keepdims log_prob (Z.of_nat dim);
    Ok (log_prob, squeeze_axes ++ [dim]).

(** The log-density of one site, summed over the axes that are not those of
    the common plates. *)
Definition reduce_log_prob (indep_plate_dims : gset Z) (log_prob : tensor)
  : result tensor :=
  '(log_prob, squeeze_axes) ←
    foldM (reduce_dim indep_plate_dims) (log_prob, []) (seq 0 (ndim log_prob));
  squeeze log_prob squeeze_axes.

(** [log_densities[trace_type]] *)
Definition log_density (indep_plate_dims : gset Z) (tr : trace) : result tensor :=
  foldM (fun acc (kv : string * site) =>
           if bool_decide (site_kind kv.2 ≠ sample) then Ok acc
           else
             log_prob ← reduce_log_prob indep_plate_dims (site_log_prob kv.2);
             tensor_add acc log_prob)
        (scalar 0) tr.

(** The particle from the traces on: [elbo] and [indep_plate_scale], of
    which the particle returns [elbo / indep_plate_scale] and
    [indep_plate_scale]. *)
Definition elbo_of_traces (model_trace guide_trace : trace)
  : outcome (tensor * Q) :=
  let site_plates := site_plates model_trace in
  let indep_plates := indep_plates site_plates in
  plates ← all_plates site_plates;
  _ ← of_result (foldM (check_plate model_trace indep_plates) tt (elements plates));
  indep_plate_scale ←
    fold_outcome (scale_step model_trace) 1%Q (elements indep_plates);
  let indep_plate_dims : gset Z := set_map frame_dim indep_plates in
  guide ← of_result (log_density indep_plate_dims guide_trace);
  model ← of_result (log_density indep_plate_dims model_trace);
  elbo ← of_result (tensor_sub model guide);
  Returns (elbo, indep_plate_scale).

End particle.

End RenyiParticle.

(** The sizes of the axes of an array of shape [s] that are axes of the
    common plates: those whose negative index is in [indep_plate_dims]. *)
Definition common_axes (indep_plate_dims : gset Z) (s : list nat) : list nat :=
  omap id (imap (fun i n =>
                   if bool_decide (Z.of_nat i - Z.of_nat (length s) ∈ indep_plate_dims)
                   then Some n else None) s).

(** A model with a plate of which only one sample site is inside. *)
Module RenyiExample.

Definition data_site : site := {|
  site_kind := plate; site_fn := 0%nat;
  site_value := Tensor [2%nat] [0; 1];
  site_is_observed := false; site_scale := None; site_intermediates := [];
  site_is_auxiliary := false; site_cond_indep_stack := [];
  site_log_prob := scalar 0;
|}.

(** A sample site outside of the plate. *)
Definition model_y : site := {|
  site_kind := sample; site_fn := 2%nat;
  site_value := scalar 4;
  site_is_observed := true; site_scale := None; site_intermediates := [];
  site_is_auxiliary := false; site_cond_indep_stack := [];
  site_log_prob := Example.quadratic 2 (scalar 4);
|}.

(** The plate has [size] elements, of which 2 are subsampled. *)
Definition plate_size (size : Z) (s : site) : Z := size.

(** Every sample site is in the plate. *)
Definition model_in_plate : trace :=
  [("data", data_site); ("z", Example.model_z 1); ("x", Example.model_x)].

(** One sample site is outside of the plate. *)
Definition model_across_plate : trace :=
  [("data", data_site); ("z", Example.model_z 1); ("y", model_y)].

Definition guide_in_plate : trace := [("data", data_site); ("z", Example.guide_z 2)].

End RenyiExample.
(** * Properties *)

Lemma foldM_unchanged {A B : Type} (f : A -> B -> result A) (a : A) (l : list B) :
  (forall b, b ∈ l -> f a b = Ok a) -> foldM f a l = Ok a.
Proof.
  induction l as [|b l IH]; intros Hl; [done|].
  cbn. rewrite Hl; [|by left]. cbn. apply IH. intros b' Hb'. apply Hl. by right.
Qed.

Section MultiFrameTensor_facts.
Import MultiFrameTensor.

Lemma squeeze_loop_head (s : list nat) (d : list Z) :
  head (shape (squeeze_loop s d)) ≠ Some 1%nat.
Proof.
  induction s as [|a s IH]; cbn; [done|].
  destruct a as [|[|a]]; cbn; try done.
Qed.

Lemma squeeze_loop_id (s : list nat) (d : list Z) :
  head s ≠ Some 1%nat -> squeeze_loop s d = Tensor s d.
Proof. destruct s as [|[|[|a]] s]; cbn; try done. Qed.

Lemma squeeze_leading_id (value : tensor) :
  head (shape value) ≠ Some 1%nat -> squeeze_leading value = value.
Proof.
  intros H. unfold squeeze_leading. rewrite squeeze_loop_id by done.
  by destruct value.
Qed.

Lemma broadcast_aligned_head (s1 s2 r : list nat) :
  broadcast_aligned s1 s2 = Some r ->
  head r = Some 1%nat -> head s1 = Some 1%nat /\ head s2 = Some 1%nat.
Proof.
  destruct s1 as [|a s1], s2 as [|b s2]; cbn; try done.
  - intros [= <-]. done.
  - destruct (broadcast_aligned s1 s2) as [r'|]; cbn; [|done].
    repeat case_bool_decide; intros [= <-]; cbn; intros [= ?]; subst; done.
Qed.

Lemma pad_shape_full (n : nat) (s : list nat) :
  (n <= length s)%nat -> pad_shape n s = s.
Proof.
  intros H. unfold pad_shape.
  replace (n - length s)%nat with 0%nat by lia. done.
Qed.

Lemma broadcast_shapes_head (s1 s2 r : list nat) :
  broadcast_shapes s1 s2 = Some r ->
  head s1 ≠ Some 1%nat -> head s2 ≠ Some 1%nat -> head r ≠ Some 1%nat.
Proof.
  unfold broadcast_shapes. intros Hb H1 H2 Hr.
  destruct (broadcast_aligned_head _ _ _ Hb Hr) as [Ha1 Ha2].
  destruct (decide (length s1 <= length s2)%nat).
  - rewrite (pad_shape_full _ s2) in Ha2 by lia. done.
  - rewrite (pad_shape_full _ s1) in Ha1 by lia. done.
Qed.

Lemma tensor_add_head (t1 t2 r : tensor) :
  tensor_add t1 t2 = Ok r ->
  head (shape t1) ≠ Some 1%nat -> head (shape t2) ≠ Some 1%nat ->
  head (shape r) ≠ Some 1%nat.
Proof.
  unfold tensor_add, tensor_zip.
  destruct (broadcast_shapes (shape t1) (shape t2)) as [s|] eqn:Hb; [|done].
  intros [= <-]. cbn. eauto using broadcast_shapes_head.
Qed.

Lemma reduce_frame_in_target (target_frames : list frame) (value : tensor) (f : frame) :
  f ∈ target_frames -> reduce_frame target_frames value f = Ok value.
Proof. intros H. unfold reduce_frame. by rewrite bool_decide_eq_true_2. Qed.

Lemma init_single (stack : list frame) (value : tensor) :
  frames_in_rank (list_to_set stack) value = true ->
  init [(stack, value)] = Ok [(list_to_set stack, value)].
Proof. intros H. unfold init, add. cbn. by rewrite H. Qed.

End MultiFrameTensor_facts.

(** C8, as the code has it: on a container built from the single pair
    [(stack, value)], whose frame dimensions are negative and within the rank
    of [value], [sum_to stack] sums nothing out and returns [value] with its
    leading axes of size 1 squeezed away; the array is returned unchanged when
    its leading axis, if any, does not have size 1. *)
Theorem sum_to_single_pair (stack : list frame) (value : tensor) :
  MultiFrameTensor.frames_in_rank (list_to_set stack) value = true ->
  (self ← MultiFrameTensor.init [(stack, value)];
   MultiFrameTensor.sum_to self stack)
    = Ok (MultiFrameTensor.squeeze_leading value)
  /\ (head (shape value) ≠ Some 1%nat ->
      (self ← MultiFrameTensor.init [(stack, value)];
       MultiFrameTensor.sum_to self stack) = Ok value).
Proof.
  intros Hrank.
  assert ((self ← MultiFrameTensor.init [(stack, value)];
           MultiFrameTensor.sum_to self stack)
          = Ok (MultiFrameTensor.squeeze_leading value)) as Hsum.
  { rewrite init_single by done. cbn.
    rewrite foldM_unchanged; [done|].
    intros f Hf. apply reduce_frame_in_target.
    apply elem_of_elements in Hf. by apply elem_of_list_to_set in Hf. }
  split; [exact Hsum|].
  intros Hhead. rewrite Hsum. by rewrite squeeze_leading_id.
Qed.

Lemma sum_to_single_pair_witness :
  MultiFrameTensor.frames_in_rank
    (list_to_set [CondIndepStackFrame "data" (-1) 3])
    (Tensor [2; 3]%nat [1; 2; 3; 4; 5; 6]) = true
  /\ (self ← MultiFrameTensor.init
              [([CondIndepStackFrame "data" (-1) 3], Tensor [2; 3]%nat [1; 2; 3; 4; 5; 6])];
      MultiFrameTensor.sum_to self [CondIndepStackFrame "data" (-1) 3])
     = Ok (Tensor [2; 3]%nat [1; 2; 3; 4; 5; 6]).
Proof.
  split; [vm_compute; reflexivity|].
  apply (sum_to_single_pair [CondIndepStackFrame "data" (-1) 3]
           (Tensor [2; 3]%nat [1; 2; 3; 4; 5; 6])).
  - vm_compute. reflexivity.
  - cbn. discriminate.
Defined.

(** C8, as the claim states it, fails: a plate of size 1 gives a log-density of
    shape [(1,)], and [sum_to] returns the array of shape [()]. *)
Lemma sum_to_single_pair_changes_value :
  MultiFrameTensor.frames_in_rank
    (list_to_set [CondIndepStackFrame "data" (-1) 1]) (Tensor [1%nat] [5]) = true
  /\ (self ← MultiFrameTensor.init [([CondIndepStackFrame "data" (-1) 1], Tensor [1%nat] [5])];
      MultiFrameTensor.sum_to self [CondIndepStackFrame "data" (-1) 1])
     = Ok (Tensor [] [5])
  /\ (self ← MultiFrameTensor.init [([CondIndepStackFrame "data" (-1) 1], Tensor [1%nat] [5])];
      MultiFrameTensor.sum_to self [CondIndepStackFrame "data" (-1) 1])
     ≠ Ok (Tensor [1%nat] [5]).
Proof. vm_compute. split; [done|]. split; [done|]. discriminate. Qed.

Section sum_to_facts.
Import MultiFrameTensor.

Lemma squeeze_loop_prefix (s : list nat) (d : list Z) :
  exists k, s = replicate k 1%nat ++ shape (squeeze_loop s d)
            /\ data (squeeze_loop s d) = d.
Proof.
  induction s as [|a s [k [IH1 IH2]]]; [by exists 0%nat|].
  destruct a as [|[|a]].
  - by exists 0%nat.
  - exists (S k). cbn. by rewrite <- IH1.
  - by exists 0%nat.
Qed.

Lemma sum_to_fold (target_frames : list frame) (self : t)
    (total total' : option tensor) :
  foldM (sum_to_step target_frames) total self = Ok total' ->
  exists squeezed,
    Forall2 (reduced_and_squeezed target_frames) self squeezed
    /\ match total, squeezed with
       | None, [] => total' = None
       | None, s0 :: rest => Some <$> foldM tensor_add s0 rest = Ok total'
       | Some tot, _ => Some <$> foldM tensor_add tot squeezed = Ok total'
       end.
Proof.
  revert total. induction self as [|[frames value] self IH]; intros total Hfold.
  - cbn in Hfold. injection Hfold as <-. exists []. split; [constructor|].
    by destruct total.
  - cbn in Hfold.
    destruct (foldM (reduce_frame target_frames) value (elements frames))
      as [reduced|e] eqn:Hred; [|done].
    cbn in Hfold.
    assert (reduced_and_squeezed target_frames (frames, value)
              (squeeze_leading reduced)) as Hrel.
    { destruct (squeeze_loop_prefix (shape reduced) (data reduced)) as [k [Hk Hd]].
      exists reduced, k. repeat split; try done.
      apply squeeze_loop_head. }
    destruct total as [tot|].
    + destruct (tensor_add tot (squeeze_leading reduced)) as [tot'|e] eqn:Hadd;
        [|done].
      cbn in Hfold. destruct (IH _ Hfold) as [squeezed [Hall Hsum]].
      exists (squeeze_leading reduced :: squeezed). split; [by constructor|].
      cbn. rewrite Hadd. cbn. done.
    + cbn in Hfold. destruct (IH _ Hfold) as [squeezed [Hall Hsum]].
      exists (squeeze_leading reduced :: squeezed). split; [by constructor|].
      done.
Qed.

Lemma foldM_tensor_add_head (t0 r : tensor) (l : list tensor) :
  foldM tensor_add t0 l = Ok r ->
  head (shape t0) ≠ Some 1%nat ->
  Forall (fun sq => head (shape sq) ≠ Some 1%nat) l ->
  head (shape r) ≠ Some 1%nat.
Proof.
  revert t0. induction l as [|x l IH]; intros t0 Hfold H0 Hl.
  - cbn in Hfold. by injection Hfold as <-.
  - cbn in Hfold. destruct (tensor_add t0 x) as [t1|e] eqn:Hadd; [|done].
    cbn in Hfold. inversion Hl; subst.
    eapply IH; eauto using tensor_add_head.
Qed.

End sum_to_facts.

(** C10: when [sum_to target_frames] returns on a non-empty container, the
    result has no leading axis of size 1.  Every stored array is first reduced
    over the frames of its key, then loses all its leading axes of size 1,
    and only then are the arrays added, from left to right; and a frame
    axis whose current size is 1 is left alone by the reduction, whether the
    frame is a target frame or not. *)
Theorem sum_to_no_leading_unit_axis (self : MultiFrameTensor.t)
    (target_frames : list frame) (r : tensor) :
  self ≠ [] ->
  MultiFrameTensor.sum_to self target_frames = Ok r ->
  head (shape r) ≠ Some 1%nat
  /\ (exists s0 rest,
        Forall2 (reduced_and_squeezed target_frames) self (s0 :: rest)
        /\ foldM tensor_add s0 rest = Ok r)
  /\ (forall value f,
        shape_at value (frame_dim f) = Ok 1%nat ->
        MultiFrameTensor.reduce_frame target_frames value f = Ok value).
Proof.
  intros Hne Hsum. unfold MultiFrameTensor.sum_to in Hsum.
  destruct (foldM (MultiFrameTensor.sum_to_step target_frames) None self)
    as [total|e] eqn:Hfold; [|done].
  cbn in Hsum. injection Hsum as <-.
  destruct (sum_to_fold _ _ _ _ Hfold) as [squeezed [Hall Htot]].
  destruct squeezed as [|s0 rest].
  { inversion Hall; subst. done. }
  destruct (foldM tensor_add s0 rest) as [r|e] eqn:Hadd; [|done].
  cbn in Htot. injection Htot as <-. cbn.
  assert (Forall (fun sq => head (shape sq) ≠ Some 1%nat) (s0 :: rest)) as Hheads.
  { clear -Hall. revert Hall. generalize (s0 :: rest) as l. intros l Hall.
    induction Hall as [|entry sq self' l' Hrel _ IH]; constructor; [|done].
    destruct Hrel as (reduced & k & _ & _ & _ & _ & Hhead). done. }
  inversion Hheads; subst.
  split; [eauto using foldM_tensor_add_head|].
  split; [by exists s0, rest|].
  intros value f Hone. unfold MultiFrameTensor.reduce_frame.
  case_bool_decide; [done|]. rewrite Hone. cbn. done.
Qed.

Lemma sum_to_no_leading_unit_axis_witness :
  exists r,
    MultiFrameTensor.sum_to
      [ (list_to_set [CondIndepStackFrame "outer" (-2) 2],
         Tensor [2; 3]%nat [1; 2; 3; 4; 5; 6]);
        (list_to_set [CondIndepStackFrame "inner" (-1) 3],
         Tensor [1; 3]%nat [10; 20; 30]) ]
      [CondIndepStackFrame "inner" (-1) 3] = Ok r
    /\ r = Tensor [3%nat] [15; 27; 39]
    /\ head (shape r) ≠ Some 1%nat.
Proof.
  eexists. split; [vm_compute; reflexivity|]. split; [reflexivity|].
  eapply (sum_to_no_leading_unit_axis
            [ (list_to_set [CondIndepStackFrame "outer" (-2) 2],
               Tensor [2; 3]%nat [1; 2; 3; 4; 5; 6]);
              (list_to_set [CondIndepStackFrame "inner" (-1) 3],
               Tensor [1; 3]%nat [10; 20; 30]) ]
            [CondIndepStackFrame "inner" (-1) 3]).
  - discriminate.
  - vm_compute. reflexivity.
Defined.

(** ** [_partition] *)

Lemma list_pop_None {A : Type} (l : list A) : list_pop l = None <-> l = [].
Proof.
  unfold list_pop. destruct (reverse l) as [|x r] eqn:Hr.
  - split; [|done]. intros _. apply (f_equal reverse) in Hr.
    by rewrite reverse_involutive in Hr.
  - split; [done|]. intros ->. done.
Qed.

Lemma list_pop_Some {A : Type} (l l' : list A) (x : A) :
  list_pop l = Some (x, l') <-> l = l' ++ [x].
Proof.
  unfold list_pop. split.
  - destruct (reverse l) as [|y r] eqn:Hr; [done|]. intros [= -> <-].
    apply (f_equal reverse) in Hr. rewrite reverse_involutive in Hr.
    by rewrite Hr, reverse_cons.
  - intros ->. by rewrite reverse_snoc, reverse_involutive.
Qed.

Section OrderedDict_facts.
Import OrderedDict.

Lemma pop_length (self self' : t) (key : string) (v : list string) :
  pop self key = Ok (v, self') -> length self = S (length self').
Proof.
  revert self'. induction self as [|[k l] self IH]; intros self'; cbn; [done|].
  case_bool_decide.
  - by intros [= <- <-].
  - destruct (pop self key) as [[r rest']|e]; cbn; [|done].
    intros [= <- <-]. cbn. by rewrite (IH rest').
Qed.

Lemma pop_raise (self : t) (key : string) (e : exn) :
  pop self key = Raise e -> e = KeyError key /\ key ∉ keys self.
Proof.
  induction self as [|[k l] self IH]; cbn.
  - intros [= <-]. split; [done|]. apply not_elem_of_nil.
  - case_bool_decide; [done|].
    destruct (pop self key) as [[r rest']|e'] eqn:Hpop; cbn; [done|].
    intros [= <-]. destruct (IH eq_refl) as [-> Hnot]. split; [done|].
    unfold keys in *. cbn. rewrite not_elem_of_cons. done.
Qed.

Lemma pop_spec (self self' : t) (key : string) (v : list string) :
  NoDup (keys self) ->
  pop self key = Ok (v, self') ->
  (key, v) ∈ self
  /\ NoDup (keys self')
  /\ (forall p, p ∈ self' <-> p ∈ self /\ p.1 ≠ key).
Proof.
  unfold keys. revert self'.
  induction self as [|[k l] self IH]; intros self' Hnd; cbn; [done|].
  cbn in Hnd. apply NoDup_cons in Hnd as [Hk Hnd].
  case_bool_decide as Hkey.
  - intros [= <- <-]. subst k. split; [by left|]. split; [done|].
    intros [u lu]. rewrite elem_of_cons. cbn. split.
    + intros Hin. split; [by right|]. intros ->. apply Hk.
      apply list_elem_of_fmap. by exists (key, lu).
    + intros [[[= -> ->]|Hin] Hne]; done.
  - destruct (pop self key) as [[r rest']|e] eqn:Hpop; cbn; [|done].
    intros [= <- <-]. destruct (IH rest' Hnd eq_refl) as (Hin & Hnd' & Hiff).
    split; [by right|]. split.
    + cbn. apply NoDup_cons. split; [|done]. intros Hk'. apply Hk.
      apply list_elem_of_fmap in Hk' as [[u lu] [-> Hu]].
      apply Hiff in Hu as [Hu _]. apply list_elem_of_fmap. by exists (u, lu).
    + intros p. rewrite !elem_of_cons, Hiff. split.
      * intros [->|[? ?]]; [split; [by left|done]|]. split; [by right|done].
      * intros [[->|?] ?]; [by left|]. by right.
Qed.

Lemma pop_ok (self : t) (key : string) :
  key ∈ keys self -> exists v self', pop self key = Ok (v, self').
Proof.
  intros Hin. destruct (pop self key) as [[v self']|e] eqn:Hpop; [eauto|].
  by apply pop_raise in Hpop as [_ Hnot].
Qed.

Lemma append_at_raise (self : t) (key x : string) (e : exn) :
  append_at self key x = Raise e -> e = KeyError key /\ key ∉ keys self.
Proof.
  induction self as [|[k l] self IH]; cbn.
  - intros [= <-]. split; [done|]. apply not_elem_of_nil.
  - case_bool_decide; [done|].
    destruct (append_at self key x) as [rest'|e'] eqn:Happ; cbn; [done|].
    intros [= <-]. destruct (IH eq_refl) as [-> Hnot]. split; [done|].
    unfold keys in *. cbn. rewrite not_elem_of_cons. done.
Qed.

End OrderedDict_facts.

(** The loops of [_partition] never reach the bound of the embedding. *)
Lemma scan_neighbors_app (adjacent component pending : list string) :
  exists new,
    scan_neighbors adjacent component pending = (component ++ new, pending ++ new).
Proof.
  unfold scan_neighbors. revert component pending.
  induction adjacent as [|w adjacent IH]; intros component pending; cbn.
  - exists []. by rewrite !app_nil_r.
  - case_bool_decide.
    + apply IH.
    + destruct (IH (component ++ [w]) (pending ++ [w])) as [new ->].
      exists (w :: new). by rewrite <- !app_assoc.
Qed.

Lemma visit_pending_bound (fuel : nat) (neighbors : OrderedDict.t)
    (component pending : list string) :
  (length neighbors <= fuel)%nat ->
  match visit_pending fuel neighbors component pending with
  | Ok (neighbors', _) => (length neighbors' <= length neighbors)%nat
  | Raise e => e ≠ LoopBound
  end.
Proof.
  revert neighbors component pending.
  induction fuel as [|fuel IH]; intros neighbors component pending Hlen; cbn.
  - destruct (list_pop pending) as [[v pending']|]; [|done].
    destruct (OrderedDict.pop neighbors v) as [[adjacent neighbors']|e] eqn:Hpop; cbn.
    + apply pop_length in Hpop. lia.
    + by apply pop_raise in Hpop as [-> _].
  - destruct (list_pop pending) as [[v pending']|]; [|done].
    destruct (OrderedDict.pop neighbors v) as [[adjacent neighbors']|e] eqn:Hpop; cbn.
    + apply pop_length in Hpop.
      destruct (scan_neighbors_app adjacent component pending') as [new ->].
      specialize (IH neighbors' (component ++ new) (pending' ++ new)).
      destruct (visit_pending fuel neighbors' (component ++ new) (pending' ++ new))
        as [[nb' c']|e]; [|apply IH; lia].
      etrans; [apply IH; lia|lia].
    + by apply pop_raise in Hpop as [-> _].
Qed.

Lemma components_loop_bound (fuel : nat) (sum_vars : gset string)
    (neighbors : OrderedDict.t) (components : list (gset string * gset string)) :
  (length neighbors <= fuel)%nat ->
  components_loop fuel sum_vars neighbors components ≠ Raise LoopBound.
Proof.
  revert neighbors components.
  induction fuel as [|fuel IH]; intros neighbors components Hlen.
  - destruct neighbors; [done|cbn in Hlen; lia].
  - destruct neighbors as [|kv neighbors]; [done|].
    remember (kv :: neighbors) as nb eqn:Hnb.
    cbn. rewrite Hnb at 1. unfold OrderedDict.popitem.
    destruct (list_pop nb) as [[[v pending] nb']|] eqn:Hpop; cbn; [|done].
    apply list_pop_Some in Hpop.
    assert (length nb = S (length nb')) as Hlen'.
    { rewrite Hpop, length_app. cbn. lia. }
    pose proof (visit_pending_bound (length nb') nb'
                  (fold_left ordered_set_add pending [v]) pending) as Hvisit.
    destruct (visit_pending (length nb') nb'
                (fold_left ordered_set_add pending [v]) pending)
      as [[nb'' component]|e]; cbn.
    + apply IH. specialize (Hvisit (le_n _)). lia.
    + intros [= ->]. by apply Hvisit.
Qed.

Lemma foldM_raise {A B : Type} (P : exn -> Prop) (f : A -> B -> result A)
    (a : A) (l : list B) (e : exn) :
  (forall a b e, f a b = Raise e -> P e) -> foldM f a l = Raise e -> P e.
Proof.
  intros Hf. revert a. induction l as [|b l IH]; intros a; cbn; [done|].
  destruct (f a b) as [a'|e'] eqn:Hfa; cbn; eauto.
  intros [= <-]. eauto.
Qed.

Lemma build_neighbors_bound (model_sum_deps : list (string * gset string))
    (sum_vars : gset string) :
  build_neighbors model_sum_deps sum_vars ≠ Raise LoopBound.
Proof.
  intros Hb. unfold build_neighbors in Hb.
  eapply (foldM_raise (fun e => e ≠ LoopBound)) in Hb; [done|].
  intros nb [key deps] e He.
  eapply (foldM_raise (fun e => e ≠ LoopBound)); [|exact He].
  clear. intros nb dim e. unfold add_neighbor. case_bool_decide; [|done].
  destruct (OrderedDict.append_at nb key dim) as [nb'|e'] eqn:Happ; cbn; [done|].
  intros [= <-]. by apply append_at_raise in Happ as [-> _].
Qed.

(** The bound on the loops of [_partition] is never reached, whatever the
    arguments: the embedding returns what the program returns or raises. *)
Lemma partition_bound (model_sum_deps : list (string * gset string))
    (sum_vars : gset string) :
  _partition model_sum_deps sum_vars ≠ Raise LoopBound.
Proof.
  unfold _partition.
  destruct (build_neighbors model_sum_deps sum_vars) as [nb|e] eqn:Hb; cbn.
  - by apply components_loop_bound.
  - intros [= ->]. by apply build_neighbors_bound in Hb.
Qed.

(** *** The graph that [_partition] builds *)



Section build_facts.
Import OrderedDict.

Lemma keys_elem_of (self : t) (u : string) :
  u ∈ keys self <-> exists l, (u, l) ∈ self.
Proof.
  unfold keys. rewrite list_elem_of_fmap. split.
  - intros [[u' l] [-> H]]. by exists l.
  - intros [l H]. by exists (u, l).
Qed.

Lemma NoDup_keys_inj (self : t) (u : string) (l1 l2 : list string) :
  NoDup (keys self) -> (u, l1) ∈ self -> (u, l2) ∈ self -> l1 = l2.
Proof.
  unfold keys. induction self as [|[k l] self IH]; cbn; intros Hnd H1 H2.
  - by apply elem_of_nil in H1.
  - apply NoDup_cons in Hnd as [Hk Hnd].
    apply elem_of_cons in H1 as [H1|H1], H2 as [H2|H2].
    + congruence.
    + exfalso. apply Hk. apply list_elem_of_fmap. exists (u, l2).
      split; [|done]. cbn. congruence.
    + exfalso. apply Hk. apply list_elem_of_fmap. exists (u, l1).
      split; [|done]. cbn. congruence.
    + eauto.
Qed.

Lemma append_at_spec (self : t) (key x : string) (l : list string) :
  NoDup (keys self) -> (key, l) ∈ self ->
  exists self',
    append_at self key x = Ok self'
    /\ keys self' = keys self
    /\ (forall u lu, (u, lu) ∈ self' <->
          (u ≠ key /\ (u, lu) ∈ self) \/ (u = key /\ lu = l ++ [x])).
Proof.
  unfold keys. induction self as [|[k v] self IH]; cbn; intros Hnd Hin.
  - by apply elem_of_nil in Hin.
  - apply NoDup_cons in Hnd as [Hk Hnd]. case_bool_decide as Hkey.
    + subst k. assert (v = l) as ->.
      { apply elem_of_cons in Hin as [[= ->]|Hin]; [done|].
        exfalso. apply Hk. apply list_elem_of_fmap. by exists (key, l). }
      eexists. split; [done|]. split; [done|].
      intros u lu. rewrite !elem_of_cons. split.
      * intros [[= -> ->]|Hu]; [by right|]. left. split; [|by right].
        intros ->. apply Hk. apply list_elem_of_fmap. by exists (key, lu).
      * intros [[Hne [[= -> ->]|Hu]]|[-> ->]]; [done|by right|by left].
    + apply elem_of_cons in Hin as [[= -> ->]|Hin]; [done|].
      destruct (IH Hnd Hin) as (self' & -> & Hkeys & Hiff). cbn.
      eexists. split; [done|]. split; [cbn; by rewrite Hkeys|].
      intros u lu. rewrite !elem_of_cons, Hiff. split.
      * intros [[= -> ->]|[[? ?]|[-> ->]]].
        -- left. split; [done|by left].
        -- left. split; [done|by right].
        -- by right.
      * intros [[Hne [[= -> ->]|Hu]]|[-> ->]].
        -- by left.
        -- right. by left.
        -- right. by right.
Qed.

Lemma setdefault_append_present (self : t) (key x : string) (l : list string) :
  NoDup (keys self) -> (key, l) ∈ self ->
  keys (setdefault_append self key x) = keys self
  /\ (forall u lu, (u, lu) ∈ setdefault_append self key x <->
        (u ≠ key /\ (u, lu) ∈ self) \/ (u = key /\ lu = l ++ [x])).
Proof.
  unfold keys. induction self as [|[k v] self IH]; cbn; intros Hnd Hin.
  - by apply elem_of_nil in Hin.
  - apply NoDup_cons in Hnd as [Hk Hnd]. case_bool_decide as Hkey.
    + subst k. assert (v = l) as ->.
      { apply elem_of_cons in Hin as [[= ->]|Hin]; [done|].
        exfalso. apply Hk. apply list_elem_of_fmap. by exists (key, l). }
      split; [done|].
      intros u lu. rewrite !elem_of_cons. split.
      * intros [[= -> ->]|Hu]; [by right|]. left. split; [|by right].
        intros ->. apply Hk. apply list_elem_of_fmap. by exists (key, lu).
      * intros [[Hne [[= -> ->]|Hu]]|[-> ->]]; [done|by right|by left].
    + apply elem_of_cons in Hin as [[= -> ->]|Hin]; [done|].
      destruct (IH Hnd Hin) as (Hkeys & Hiff). cbn.
      split; [by rewrite Hkeys|].
      intros u lu. rewrite !elem_of_cons, Hiff. split.
      * intros [[= -> ->]|[[? ?]|[-> ->]]].
        -- left. split; [done|by left].
        -- left. split; [done|by right].
        -- by right.
      * intros [[Hne [[= -> ->]|Hu]]|[-> ->]].
        -- by left.
        -- right. by left.
        -- right. by right.
Qed.

Lemma setdefault_append_absent (self : t) (key x : string) :
  key ∉ keys self -> setdefault_append self key x = self ++ [(key, [x])].
Proof.
  unfold keys. induction self as [|[k v] self IH]; cbn; intros Hnot; [done|].
  apply not_elem_of_cons in Hnot as [Hne Hnot].
  rewrite bool_decide_eq_false_2 by done. by rewrite IH.
Qed.

End build_facts.

Section build_steps.
Import OrderedDict.
Context (ks : list string) (sum_vars : gset string).

Lemma add_neighbor_skip (key dim : string) (nb : t) :
  dim ∉ sum_vars -> add_neighbor sum_vars key nb dim = Ok nb.
Proof. intros H. unfold add_neighbor. by rewrite bool_decide_eq_false_2. Qed.

Lemma add_neighbor_built (E : gset (string * string)) (nb : t) (key dim : string) :
  built ks E nb -> bipartite sum_vars E ->
  key ∈ ks -> key ∉ sum_vars -> dim ∈ sum_vars -> (key, dim) ∉ E ->
  exists nb',
    add_neighbor sum_vars key nb dim = Ok nb'
    /\ built ks (E ∪ {[(key, dim)]}) nb'.
Proof.
  intros (Hnd & Hkeys & Hadj) Hbip Hkey HkeyS HdimS Hfresh.
  assert (key ≠ dim) as Hne by (intros ->; done).
  assert ((dim, key) ∉ E) as Hfresh'.
  { intros Hin. by apply Hbip in Hin as [? _]. }
  assert (forall w, (dim, w) ∉ E) as Hdim_src.
  { intros w Hin. by apply Hbip in Hin as [? _]. }
  unfold add_neighbor. rewrite bool_decide_eq_true_2 by done.
  assert (key ∈ keys nb) as Hkin by (apply Hkeys; by left).
  apply keys_elem_of in Hkin as [lk Hlk].
  destruct (append_at_spec nb key dim lk Hnd Hlk) as (nb1 & -> & Hkeys1 & Hiff1).
  cbn. eexists. split; [done|].
  assert (NoDup (keys nb1)) as Hnd1 by (by rewrite Hkeys1).
  destruct (decide (dim ∈ keys nb)) as [Hdin|Hdnot].
  - (* the enumerated variable already has an entry *)
    apply keys_elem_of in Hdin as [ld Hld].
    assert ((dim, ld) ∈ nb1) as Hld1.
    { apply Hiff1. left. split; [done|done]. }
    destruct (setdefault_append_present nb1 dim key ld Hnd1 Hld1) as [Hkeys2 Hiff2].
    split; [by rewrite Hkeys2|]. split.
    + intros u. rewrite Hkeys2, Hkeys1, Hkeys. split.
      * intros [?|[k ?]]; [by left|]. right. exists k. set_solver.
      * intros [?|[k Hk]]; [by left|].
        apply elem_of_union in Hk as [Hk|Hk]; [right; by exists k|].
        apply elem_of_singleton in Hk as [= -> ->].
        apply Hkeys. apply keys_elem_of. by exists ld.
    + intros u l Hul. apply Hiff2 in Hul as [[Hud Hul]|[-> ->]].
      * apply Hiff1 in Hul as [[Huk Hul]|[-> ->]].
        -- destruct (Hadj u l Hul) as [Hndl Hl]. split; [done|].
           intros w. rewrite Hl. set_solver.
        -- destruct (Hadj key lk Hlk) as [Hndl Hl]. split.
           ++ apply NoDup_app. split; [done|]. split; [|apply NoDup_singleton].
              intros w Hw ->%list_elem_of_singleton. apply Hl in Hw. set_solver.
           ++ intros w. rewrite elem_of_app, Hl, list_elem_of_singleton. set_solver.
      * destruct (Hadj dim ld Hld) as [Hndl Hl]. split.
        -- apply NoDup_app. split; [done|]. split; [|apply NoDup_singleton].
           intros w Hw ->%list_elem_of_singleton. apply Hl in Hw. set_solver.
        -- intros w. rewrite elem_of_app, Hl, list_elem_of_singleton. set_solver.
  - (* a new entry is appended *)
    assert (dim ∉ keys nb1) as Hdnot1 by (by rewrite Hkeys1).
    rewrite setdefault_append_absent by done.
    assert (forall k, (k, dim) ∉ E) as Hdim_tgt.
    { intros k Hk. apply Hdnot. apply Hkeys. right. by exists k. }
    split.
    { unfold keys in *. rewrite fmap_app. cbn. apply NoDup_app.
      split; [done|]. split; [|apply NoDup_singleton].
      intros w Hw ->%list_elem_of_singleton. done. }
    split.
    + intros u. unfold keys in *. rewrite fmap_app, elem_of_app. cbn.
      rewrite list_elem_of_singleton, Hkeys1, Hkeys. split.
      * intros [[?|[k ?]]| ->]; [by left| |].
        -- right. exists k. set_solver.
        -- right. exists key. set_solver.
      * intros [?|[k Hk]]; [left; by left|].
        apply elem_of_union in Hk as [Hk|Hk]; [left; right; by exists k|].
        apply elem_of_singleton in Hk as [= -> ->]. by right.
    + intros u l Hul. apply elem_of_app in Hul as [Hul|Hul].
      * apply Hiff1 in Hul as [[Huk Hul]|[-> ->]].
        -- destruct (Hadj u l Hul) as [Hndl Hl]. split; [done|].
           intros w. rewrite Hl.
           assert (u ≠ dim).
           { intros ->. apply Hdnot. apply keys_elem_of. by exists l. }
           set_solver.
        -- destruct (Hadj key lk Hlk) as [Hndl Hl]. split.
           ++ apply NoDup_app. split; [done|]. split; [|apply NoDup_singleton].
              intros w Hw ->%list_elem_of_singleton. apply Hl in Hw. set_solver.
           ++ intros w. rewrite elem_of_app, Hl, list_elem_of_singleton. set_solver.
      * apply list_elem_of_singleton in Hul as [= -> ->].
        split; [apply NoDup_singleton|].
        intros w. rewrite list_elem_of_singleton.
        specialize (Hdim_src w). specialize (Hdim_tgt w). set_solver.
Qed.

End build_steps.



Section build_loops.
Import OrderedDict.
Context (ks : list string) (sum_vars : gset string).

Lemma elem_of_edges_from (key : string) (ds : list string) (a b : string) :
  (a, b) ∈ edges_from sum_vars key ds <-> a = key /\ b ∈ ds /\ b ∈ sum_vars.
Proof.
  unfold edges_from. rewrite elem_of_list_to_set, list_elem_of_fmap. split.
  - intros [d [[= -> ->] Hd]]. apply list_elem_of_filter in Hd as [? ?]. done.
  - intros (-> & Hb & HbS). exists b. split; [done|].
    apply list_elem_of_filter. done.
Qed.

Lemma elem_of_edges_of (items : list (string * gset string)) (a b : string) :
  (a, b) ∈ edges_of sum_vars items <->
  exists deps, (a, deps) ∈ items /\ b ∈ deps /\ b ∈ sum_vars.
Proof.
  unfold edges_of. rewrite elem_of_union_list. split.
  - intros [X [HX Hab]]. apply list_elem_of_fmap in HX as [[k deps] [-> Hin]].
    apply elem_of_edges_from in Hab as (-> & Hb & HbS). cbn in *.
    exists deps. split; [done|]. split; [|done]. by apply elem_of_elements in Hb.
  - intros (deps & Hin & Hb & HbS).
    exists (edges_from sum_vars a (elements deps)). split.
    + apply list_elem_of_fmap. by exists (a, deps).
    + apply elem_of_edges_from. split; [done|]. split; [|done].
      by apply elem_of_elements.
Qed.

Lemma bipartite_union (E1 E2 : gset (string * string)) :
  bipartite sum_vars E1 -> bipartite sum_vars E2 -> bipartite sum_vars (E1 ∪ E2).
Proof. intros H1 H2 a b [?|?]%elem_of_union; eauto. Qed.

Lemma foldM_add_neighbor_built (ds : list string) (E : gset (string * string))
    (nb : t) (key : string) :
  built ks E nb -> bipartite sum_vars E ->
  key ∈ ks -> key ∉ sum_vars -> NoDup ds ->
  (forall d, d ∈ ds -> (key, d) ∉ E) ->
  exists nb',
    foldM (add_neighbor sum_vars key) nb ds = Ok nb'
    /\ built ks (E ∪ edges_from sum_vars key ds) nb'.
Proof.
  revert E nb. induction ds as [|d ds IH]; intros E nb Hb Hbip Hkey HkeyS Hnd Hfresh.
  - exists nb. split; [done|].
    cut (E ∪ edges_from sum_vars key [] = E); [by intros ->|].
    unfold edges_from. cbn. set_solver.
  - apply NoDup_cons in Hnd as [Hd Hnd]. cbn [foldM].
    destruct (decide (d ∈ sum_vars)) as [HdS|HdS].
    + destruct (add_neighbor_built ks sum_vars E nb key d) as (nb1 & -> & Hb1);
        try done.
      { apply Hfresh. by left. }
      cbn [mbind result_bind].
      destruct (IH (E ∪ {[(key, d)]}) nb1) as (nb' & -> & Hb'); try done.
      { apply bipartite_union; [done|]. intros a b [= -> ->]%elem_of_singleton.
        done. }
      { intros d' Hd' [Hin|Hin%elem_of_singleton]%elem_of_union.
        - apply (Hfresh d'); [by right|done].
        - injection Hin as ->. done. }
      exists nb'. split; [done|].
      cut (E ∪ edges_from sum_vars key (d :: ds)
            = E ∪ {[(key, d)]} ∪ edges_from sum_vars key ds);
        [by intros ->|].
      apply set_eq. intros [a b].
      rewrite !elem_of_union, !elem_of_edges_from, elem_of_singleton, elem_of_cons.
      split.
      * intros [?|(-> & [->|?] & ?)]; [left; by left| |].
        -- left. by right.
        -- right. done.
      * intros [[?|[= -> ->]]|(-> & ? & ?)]; [by left| |].
        -- right. split; [done|]. split; [by left|done].
        -- right. split; [done|]. split; [by right|done].
    + rewrite add_neighbor_skip by done. cbn [mbind result_bind].
      destruct (IH E nb) as (nb' & -> & Hb'); try done.
      { intros d' Hd'. apply Hfresh. by right. }
      exists nb'. split; [done|].
      cut (E ∪ edges_from sum_vars key (d :: ds)
            = E ∪ edges_from sum_vars key ds);
        [by intros ->|].
      apply set_eq. intros [a b].
      rewrite !elem_of_union, !elem_of_edges_from, elem_of_cons.
      split.
      * intros [?|(-> & [->|?] & ?)]; [by left|done|]. right. done.
      * intros [?|(-> & ? & ?)]; [by left|]. right. split; [done|].
        split; [by right|done].
Qed.

Lemma bipartite_edges_from (key : string) (ds : list string) :
  key ∉ sum_vars -> bipartite sum_vars (edges_from sum_vars key ds).
Proof. intros Hkey a b (-> & _ & Hb)%elem_of_edges_from. done. Qed.

Lemma foldM_items_built (items : list (string * gset string))
    (E : gset (string * string)) (nb : t) :
  built ks E nb -> bipartite sum_vars E ->
  (forall k, k ∈ items.*1 -> k ∈ ks /\ k ∉ sum_vars) ->
  NoDup items.*1 ->
  (forall a b, (a, b) ∈ E -> a ∉ items.*1) ->
  exists nb',
    foldM (fun neighbors '(key, deps) =>
             foldM (add_neighbor sum_vars key) neighbors (elements deps))
          nb items = Ok nb'
    /\ built ks (E ∪ edges_of sum_vars items) nb'.
Proof.
  revert E nb.
  induction items as [|[key deps] items IH]; intros E nb Hb Hbip Hks Hnd Hfresh.
  - exists nb. split; [done|].
    cut (E ∪ edges_of sum_vars [] = E); [by intros ->|].
    unfold edges_of. cbn. set_solver.
  - cbn in Hnd. apply NoDup_cons in Hnd as [Hkey Hnd]. cbn [foldM].
    destruct (Hks key) as [HkeyK HkeyS]; [cbn; by left|].
    destruct (foldM_add_neighbor_built (elements deps) E nb key)
      as (nb1 & -> & Hb1); try done.
    { apply NoDup_elements. }
    { intros d _ Hin. apply (Hfresh _ _ Hin). cbn. by left. }
    cbn [mbind result_bind].
    destruct (IH (E ∪ edges_from sum_vars key (elements deps)) nb1)
      as (nb' & -> & Hb'); try done.
    { apply bipartite_union; [done|]. by apply bipartite_edges_from. }
    { intros k Hk. apply Hks. cbn. by right. }
    { intros a b [Hin|Hin]%elem_of_union.
      - intros Ha. apply (Hfresh _ _ Hin). cbn. by right.
      - apply elem_of_edges_from in Hin as (-> & _ & _). done. }
    exists nb'. split; [done|].
    cut (E ∪ edges_of sum_vars ((key, deps) :: items)
            = E ∪ edges_from sum_vars key (elements deps) ∪ edges_of sum_vars items);
        [by intros ->|].
    unfold edges_of. cbn. set_solver.
Qed.

Lemma bipartite_edges_of (items : list (string * gset string)) :
  (forall k, k ∈ items.*1 -> k ∉ sum_vars) ->
  bipartite sum_vars (edges_of sum_vars items).
Proof.
  intros Hks a b (deps & Hin & _ & Hb)%elem_of_edges_of. split; [|done].
  apply Hks. apply list_elem_of_fmap. by exists (a, deps).
Qed.

End build_loops.

Lemma build_neighbors_built (model_sum_deps : list (string * gset string))
    (sum_vars : gset string) :
  NoDup model_sum_deps.*1 ->
  (forall k, k ∈ model_sum_deps.*1 -> k ∉ sum_vars) ->
  exists nb,
    build_neighbors model_sum_deps sum_vars = Ok nb
    /\ built model_sum_deps.*1 (edges_of sum_vars model_sum_deps) nb.
Proof.
  intros Hnd Hdisj. unfold build_neighbors.
  assert (built model_sum_deps.*1 ∅
            ((fun kv : string * gset string => (kv.1, [])) <$> model_sum_deps))
    as Hinit.
  { assert (OrderedDict.keys ((fun kv : string * gset string => (kv.1, []))
                                <$> model_sum_deps) = model_sum_deps.*1) as Hkeys.
    { unfold OrderedDict.keys. rewrite <- list_fmap_compose. done. }
    split; [by rewrite Hkeys|]. split.
    + intros u. rewrite Hkeys. split; [by left|]. intros [?|[k ?]]; [done|].
      set_solver.
    + intros u l Hul. apply list_elem_of_fmap in Hul as [[k deps] [[= -> ->] _]].
      split; [apply NoDup_nil_2|]. intros w. set_solver. }
  assert (bipartite sum_vars ∅) as Hbip by (intros a b Hin; set_solver).
  destruct (foldM_items_built model_sum_deps.*1 sum_vars model_sum_deps ∅ _
              Hinit Hbip) as (nb & Hfold & Hb).
  - intros k Hk. split; [done|]. by apply Hdisj.
  - done.
  - intros a b Hin. set_solver.
  - exists nb. split; [done|].
    cut (edges_of sum_vars model_sum_deps
         = ∅ ∪ edges_of sum_vars model_sum_deps); [by intros ->|]. set_solver.
Qed.

(** *** The search for a connected component *)




Section dfs_facts.
Import OrderedDict.

Lemma adjacent_key (nb : t) (u w : string) : adjacent nb u w -> u ∈ keys nb.
Proof. intros [l [Hl _]]. apply keys_elem_of. by exists l. Qed.

Lemma scan_neighbors_spec (adj component pending : list string) :
  exists new,
    scan_neighbors adj component pending = (component ++ new, pending ++ new)
    /\ NoDup new
    /\ (forall w, w ∈ new <-> w ∈ adj /\ w ∉ component).
Proof.
  unfold scan_neighbors. revert component pending.
  induction adj as [|x adj IH]; intros component pending; cbn.
  - exists []. rewrite !app_nil_r. split; [done|]. split; [apply NoDup_nil_2|].
    intros w. split; [by intros ?%elem_of_nil|]. by intros [?%elem_of_nil _].
  - case_bool_decide as Hx.
    + destruct (IH component pending) as (new & -> & Hnd & Hiff).
      exists new. split; [done|]. split; [done|].
      intros w. rewrite Hiff, elem_of_cons. split; [intros [? ?]; eauto|].
      intros [[->|?] ?]; done.
    + destruct (IH (component ++ [x]) (pending ++ [x])) as (new & -> & Hnd & Hiff).
      exists (x :: new). rewrite <- !app_assoc. split; [done|]. split.
      * apply NoDup_cons. split; [|done]. intros Hin. apply Hiff in Hin as [_ Hin].
        apply Hin. apply elem_of_app. right. by left.
      * intros w. rewrite !elem_of_cons, Hiff, elem_of_app, list_elem_of_singleton.
        split.
        -- intros [->|[? Hn]]; [split; [by left|done]|].
           split; [by right|]. intros ?. apply Hn. by left.
        -- intros [[->|?] Hn]; [by left|].
           destruct (decide (w = x)) as [->|]; [by left|]. right.
           split; [done|]. intros [?|?]; done.
Qed.

Lemma dfs_step (nb0 : t) (v0 : string) (nb : t)
    (component pending : list string) (v : string) :
  wf_graph nb0 ->
  dfs_inv nb0 v0 nb component (pending ++ [v]) ->
  exists adj nb',
    pop nb v = Ok (adj, nb')
    /\ dfs_inv nb0 v0 nb' (scan_neighbors adj component pending).1
         (scan_neighbors adj component pending).2.
Proof.
  intros (Hg1 & Hg2 & Hg3) (Hc & Hp & Hpc & Hnd & Hnb & Hk0 & Hclosed & Hconn).
  apply NoDup_app in Hp as (Hp & Hpv & _).
  assert (v ∉ pending) as Hv_pend.
  { intros Hin. apply (Hpv v Hin). by left. }
  assert (v ∈ component) as Hv_comp.
  { apply Hpc. apply elem_of_app. right. by left. }
  assert (v ∈ keys nb) as Hv_nb.
  { destruct (proj1 (keys_elem_of nb0 v) (Hk0 v Hv_comp)) as [l Hl].
    apply keys_elem_of. exists l. apply Hnb. split; [done|]. right. cbn.
    apply elem_of_app. right. by left. }
  destruct (pop_ok nb v Hv_nb) as (adj & nb' & Hpop).
  exists adj, nb'. split; [done|].
  destruct (pop_spec nb nb' v adj Hnd Hpop) as (Hadj & Hnd' & Hnb').
  apply Hnb in Hadj as [Hadj0 _].
  destruct (scan_neighbors_spec adj component pending) as (new & -> & Hnew & Hnew_iff).
  cbn.
  assert (forall w, w ∈ new -> w ∉ pending) as Hnew_pend.
  { intros w Hw Hin. apply Hnew_iff in Hw as [_ Hw]. apply Hw, Hpc.
    apply elem_of_app. by left. }
  split_and!.
  - apply NoDup_app. split; [done|]. split; [|done].
    intros w Hw Hin. by apply Hnew_iff in Hin as [_ Hin].
  - apply NoDup_app. split; [done|]. split; [|done].
    intros w Hw Hin. by apply (Hnew_pend w).
  - intros w [Hw|Hw]%elem_of_app; apply elem_of_app; [|by right].
    left. apply Hpc. apply elem_of_app. by left.
  - done.
  - intros p. split.
    + intros Hin. apply Hnb' in Hin as [Hin Hne]. apply Hnb in Hin as [Hin Hor].
      split; [done|]. destruct Hor as [Hor|Hor].
      * destruct (decide (p.1 ∈ new)) as [Hpn|Hpn].
        -- right. apply elem_of_app. by right.
        -- left. intros [?|?]%elem_of_app; done.
      * right. apply elem_of_app in Hor as [Hor|Hor%list_elem_of_singleton];
          [|done]. apply elem_of_app. by left.
    + intros [Hin Hor]. apply Hnb'. split.
      * apply Hnb. split; [done|]. destruct Hor as [Hor|Hor].
        -- left. intros ?. apply Hor. apply elem_of_app. by left.
        -- apply elem_of_app in Hor as [Hor|Hor].
           ++ right. apply elem_of_app. by left.
           ++ left. by apply Hnew_iff in Hor as [_ Hor].
      * intros Heq. destruct Hor as [Hor|Hor].
        -- apply Hor. apply elem_of_app. left. by rewrite Heq.
        -- rewrite Heq in Hor. apply elem_of_app in Hor as [Hor|Hor]; [done|].
           by apply Hnew_iff in Hor as [_ Hor].
  - intros w [Hw|Hw]%elem_of_app; [by apply Hk0|].
    apply Hnew_iff in Hw as [Hw _].
    eapply adjacent_key. apply Hg3. by exists adj.
  - intros u w [Hu|Hu]%elem_of_app Hup Hadj.
    + destruct (decide (u = v)) as [->|Hne].
      * destruct Hadj as [l [Hl Hw]].
        assert (l = adj) as -> by (by apply (NoDup_keys_inj nb0 v)).
        destruct (decide (w ∈ component)); apply elem_of_app; [by left|].
        right. by apply Hnew_iff.
      * apply elem_of_app. left. apply (Hclosed u w); [done| |done].
        intros [?|?%list_elem_of_singleton]%elem_of_app; [|done].
        apply Hup. apply elem_of_app. by left.
    + exfalso. apply Hup. apply elem_of_app. by right.
  - intros w [Hw|Hw]%elem_of_app; [by apply Hconn|].
    apply Hnew_iff in Hw as [Hw _].
    eapply rtc_r; [by apply Hconn|]. by exists adj.
Qed.

End dfs_facts.

Section visit_facts.
Import OrderedDict.

Lemma visit_pending_inv (fuel : nat) (nb0 : t) (v0 : string) (nb : t)
    (component pending : list string) :
  wf_graph nb0 ->
  dfs_inv nb0 v0 nb component pending ->
  (length nb <= fuel)%nat ->
  exists nb' component',
    visit_pending fuel nb component pending = Ok (nb', component')
    /\ dfs_inv nb0 v0 nb' component' [].
Proof.
  intros Hg. revert nb component pending.
  induction fuel as [|fuel IH]; intros nb component pending Hinv Hlen.
  - cbn. destruct (list_pop pending) as [[v pending']|] eqn:Hpop.
    + apply list_pop_Some in Hpop as ->.
      destruct (dfs_step nb0 v0 nb component pending' v Hg Hinv)
        as (adj & nb' & Hp & _).
      apply pop_length in Hp. lia.
    + apply list_pop_None in Hpop as ->. by exists nb, component.
  - cbn. destruct (list_pop pending) as [[v pending']|] eqn:Hpop.
    + apply list_pop_Some in Hpop as ->.
      destruct (dfs_step nb0 v0 nb component pending' v Hg Hinv)
        as (adj & nb' & Hp & Hinv').
      rewrite Hp. cbn.
      destruct (scan_neighbors adj component pending') as [component' pending''].
      apply IH; [done|]. apply pop_length in Hp. lia.
    + apply list_pop_None in Hpop as ->. by exists nb, component.
Qed.

Lemma fold_ordered_set_add (pending component : list string) :
  NoDup (component ++ pending) ->
  fold_left ordered_set_add pending component = component ++ pending.
Proof.
  revert component. induction pending as [|w pending IH]; intros component Hnd.
  - cbn. by rewrite app_nil_r.
  - cbn. unfold ordered_set_add at 2. rewrite bool_decide_eq_false_2.
    + rewrite IH; [by rewrite <- app_assoc|]. by rewrite <- app_assoc.
    + apply NoDup_app in Hnd as (_ & Hnd & _). intros Hin.
      apply (Hnd w Hin). by left.
Qed.

(** One turn of the outer loop, from [popitem] to the end of the search. *)
Lemma extract_component (nb0 nb1 : t) (v : string) (pending : list string) :
  wf_graph nb0 ->
  nb0 = nb1 ++ [(v, pending)] ->
  exists nb' component,
    visit_pending (length nb1) nb1 (fold_left ordered_set_add pending [v]) pending
      = Ok (nb', component)
    /\ wf_graph nb'
    /\ (forall p, p ∈ nb' <-> p ∈ nb0 /\ p.1 ∉ component)
    /\ (forall w, w ∈ component -> w ∈ keys nb0)
    /\ (forall u w, u ∈ component -> adjacent nb0 u w -> w ∈ component)
    /\ (forall w, w ∈ component -> rtc (adjacent nb0) v w).
Proof.
  intros Hg Hnb0. pose proof Hg as (Hg1 & Hg2 & Hg3).
  assert ((v, pending) ∈ nb0) as Hv.
  { rewrite Hnb0. apply elem_of_app. right. by left. }
  destruct (Hg2 v pending Hv) as [Hnd_p Hv_p].
  assert (NoDup ([v] ++ pending)) as Hnd_c.
  { cbn. apply NoDup_cons. done. }
  rewrite fold_ordered_set_add by done. cbn [app].
  assert (NoDup (keys nb1) /\ v ∉ keys nb1) as [Hnd1 Hv1].
  { unfold keys in *. rewrite Hnb0, fmap_app in Hg1. cbn in Hg1.
    apply NoDup_app in Hg1 as (? & Hd & _). split; [done|].
    intros Hin. apply (Hd v Hin). by left. }
  assert (dfs_inv nb0 v nb1 (v :: pending) pending) as Hinv.
  { split_and!.
    - done.
    - done.
    - intros w Hw. by right.
    - done.
    - intros p. split.
      + intros Hp. split; [rewrite Hnb0; apply elem_of_app; by left|].
        assert (p.1 ≠ v).
        { intros Heq. apply Hv1. rewrite <- Heq. apply list_elem_of_fmap. by exists p. }
        destruct (decide (p.1 ∈ pending)); [by right|]. left.
        intros [?|?]%elem_of_cons; done.
      + intros [Hp Hor]. rewrite Hnb0 in Hp.
        apply elem_of_app in Hp as [Hp|Hp%list_elem_of_singleton]; [done|].
        subst p. cbn in Hor. destruct Hor as [Hor|Hor]; [|done].
        exfalso. apply Hor. by left.
    - intros w [->|Hw]%elem_of_cons.
      + apply keys_elem_of. by exists pending.
      + eapply adjacent_key. apply Hg3. by exists pending.
    - intros u w [->|Hu]%elem_of_cons Hup Hadj; [|done].
      destruct Hadj as [l [Hl Hw]].
      assert (l = pending) as -> by (by apply (NoDup_keys_inj nb0 v)).
      by right.
    - intros w [->|Hw]%elem_of_cons; [done|].
      apply rtc_once. by exists pending. }
  destruct (visit_pending_inv (length nb1) nb0 v nb1 (v :: pending) pending
              Hg Hinv (le_n _)) as (nb' & component & Hvisit & Hfinal).
  exists nb', component. split; [done|].
  destruct Hfinal as (Hc & _ & _ & Hnd' & Hnb' & Hk0 & Hclosed & Hconn).
  assert (forall p, p ∈ nb' <-> p ∈ nb0 /\ p.1 ∉ component) as Hnb''.
  { intros p. rewrite Hnb'. split; intros [? Hor]; (split; [done|]).
    - destruct Hor as [?|?%elem_of_nil]; done.
    - by left. }
  assert (forall u w, u ∈ component -> adjacent nb0 u w -> w ∈ component)
    as Hclosed'.
  { intros u w Hu. apply Hclosed; [done|]. apply not_elem_of_nil. }
  split_and!; try done.
  split_and!.
  - done.
  - intros u l Hul. apply Hnb'' in Hul as [Hul _]. by apply Hg2.
  - intros u w [l [Hul Hw]]. apply Hnb'' in Hul as [Hul Hu]. cbn in Hu.
    destruct (Hg3 u w) as [l' [Hwl Hu']]; [by exists l|].
    exists l'. split; [|done]. apply Hnb''. split; [done|]. cbn.
    intros Hwc. apply Hu. apply (Hclosed' w u); [done|]. by exists l'.
Qed.

End visit_facts.

(** *** The components *)



Section outer_facts.
Import OrderedDict.
Context (g : t) (sum_vars : gset string).

Lemma rtc_adjacent_sym (nb : t) (u w : string) :
  wf_graph nb -> rtc (adjacent nb) u w -> rtc (adjacent nb) w u.
Proof.
  intros (_ & _ & Hsym) Hrtc. induction Hrtc as [|x y z Hxy _ IH]; [done|].
  eapply rtc_r; [exact IH|]. by apply Hsym.
Qed.

Lemma adjacent_sub (nb : t) (u w : string) :
  (forall p, p ∈ nb -> p ∈ g) -> adjacent nb u w -> adjacent g u w.
Proof. intros Hsub [l [Hl Hw]]. exists l. eauto. Qed.

Lemma filter_partition_union (component : list string) :
  (list_to_set (filter (fun v => v ∉ sum_vars) component) : gset string)
    ∪ list_to_set (filter (fun v => v ∈ sum_vars) component)
  = list_to_set component.
Proof.
  apply set_eq. intros x.
  rewrite elem_of_union, !elem_of_list_to_set, !list_elem_of_filter.
  destruct (decide (x ∈ sum_vars)); naive_solver.
Qed.

Lemma outer_step (nb nb1 : t) (v : string) (pending : list string)
    (components : list (gset string * gset string)) :
  wf_graph g ->
  outer_inv g sum_vars nb components ->
  nb = nb1 ++ [(v, pending)] ->
  exists nb' component,
    visit_pending (length nb1) nb1 (fold_left ordered_set_add pending [v]) pending
      = Ok (nb', component)
    /\ (length nb' <= length nb1)%nat
    /\ outer_inv g sum_vars nb'
         match filter (fun v => v ∉ sum_vars) component with
         | [] => components
         | _ :: _ =>
             components ++
               [(list_to_set (filter (fun v => v ∉ sum_vars) component),
                 list_to_set (filter (fun v => v ∈ sum_vars) component))]
         end.
Proof.
  intros Hg (Hwf & Hsub & Hcomps & Hdisj & Hcover) Hnb.
  destruct (extract_component nb nb1 v pending Hwf Hnb)
    as (nb' & component & Hvisit & Hwf' & Hnb' & Hkeys & Hclosed & Hconn).
  exists nb', component. split; [done|]. split.
  { pose proof (visit_pending_bound (length nb1) nb1
                  (fold_left ordered_set_add pending [v]) pending (le_n _)) as Hb.
    by rewrite Hvisit in Hb. }
  assert (forall u, u ∈ keys nb' <-> u ∈ keys nb /\ u ∉ component) as Hkeys'.
  { intros u. rewrite !keys_elem_of. split.
    - intros [l Hl]. apply Hnb' in Hl as [? ?]. split; [by exists l|done].
    - intros [[l Hl] Hu]. exists l. apply Hnb'. done. }
  assert (forall p, p ∈ nb' -> p ∈ g) as Hsub'.
  { intros p Hp. apply Hsub. by apply Hnb' in Hp as [? _]. }
  assert (forall F M, (F, M) ∈ components ->
            is_component g sum_vars F M
            /\ (forall u, u ∈ F ∪ M -> u ∉ keys nb')) as Hcomps'.
  { intros F M HFM. destruct (Hcomps F M HFM) as [Hc Hout]. split; [done|].
    intros u Hu Hin. apply Hkeys' in Hin as [Hin _]. by apply (Hout u). }
  destruct (filter (fun v => v ∉ sum_vars) component) as [|f fs] eqn:Hfilter.
  - (* no cost term in the component: nothing is appended *)
    split_and!; try done.
    intros u Hu HuS. destruct (Hcover u Hu HuS) as [Hin|?]; [|by right].
    left. apply Hkeys'. split; [done|]. intros Huc.
    assert (u ∈ filter (fun v => v ∉ sum_vars) component) as Hf.
    { apply list_elem_of_filter. done. }
    rewrite Hfilter in Hf. by apply elem_of_nil in Hf.
  - rewrite <- Hfilter.
    set (F := list_to_set (filter (fun v => v ∉ sum_vars) component) : gset string).
    set (M := list_to_set (filter (fun v => v ∈ sum_vars) component) : gset string).
    assert (forall u, u ∈ F ∪ M <-> u ∈ component) as HFM.
    { intros u. unfold F, M. rewrite filter_partition_union.
      apply elem_of_list_to_set. }
    assert (is_component g sum_vars F M) as Hnew.
    { split_and!.
      - intros HF. assert (f ∈ F) as Hf; [|set_solver].
        unfold F. rewrite Hfilter. apply elem_of_list_to_set. by left.
      - intros u Hu. unfold F in Hu. apply elem_of_list_to_set in Hu.
        by apply list_elem_of_filter in Hu as [? _].
      - intros u Hu. unfold M in Hu. apply elem_of_list_to_set in Hu.
        by apply list_elem_of_filter in Hu as [? _].
      - intros u Hu%HFM. apply Hkeys in Hu. apply keys_elem_of in Hu as [l Hl].
        apply keys_elem_of. exists l. by apply Hsub.
      - intros u w Hu%HFM [l [Hl Hw]]. apply HFM.
        apply (Hclosed u w); [done|].
        destruct (proj1 (keys_elem_of nb u) (Hkeys u Hu)) as [l' Hl'].
        exists l'. split; [done|].
        assert (l = l') as ->; [|done].
        destruct Hg as (Hg1 & _). apply (NoDup_keys_inj g u); eauto.
      - intros u w Hu%HFM Hw%HFM.
        assert (forall x, x ∈ component -> rtc (adjacent g) v x) as Hconn'.
        { intros x Hx. eapply rtc_subrel; [|by apply Hconn].
          intros a b. by apply adjacent_sub. }
        etrans; [|by apply Hconn'].
        apply rtc_adjacent_sym; [done|]. by apply Hconn'. }
    split_and!; try done.
    + intros F' M' [HFM'|HFM']%elem_of_app; [by apply Hcomps'|].
      apply list_elem_of_singleton in HFM' as [= -> ->]. split; [done|].
      intros u Hu%HFM Hin. by apply Hkeys' in Hin as [_ ?].
    + assert (forall i F1 M1, components !! i = Some (F1, M1) ->
                (F1 ∪ M1) ## (F ∪ M)) as Hold_new.
      { intros i F1 M1 Hi. apply elem_of_disjoint. intros u Hu1 Hu2%HFM.
        destruct (Hcomps F1 M1) as [_ Hout].
        { apply list_elem_of_lookup. by exists i. }
        apply (Hout u Hu1). by apply Hkeys. }
      intros i j F1 M1 F2 M2 Hij Hi Hj.
      destruct (decide (i < length components)%nat) as [Hil|Hil],
               (decide (j < length components)%nat) as [Hjl|Hjl].
      * rewrite lookup_app_l in Hi, Hj by done. eauto.
      * rewrite lookup_app_l in Hi by done. rewrite lookup_app_r in Hj by lia.
        apply list_lookup_singleton_Some in Hj as [_ [= <- <-]]. eauto.
      * rewrite lookup_app_l in Hj by done. rewrite lookup_app_r in Hi by lia.
        apply list_lookup_singleton_Some in Hi as [_ [= <- <-]].
        symmetry. eauto.
      * rewrite lookup_app_r in Hi, Hj by lia.
        apply list_lookup_singleton_Some in Hi as [Hi _], Hj as [Hj _]. lia.
    + intros u Hu HuS. destruct (Hcover u Hu HuS) as [Hin|(F' & M' & ? & ?)].
      * destruct (decide (u ∈ component)) as [Huc|Huc].
        -- right. exists F, M. split; [apply elem_of_app; right; by left|].
           unfold F. apply elem_of_list_to_set, list_elem_of_filter. done.
        -- left. apply Hkeys'. done.
      * right. exists F', M'. split; [|done]. apply elem_of_app. by left.
Qed.

Lemma components_loop_unfold (fuel : nat) (nb : t)
    (components : list (gset string * gset string)) :
  nb ≠ [] ->
  components_loop (S fuel) sum_vars nb components
  = ('((v, pending), neighbors) ← popitem nb;
     let component := fold_left ordered_set_add pending [v] in
     '(neighbors, component) ←
       visit_pending (length neighbors) neighbors component pending;
     components_loop fuel sum_vars neighbors
       match filter (fun v => v ∉ sum_vars) component with
       | [] => components
       | _ :: _ =>
           components ++
             [(list_to_set (filter (fun v => v ∉ sum_vars) component),
               list_to_set (filter (fun v => v ∈ sum_vars) component))]
       end).
Proof. destruct nb; [done|]. intros _. reflexivity. Qed.

Lemma components_loop_inv (fuel : nat) (nb : t)
    (components : list (gset string * gset string)) :
  wf_graph g ->
  outer_inv g sum_vars nb components ->
  (length nb <= fuel)%nat ->
  exists result,
    components_loop fuel sum_vars nb components = Ok result
    /\ outer_inv g sum_vars [] result.
Proof.
  intros Hg. revert nb components.
  induction fuel as [|fuel IH]; intros nb components Hinv Hlen.
  - destruct nb; [|cbn in Hlen; lia]. by exists components.
  - destruct (decide (nb = [])) as [->|Hne]; [by exists components|].
    destruct (list_pop nb) as [[[v pending] nb1]|] eqn:Hpop.
    2: { by apply list_pop_None in Hpop. }
    pose proof (proj1 (list_pop_Some _ _ _) Hpop) as Hnb.
    destruct (outer_step nb nb1 v pending components Hg Hinv Hnb)
      as (nb' & component & Hvisit & Hlen' & Hinv').
    assert (length nb = S (length nb1)) as Hlen1.
    { rewrite Hnb, length_app. cbn. lia. }
    destruct (IH nb' _ Hinv') as (result & Hres & Hfinal); [lia|].
    exists result. split; [|done].
    rewrite components_loop_unfold by done. unfold popitem. rewrite Hpop.
    cbn. rewrite Hvisit. cbn. exact Hres.
Qed.

End outer_facts.




Section partition_facts.
Import OrderedDict.

Lemma built_wf_graph (ks : list string) (sum_vars : gset string)
    (E : gset (string * string)) (nb : t) :
  built ks E nb -> bipartite sum_vars E ->
  (forall a b, (a, b) ∈ E -> a ∈ ks) ->
  wf_graph nb
  /\ (forall u w, adjacent nb u w <-> (u, w) ∈ E \/ (w, u) ∈ E).
Proof.
  intros (Hnd & Hkeys & Hadj) Hbip Hsrc.
  assert (forall u w, adjacent nb u w <-> (u, w) ∈ E \/ (w, u) ∈ E) as Hiff.
  { intros u w. split.
    - intros [l [Hl Hw]]. by apply (Hadj u l Hl).
    - intros Hor.
      assert (u ∈ keys nb) as Hu.
      { apply Hkeys. destruct Hor as [?|?]; [left; eauto|right; eauto]. }
      apply keys_elem_of in Hu as [l Hl]. exists l. split; [done|].
      by apply (Hadj u l Hl). }
  split; [|done]. split_and!.
  - done.
  - intros u l Hl. destruct (Hadj u l Hl) as [Hndl Hw]. split; [done|].
    intros Hin. apply Hw in Hin. destruct Hin as [Hin|Hin];
      apply Hbip in Hin as [? ?]; done.
  - intros u w. rewrite !Hiff. tauto.
Qed.

End partition_facts.

(** C4, with the condition under which it holds: when no cost term of
    [model_sum_deps] is itself an enumerated variable of [sum_vars],
    [_partition] returns, the pairs it returns have pairwise disjoint sets of
    cost terms and of enumerated variables, every cost term is in the first
    set of exactly one pair, and the two sets of a pair are together one
    connected component of the bipartite graph that links a cost term to the
    enumerated variables it depends on. *)
Theorem partition_connected_components
    (model_sum_deps : list (string * gset string)) (sum_vars : gset string) :
  NoDup model_sum_deps.*1 ->
  (forall k, k ∈ model_sum_deps.*1 -> k ∉ sum_vars) ->
  exists components,
    _partition model_sum_deps sum_vars = Ok components
    /\ (forall i j F1 M1 F2 M2,
          i ≠ j ->
          components !! i = Some (F1, M1) -> components !! j = Some (F2, M2) ->
          F1 ## F2 /\ M1 ## M2)
    /\ (forall k, k ∈ model_sum_deps.*1 ->
          exists i F M,
            components !! i = Some (F, M) /\ k ∈ F
            /\ (forall j F' M', components !! j = Some (F', M') -> k ∈ F' -> j = i))
    /\ (forall F M, (F, M) ∈ components ->
          F ≠ ∅
          /\ (forall k, k ∈ F -> k ∈ model_sum_deps.*1)
          /\ (forall d, d ∈ M -> d ∈ sum_vars)
          /\ (forall u, u ∈ F ∪ M ->
                forall w, w ∈ F ∪ M <-> connected model_sum_deps sum_vars u w)).
Proof.
  intros Hnd Hdisj.
  destruct (build_neighbors_built model_sum_deps sum_vars Hnd Hdisj)
    as (g & Hbuild & Hbuilt).
  assert (bipartite sum_vars (edges_of sum_vars model_sum_deps)) as Hbip.
  { by apply bipartite_edges_of. }
  assert (forall a b, (a, b) ∈ edges_of sum_vars model_sum_deps
                      <-> depends model_sum_deps sum_vars a b) as Hedge.
  { intros a b. apply elem_of_edges_of. }
  destruct (built_wf_graph _ sum_vars _ g Hbuilt Hbip) as [Hg Hadj].
  { intros a b (deps & Hin & _)%Hedge. apply list_elem_of_fmap. by exists (a, deps). }
  assert (forall u w, adjacent g u w <-> linked model_sum_deps sum_vars u w) as Hlink.
  { intros u w. rewrite Hadj, !Hedge. done. }
  assert (outer_inv g sum_vars g []) as Hinit.
  { split_and!; try done.
    - intros F M ?%elem_of_nil. done.
    - intros u Hu _. by left. }
  destruct (components_loop_inv g sum_vars (length g) g [] Hg Hinit (le_n _))
    as (components & Hloop & (_ & _ & Hcomps & Hpair & Hcover)).
  exists components. split.
  { unfold _partition. rewrite Hbuild. exact Hloop. }
  assert (forall k, k ∈ model_sum_deps.*1 -> k ∈ OrderedDict.keys g) as Hkeys.
  { intros k Hk. destruct Hbuilt as (_ & Hkeys & _). apply Hkeys. by left. }
  split_and!.
  - intros i j F1 M1 F2 M2 Hij Hi Hj.
    pose proof (Hpair i j F1 M1 F2 M2 Hij Hi Hj). set_solver.
  - intros k Hk.
    destruct (Hcover k (Hkeys k Hk) (Hdisj k Hk)) as [?%elem_of_nil|(F & M & HFM & HkF)];
      [done|].
    apply list_elem_of_lookup in HFM as [i Hi].
    exists i, F, M. split; [done|]. split; [done|].
    intros j F' M' Hj HkF'. destruct (decide (j = i)) as [|Hne]; [done|].
    pose proof (Hpair j i F' M' F M Hne Hj Hi). set_solver.
  - intros F M HFM.
    destruct (Hcomps F M HFM) as [(Hne & HF & HM & Hin & Hclosed & Hconn) _].
    split_and!; try done.
    + intros k Hk.
      assert (k ∈ OrderedDict.keys g) as Hkg by (apply Hin; set_solver).
      destruct Hbuilt as (_ & Hkeysg & _).
      apply Hkeysg in Hkg as [?|[a Ha]]; [done|].
      apply Hbip in Ha as [_ Ha]. by apply HF in Hk.
    + intros u Hu w. split.
      * intros Hw. eapply rtc_subrel; [|by apply Hconn].
        intros a b. by apply Hlink.
      * intros Hrtc. induction Hrtc as [|x y z Hxy _ IH]; [done|].
        apply IH. apply (Hclosed x y); [done|]. by apply Hlink.
Qed.

Lemma partition_connected_components_witness :
  NoDup [("a", {["x"; "y"]} : gset string); ("b", {["y"]}); ("c", ∅);
         ("d", {["z"; "w"]})].*1
  /\ (forall k,
        k ∈ [("a", {["x"; "y"]} : gset string); ("b", {["y"]}); ("c", ∅);
             ("d", {["z"; "w"]})].*1 ->
        k ∉ ({["x"; "y"; "z"]} : gset string))
  /\ _partition [("a", {["x"; "y"]}); ("b", {["y"]}); ("c", ∅); ("d", {["z"; "w"]})]
       {["x"; "y"; "z"]}
     = Ok [({["d"]}, {["z"]}); ({["a"; "b"]}, {["x"; "y"]}); ({["c"]}, ∅)]
  /\ exists components,
       _partition [("a", {["x"; "y"]}); ("b", {["y"]}); ("c", ∅); ("d", {["z"; "w"]})]
         {["x"; "y"; "z"]} = Ok components
       /\ (forall k, k ∈ ["a"; "b"; "c"; "d"] ->
             exists i F M, components !! i = Some (F, M) /\ k ∈ F).
Proof.
  assert (NoDup [("a", {["x"; "y"]} : gset string); ("b", {["y"]}); ("c", ∅);
                 ("d", {["z"; "w"]})].*1) as Hnd.
  { cbn. repeat (apply NoDup_cons; split; [set_solver|]). apply NoDup_nil_2. }
  assert (forall k,
            k ∈ [("a", {["x"; "y"]} : gset string); ("b", {["y"]}); ("c", ∅);
                 ("d", {["z"; "w"]})].*1 ->
            k ∉ ({["x"; "y"; "z"]} : gset string)) as Hdisj.
  { intros k Hk. cbn in Hk. set_solver. }
  split; [exact Hnd|]. split; [exact Hdisj|]. split; [vm_compute; reflexivity|].
  destruct (partition_connected_components
              [("a", {["x"; "y"]}); ("b", {["y"]}); ("c", ∅); ("d", {["z"; "w"]})]
              {["x"; "y"; "z"]} Hnd Hdisj)
    as (components & Hp & _ & Hcover & _).
  exists components. split; [exact Hp|].
  intros k Hk. destruct (Hcover k Hk) as (i & F & M & Hi & HkF & _).
  by exists i, F, M.
Defined.

(** C4, as the claim states it, fails: a cost term that is itself an
    enumerated variable is dropped from the factor names.  Here ["b"] depends
    on the enumerated variable ["c"], and it is in no first set. *)
Lemma partition_drops_enumerated_cost_term :
  NoDup [("a", {["b"]} : gset string); ("b", {["c"]})].*1
  /\ ("b", {["c"]}) ∈ [("a", {["b"]} : gset string); ("b", {["c"]})]
  /\ "c" ∈ ({["c"]} : gset string) ∩ {["b"; "c"]}
  /\ _partition [("a", {["b"]}); ("b", {["c"]})] {["b"; "c"]}
     = Ok [({["a"]}, {["b"; "c"]})]
  /\ ~ (exists i (F M : gset string),
          [({["a"]}, {["b"; "c"]})] !! i = Some (F, M) /\ "b" ∈ F).
Proof.
  split; [cbn; repeat (apply NoDup_cons; split; [set_solver|]); apply NoDup_nil_2|].
  split; [set_solver|]. split; [set_solver|].
  split; [vm_compute; reflexivity|].
  intros (i & F & M & Hi & Hb).
  destruct i as [|i]; cbn in Hi; [|done].
  injection Hi as <- <-. set_solver.
Qed.

(** ** The monad of the estimators *)

Lemma bind_inv {A B : Type} (m : M A) (f : A -> M B) (log log' : list string) (b : B) :
  (m ≫= f) log = (Ok b, log') ->
  exists a log1, m log = (Ok a, log1) /\ f a log1 = (Ok b, log').
Proof.
  unfold mbind, M_bind. destruct (m log) as [[a|e] log1] eqn:Hm; [|done].
  intros Hf. by exists a, log1.
Qed.

Lemma bind_ok {A B : Type} (m : M A) (f : A -> M B) (log log1 : list string) (a : A) :
  m log = (Ok a, log1) -> (m ≫= f) log = f a log1.
Proof. intros Hm. unfold mbind, M_bind. by rewrite Hm. Qed.

Lemma bind_raise {A B : Type} (m : M A) (f : A -> M B) (log log1 : list string)
    (e : exn) :
  m log = (Raise e, log1) -> (m ≫= f) log = (Raise e, log1).
Proof. intros Hm. unfold mbind, M_bind. by rewrite Hm. Qed.

(** ** Sums over dictionaries *)

Lemma foldl_add_foldr (l : list Z) (a : Z) : foldl Z.add a l = a + foldr Z.add 0 l.
Proof.
  revert a. induction l as [|x l IH]; intros a; cbn; [lia|]. rewrite IH. lia.
Qed.

Lemma foldr_add_perm (l1 l2 : list Z) :
  l1 ≡ₚ l2 -> foldr Z.add 0 l1 = foldr Z.add 0 l2.
Proof. induction 1; cbn; lia. Qed.

Lemma sum_values_insert (d : gmap string Z) (i : string) (x : Z) :
  d !! i = None -> sum_values (<[i := x]> d) = x + sum_values d.
Proof.
  intros Hi. unfold sum_values. rewrite !foldl_add_foldr.
  rewrite (foldr_add_perm _ (x :: (map_to_list d).*2)); [cbn; lia|].
  rewrite map_to_list_insert by done. done.
Qed.

Lemma sum_values_empty : sum_values ∅ = 0.
Proof. unfold sum_values. by rewrite map_to_list_empty. Qed.

Lemma sum_values_list_to_map (f : string -> Z) (l : list string) :
  NoDup l ->
  sum_values (list_to_map ((fun n => (n, f n)) <$> l)) = foldr Z.add 0 (f <$> l).
Proof.
  intros Hnd. unfold sum_values. rewrite foldl_add_foldr.
  rewrite (foldr_add_perm _ (f <$> l)); [lia|].
  rewrite map_to_list_to_map.
  - rewrite <- list_fmap_compose. done.
  - rewrite <- list_fmap_compose. cbn. by rewrite list_fmap_id.
Qed.

Lemma sum_point (X : list string) (i : string) (x : Z) (h : string -> Z) :
  NoDup X -> i ∈ X ->
  foldr Z.add 0 ((fun n => if decide (n = i) then x + h n else h n) <$> X)
  = x + foldr Z.add 0 (h <$> X).
Proof.
  induction X as [|n X IH]; intros Hnd Hi; [by apply elem_of_nil in Hi|].
  apply NoDup_cons in Hnd as [Hn Hnd]. cbn. destruct (decide (n = i)) as [->|Hne].
  - assert (((fun n => if decide (n = i) then x + h n else h n) <$> X) = h <$> X)
      as ->; [|lia].
    apply list_fmap_ext. intros j n Hjn. destruct (decide (n = i)) as [->|]; [|done].
    exfalso. apply Hn. by apply list_elem_of_lookup_2 in Hjn.
  - apply elem_of_cons in Hi as [->|Hi]; [done|]. rewrite IH by done. lia.
Qed.

Lemma sum_over_superset (d : gmap string Z) (X : list string) :
  NoDup X -> (forall n, n ∈ dom d -> n ∈ X) ->
  foldr Z.add 0 ((fun n => default 0 (d !! n)) <$> X) = sum_values d.
Proof.
  revert X. induction d as [|i x d Hi IH] using map_ind; intros X Hnd Hsub.
  - rewrite sum_values_empty. induction X as [|n X IHX]; [done|]. cbn.
    rewrite lookup_empty. cbn. apply NoDup_cons in Hnd as [_ Hnd].
    rewrite IHX; [done|done|]. intros n' Hn'. set_solver.
  - rewrite sum_values_insert by done. rewrite <- (IH X Hnd).
    + rewrite <- (sum_point X i x (fun n => default 0 (d !! n))); [|done|].
      * f_equal. apply list_fmap_ext. intros j n _.
        destruct (decide (n = i)) as [->|Hne].
        -- rewrite lookup_insert_eq, Hi. cbn. lia.
        -- by rewrite lookup_insert_ne.
      * apply Hsub. set_solver.
    + intros n Hn. apply Hsub. set_solver.
Qed.

Lemma foldr_add_sub (f g : string -> Z) (X : list string) :
  foldr Z.add 0 ((fun n => f n - g n) <$> X)
  = foldr Z.add 0 (f <$> X) - foldr Z.add 0 (g <$> X).
Proof. induction X as [|n X IH]; cbn; lia. Qed.

(** ** [Trace_ELBO]: the contributions of the sites *)

Lemma elbo_sites_lookup (m g : gmap string Z) (name : string) :
  elbo_sites m g !! name = site_contribution m g name.
Proof.
  unfold elbo_sites, site_contribution.
  destruct (set_to_map _ _ !! name) as [x|] eqn:Hx.
  - apply lookup_set_to_map in Hx as (y & Hy & [= -> <-]); [|by intros ? ? ? ? [= ->]].
    by rewrite bool_decide_eq_true_2.
  - case_bool_decide as Hin; [|done]. exfalso.
    assert (is_Some ((set_to_map
              (fun name => (name, default 0 (m !! name) - default 0 (g !! name)))
              (dom m ∪ dom g) : gmap string Z) !! name)) as [x Hx'].
    { eexists. apply lookup_set_to_map; [by intros ? ? ? ? [= ->]|].
      exists name. done. }
    congruence.
Qed.

Lemma elbo_sites_dom (m g : gmap string Z) : dom (elbo_sites m g) = dom m ∪ dom g.
Proof.
  apply set_eq. intros name. rewrite elem_of_dom, elbo_sites_lookup.
  unfold site_contribution. case_bool_decide; split; try done.
Qed.

Lemma elbo_sites_sum (m g : gmap string Z) :
  sum_values (elbo_sites m g) = sum_values m - sum_values g.
Proof.
  unfold elbo_sites, set_to_map.
  rewrite (sum_values_list_to_map
             (fun name => default 0 (m !! name) - default 0 (g !! name)))
    by apply NoDup_elements.
  rewrite foldr_add_sub.
  rewrite !sum_over_superset; [done| | | |]; try apply NoDup_elements.
  - intros n Hn. apply elem_of_elements. set_solver.
  - intros n Hn. apply elem_of_elements. set_solver.
Qed.

(** ** Computations that do not read the log *)

Lemma parametric_ret {A : Type} (a : A) : parametric (mret a).
Proof. intros log. cbn. by rewrite app_nil_r. Qed.

Lemma parametric_raise {A : Type} (e : exn) : parametric (raise (A := A) e).
Proof. intros log. cbn. by rewrite app_nil_r. Qed.

Lemma parametric_lift {A : Type} (r : result A) : parametric (lift r).
Proof. intros log. cbn. by rewrite app_nil_r. Qed.

Lemma parametric_warn (msg : string) : parametric (warn msg).
Proof. intros log. done. Qed.

Lemma parametric_call {A : Type} (w : W A) : parametric (call w).
Proof. intros log. done. Qed.

Lemma parametric_bind {A B : Type} (m : M A) (f : A -> M B) :
  parametric m -> (forall a, parametric (f a)) -> parametric (m ≫= f).
Proof.
  intros Hm Hf log. unfold mbind, M_bind. rewrite (Hm log).
  destruct (m []) as [[a|e] w] eqn:Hnil; cbn.
  - rewrite (Hf a (log ++ w)), (Hf a w). cbn. by rewrite app_assoc.
  - done.
Qed.

Lemma parametric_mapM {A B : Type} (f : A -> M B) (l : list A) :
  (forall a, parametric (f a)) -> parametric (mapM f l).
Proof.
  intros Hf. induction l as [|a l IH]; cbn [mapM].
  - apply parametric_ret.
  - apply parametric_bind; [done|]. intros b.
    apply parametric_bind; [done|]. intros bs. apply parametric_ret.
Qed.

(** What a computation that does not read the log returns does not depend on
    the log, and the log only grows. *)
Lemma parametric_run {A : Type} (m : M A) (log : list string) (r : result A)
    (log' : list string) :
  parametric m -> m log = (r, log') ->
  r = (m []).1 /\ log' = log ++ (m []).2.
Proof. intros Hm Hrun. rewrite (Hm log) in Hrun. by injection Hrun as <- <-. Qed.

Lemma parametric_same {A : Type} (m : M A) (log1 log2 : list string) :
  parametric m -> (m log1).1 = (m log2).1.
Proof. intros Hm. by rewrite (Hm log1), (Hm log2). Qed.

Ltac parametric_step :=
  match goal with
  | |- parametric (mret _) => apply parametric_ret
  | |- parametric (raise _) => apply parametric_raise
  | |- parametric (lift _) => apply parametric_lift
  | |- parametric (warn _) => apply parametric_warn
  | |- parametric (call _) => apply parametric_call
  | |- parametric (mapM _ _) => apply parametric_mapM; intros ?
  | |- parametric (_ ≫= _) => apply parametric_bind; [|intros ?]
  | |- parametric (match ?x with _ => _ end) => destruct x
  | |- parametric (let '(_, _) := ?x in _) => destruct x
  end.

Ltac solve_parametric := repeat parametric_step.

Lemma parametric_return_particle {A : Type} (self : ELBO) (x : A)
    (mp : gmap string tensor) :
  parametric (return_particle self x mp).
Proof. unfold return_particle. solve_parametric. Qed.

Section parametric_estimators.
Context `{Handlers}.

Lemma parametric_vectorize {A : Type} (fn : particle_map) (body : key -> M A)
    (keys : list key) :
  (forall k, parametric (body k)) -> parametric (vectorize fn body keys).
Proof. intros Hb. unfold vectorize. by apply parametric_mapM. Qed.

Lemma parametric_loss_of_particles (self : ELBO)
    (single : key -> M (pytree Z * option (gmap string tensor))) (rng_key : key) :
  (forall k, parametric (single k)) ->
  parametric (loss_of_particles self single rng_key).
Proof.
  intros Hs. unfold loss_of_particles. case_bool_decide.
  - apply parametric_bind; [done|]. intros [elbo ms]. apply parametric_ret.
  - apply parametric_bind; [apply parametric_lift|]. intros keys.
    apply parametric_bind; [by apply parametric_vectorize|]. intros outs.
    apply parametric_ret.
Qed.

End parametric_estimators.

Section parametric_bodies.
Context `{Handlers}.
Context (param_map : gmap string tensor) (model guide : program) (args : arguments).

Lemma parametric_trace_particle_log_probs (self : Trace_ELBO.t) (k : key) :
  parametric (Trace_ELBO.particle_log_probs self param_map model guide args k).
Proof.
  unfold Trace_ELBO.particle_log_probs, Trace_ELBO.multi_sample_model_log_probs.
  solve_parametric.
Qed.

Lemma parametric_trace_single (self : Trace_ELBO.t) (k : key) :
  parametric (Trace_ELBO.single_particle_elbo self param_map model guide args k).
Proof.
  unfold Trace_ELBO.single_particle_elbo.
  apply parametric_bind; [apply parametric_trace_particle_log_probs|].
  intros [[m g] mp]. apply parametric_return_particle.
Qed.

Lemma parametric_trace_loss (self : Trace_ELBO.t) (k : key) :
  parametric (Trace_ELBO.loss self param_map model guide args k).
Proof.
  unfold Trace_ELBO.loss, Trace_ELBO.loss_with_mutable_state.
  apply parametric_bind; [|intros ?; apply parametric_ret].
  apply parametric_loss_of_particles. apply parametric_trace_single.
Qed.

Lemma parametric_check_mean_field (model_trace guide_trace : trace) :
  parametric (_check_mean_field_requirement model_trace guide_trace).
Proof. unfold _check_mean_field_requirement. solve_parametric. Qed.

Lemma parametric_mean_field_traces (k : key) :
  parametric (TraceMeanField_ELBO.particle_traces param_map model guide args k).
Proof.
  unfold TraceMeanField_ELBO.particle_traces.
  destruct (random_split k) as [model_seed guide_seed].
  repeat (apply parametric_bind;
          [first [apply parametric_call|apply parametric_check_mean_field]|intros ?]).
  apply parametric_ret.
Qed.

Lemma parametric_mean_field_single (self : TraceMeanField_ELBO.t) (k : key) :
  parametric (TraceMeanField_ELBO.single_particle_elbo self param_map model guide args k).
Proof.
  unfold TraceMeanField_ELBO.single_particle_elbo.
  apply parametric_bind; [apply parametric_mean_field_traces|].
  intros [[mt gt] mp].
  apply parametric_bind; [apply parametric_lift|]. intros d.
  apply parametric_return_particle.
Qed.

Lemma parametric_mean_field_loss (self : TraceMeanField_ELBO.t) (k : key) :
  parametric (TraceMeanField_ELBO.loss self param_map model guide args k).
Proof.
  unfold TraceMeanField_ELBO.loss, TraceMeanField_ELBO.loss_with_mutable_state.
  apply parametric_bind; [|intros ?; apply parametric_ret].
  apply parametric_loss_of_particles. apply parametric_mean_field_single.
Qed.

Lemma parametric_graph_traces (k : key) :
  parametric (TraceGraph_ELBO.particle_traces param_map model guide args k).
Proof. unfold TraceGraph_ELBO.particle_traces. solve_parametric. Qed.

Lemma parametric_graph_single (k : key) :
  parametric (TraceGraph_ELBO.single_particle_elbo param_map model guide args k).
Proof.
  unfold TraceGraph_ELBO.single_particle_elbo.
  apply parametric_bind; [apply parametric_graph_traces|].
  intros [[[mt gt] md] gd]. apply parametric_lift.
Qed.

Lemma parametric_graph_loss (self : TraceGraph_ELBO.t) (k : key) :
  parametric (TraceGraph_ELBO.loss self param_map model guide args k).
Proof.
  unfold TraceGraph_ELBO.loss. case_bool_decide.
  - apply parametric_bind; [apply parametric_graph_single|].
    intros ?. apply parametric_ret.
  - apply parametric_bind; [apply parametric_lift|]. intros keys.
    apply parametric_bind; [|intros ?; apply parametric_ret].
    apply parametric_vectorize. apply parametric_graph_single.
Qed.

Section renyi.
Context `{!RenyiArithmetic}.

Lemma parametric_renyi_single (m g : program) (k : key) :
  parametric (RenyiELBO._single_particle_elbo param_map args m g k).
Proof. unfold RenyiELBO._single_particle_elbo. solve_parametric. Qed.

Lemma parametric_renyi_loss (self : RenyiELBO.t) (k : key) :
  parametric (RenyiELBO.loss self param_map model guide args k).
Proof.
  unfold RenyiELBO.loss. destruct (random_split k) as [plate_key rng_key].
  apply parametric_bind; [apply parametric_lift|]. intros keys.
  apply parametric_bind; [|intros ?; apply parametric_lift].
  apply parametric_vectorize. intros k'. apply parametric_renyi_single.
Qed.

End renyi.

Section enum.
Context `{!Enumeration}.

Lemma parametric_enum_single (self : TraceEnum_ELBO.t) (k : key) :
  parametric (TraceEnum_ELBO.single_particle_elbo param_map model guide args self k).
Proof. unfold TraceEnum_ELBO.single_particle_elbo. solve_parametric. Qed.

Lemma parametric_enum_particles (self : TraceEnum_ELBO.t) (keys : list key) :
  parametric (TraceEnum_ELBO.particles param_map model guide args self keys).
Proof.
  revert self. induction keys as [|k keys IH]; intros self; cbn [TraceEnum_ELBO.particles].
  - apply parametric_ret.
  - apply parametric_bind; [apply parametric_enum_single|]. intros [elbo self'].
    apply parametric_bind; [apply IH|]. intros [elbos self'']. apply parametric_ret.
Qed.

Lemma parametric_enum_loss (self : TraceEnum_ELBO.t) (k : key) :
  parametric (TraceEnum_ELBO.loss param_map model guide args self k).
Proof.
  unfold TraceEnum_ELBO.loss. case_bool_decide.
  - apply parametric_bind; [apply parametric_enum_single|].
    intros [? ?]. apply parametric_ret.
  - apply parametric_bind; [apply parametric_lift|]. intros keys.
    apply parametric_bind; [apply parametric_enum_particles|].
    intros [? ?]. apply parametric_ret.
Qed.

End enum.

End parametric_bodies.

(** ** [Trace_ELBO] and the policy of the mutable state *)

Lemma return_particle_run {A : Type} (self : ELBO) (x : A)
    (mp : gmap string tensor) (log : list string) :
  return_particle self x mp log
  = if bool_decide (mp ≠ ∅) then
      if bool_decide (num_particles self = 1) then (Ok (x, Some mp), log)
      else (Ok (x, None), log ++ [mutable_warning])
    else (Ok (x, None), log).
Proof. unfold return_particle. repeat case_bool_decide; done. Qed.

Lemma return_particle_value {A : Type} (self : ELBO) (x y : A)
    (mp : gmap string tensor) (ms : option (gmap string tensor))
    (log log' : list string) :
  return_particle self x mp log = (Ok (y, ms), log') -> y = x.
Proof.
  rewrite return_particle_run. repeat case_bool_decide; by intros [= <- <- <-].
Qed.

Lemma return_particle_dropped {A : Type} (self : ELBO) (x y : A)
    (mp : gmap string tensor) (ms : option (gmap string tensor))
    (log log' : list string) :
  num_particles self ≠ 1 ->
  return_particle self x mp log = (Ok (y, ms), log') -> ms = None.
Proof.
  intros Hn. rewrite return_particle_run.
  repeat case_bool_decide; try done; by intros [= <- <- <-].
Qed.

Section loss_of_particles_facts.
Context `{Handlers}.

Lemma loss_of_one_particle (self : ELBO)
    (single : key -> M (pytree Z * option (gmap string tensor)))
    (rng_key : key) (log log' : list string) (elbo : pytree Z)
    (ms : option (gmap string tensor)) :
  num_particles self = 1 ->
  single rng_key log = (Ok (elbo, ms), log') ->
  loss_of_particles self single rng_key log
  = (Ok {| loss := tree_map Z.opp elbo; mutable_state := ms |}, log').
Proof.
  intros Hn Hs. unfold loss_of_particles. rewrite bool_decide_eq_true_2 by done.
  by rewrite (bind_ok _ _ _ _ _ Hs).
Qed.

Lemma mapM_ok_inv {A B : Type} (f : A -> M B) (l : list A) (bs : list B)
    (log log' : list string) :
  mapM f l log = (Ok bs, log') ->
  Forall2 (fun a b => exists l1 l2, f a l1 = (Ok b, l2)) l bs.
Proof.
  revert bs log. induction l as [|a l IH]; intros bs log; cbn [mapM].
  - intros [= <- <-]. constructor.
  - intros Hrun. apply bind_inv in Hrun as (b & log1 & Hfa & Hrun).
    apply bind_inv in Hrun as (bs' & log2 & Hrest & Hret).
    injection Hret as <- <-. constructor; eauto.
Qed.

(** With more than one particle the mutable state of the result is [None]. *)
Lemma loss_of_particles_dropped (self : ELBO)
    (single : key -> M (pytree Z * option (gmap string tensor)))
    (rng_key : key) (log log' : list string) (out : LossWithMutableState) :
  num_particles self ≠ 1 ->
  (forall k l l' elbo ms, single k l = (Ok (elbo, ms), l') -> ms = None) ->
  loss_of_particles self single rng_key log = (Ok out, log') ->
  mutable_state out = None.
Proof.
  intros Hn Hnone. unfold loss_of_particles. rewrite bool_decide_eq_false_2 by done.
  intros Hrun. apply bind_inv in Hrun as (keys & log1 & _ & Hrun).
  apply bind_inv in Hrun as (outs & log2 & Hmap & Hret).
  injection Hret as <- <-. cbn. unfold vectorize in Hmap.
  apply mapM_ok_inv in Hmap.
  destruct Hmap as [|k [elbo ms] keys' outs' (l1 & l2 & Hk) _]; [done|].
  cbn. by rewrite (Hnone _ _ _ _ _ Hk).
Qed.

(** The warnings of every particle are in the log of the call. *)
Lemma mapM_warnings {A B : Type} (f : A -> M B) (l : list A) (bs : list B)
    (log log' : list string) (a : A) (msg : string) :
  (forall a, parametric (f a)) ->
  mapM f l log = (Ok bs, log') ->
  a ∈ l -> msg ∈ (f a []).2 -> msg ∈ log'.
Proof.
  intros Hf. revert bs log. induction l as [|x l IH]; intros bs log Hrun Ha Hmsg.
  - by apply elem_of_nil in Ha.
  - cbn [mapM] in Hrun. apply bind_inv in Hrun as (b & log1 & Hfx & Hrun).
    apply bind_inv in Hrun as (bs' & log2 & Hrest & Hret).
    injection Hret as <- <-.
    destruct (parametric_run _ _ _ _ (Hf x) Hfx) as [_ ->].
    destruct (parametric_run _ _ _ _ (parametric_mapM f l Hf) Hrest) as [_ Hlog2].
    apply elem_of_cons in Ha as [->|Ha].
    + rewrite Hlog2. apply elem_of_app. left. apply elem_of_app. by right.
    + by apply (IH bs' (log ++ (f x []).2)).
Qed.

End loss_of_particles_facts.



(** C7: when the values collected at the mutable sites are not empty, a call
    with one particle returns them as its mutable state; with more than one
    particle every particle emits a warning, does not raise, and returns no
    mutable state, and the mutable state of the call is [None]. *)
Theorem mutable_state_policy `{Handlers} (param_map : gmap string tensor)
    (model guide : program) (args : arguments) (rng_key : key)
    (log : list string) :
  (forall (self : Trace_ELBO.t) m g mp log1,
     Trace_ELBO.particle_log_probs self param_map model guide args rng_key log
       = (Ok (m, g, mp), log1) ->
     mp ≠ ∅ ->
     (num_particles (Trace_ELBO.base self) = 1 ->
      Trace_ELBO.loss_with_mutable_state self param_map model guide args rng_key log
      = (Ok {| loss := tree_map Z.opp (Trace_ELBO.elbo_particle_of self m g);
               mutable_state := Some mp |}, log1))
     /\ (1 < num_particles (Trace_ELBO.base self) ->
         Trace_ELBO.single_particle_elbo self param_map model guide args rng_key log
         = (Ok (Trace_ELBO.elbo_particle_of self m g, None),
            log1 ++ [mutable_warning])))
  /\ (forall (self : Trace_ELBO.t) out log',
        1 < num_particles (Trace_ELBO.base self) ->
        Trace_ELBO.loss_with_mutable_state self param_map model guide args rng_key log
          = (Ok out, log') ->
        mutable_state out = None
        /\ (forall keys k m g mp w,
              random_split_n rng_key (num_particles (Trace_ELBO.base self)) = Ok keys ->
              k ∈ keys ->
              Trace_ELBO.particle_log_probs self param_map model guide args k []
                = (Ok (m, g, mp), w) ->
              mp ≠ ∅ -> mutable_warning ∈ log'))
  /\ (forall (self : TraceMeanField_ELBO.t) mt gt mp log1 d,
        TraceMeanField_ELBO.particle_traces param_map model guide args rng_key log
          = (Ok (mt, gt, mp), log1) ->
        TraceMeanField_ELBO.elbo_sites_of_traces mt gt = Ok d ->
        mp ≠ ∅ ->
        (num_particles (TraceMeanField_ELBO.base self) = 1 ->
         TraceMeanField_ELBO.loss_with_mutable_state self param_map model guide args
           rng_key log
         = (Ok {| loss := tree_map Z.opp
                            (if TraceMeanField_ELBO.sum_sites self
                             then Leaf (sum_values d) else Dict d);
                  mutable_state := Some mp |}, log1))
        /\ (1 < num_particles (TraceMeanField_ELBO.base self) ->
            TraceMeanField_ELBO.single_particle_elbo self param_map model guide args
              rng_key log
            = (Ok (if TraceMeanField_ELBO.sum_sites self
                   then Leaf (sum_values d) else Dict d, None),
               log1 ++ [mutable_warning])))
  /\ (forall (self : TraceMeanField_ELBO.t) out log',
        1 < num_particles (TraceMeanField_ELBO.base self) ->
        TraceMeanField_ELBO.loss_with_mutable_state self param_map model guide args
          rng_key log = (Ok out, log') ->
        mutable_state out = None
        /\ (forall keys k mt gt mp w d,
              random_split_n rng_key (num_particles (TraceMeanField_ELBO.base self))
                = Ok keys ->
              k ∈ keys ->
              TraceMeanField_ELBO.particle_traces param_map model guide args k []
                = (Ok (mt, gt, mp), w) ->
              TraceMeanField_ELBO.elbo_sites_of_traces mt gt = Ok d ->
              mp ≠ ∅ -> mutable_warning ∈ log')).
Proof.
  split_and!.
  - intros self m g mp log1 Hmaps Hmp.
    assert (forall n, num_particles (Trace_ELBO.base self) = n ->
              Trace_ELBO.single_particle_elbo self param_map model guide args rng_key log
              = if bool_decide (n = 1)
                then (Ok (Trace_ELBO.elbo_particle_of self m g, Some mp), log1)
                else (Ok (Trace_ELBO.elbo_particle_of self m g, None),
                      log1 ++ [mutable_warning])) as Hsingle.
    { intros n Hn. unfold Trace_ELBO.single_particle_elbo.
      rewrite (bind_ok _ _ _ _ _ Hmaps). rewrite return_particle_run.
      rewrite bool_decide_eq_true_2 by done. rewrite Hn. by case_bool_decide. }
    split.
    + intros Hn. unfold Trace_ELBO.loss_with_mutable_state.
      apply loss_of_one_particle; [done|]. rewrite (Hsingle 1 Hn). done.
    + intros Hn. rewrite (Hsingle _ eq_refl).
      rewrite bool_decide_eq_false_2 by lia. done.
  - intros self out log' Hn Hrun. unfold Trace_ELBO.loss_with_mutable_state in Hrun.
    split.
    + eapply loss_of_particles_dropped; [| |exact Hrun]; [lia|].
      intros k l l' elbo ms Hk. unfold Trace_ELBO.single_particle_elbo in Hk.
      apply bind_inv in Hk as ([[m g] mp] & l1 & _ & Hret).
      eapply return_particle_dropped; [|exact Hret]. lia.
    + intros keys k m g mp w Hkeys Hk Hmaps Hmp.
      unfold loss_of_particles in Hrun. rewrite bool_decide_eq_false_2 in Hrun by lia.
      apply bind_inv in Hrun as (keys' & log1 & Hsplit & Hrun).
      unfold lift in Hsplit. rewrite Hkeys in Hsplit. injection Hsplit as <- <-.
      apply bind_inv in Hrun as (outs & log2 & Hmap & Hret).
      injection Hret as _ <-. unfold vectorize in Hmap.
      eapply (mapM_warnings _ _ _ _ _ k); [|exact Hmap|done|].
      { intros k'. apply parametric_trace_single. }
      unfold Trace_ELBO.single_particle_elbo. rewrite (bind_ok _ _ _ _ _ Hmaps).
      rewrite return_particle_run. rewrite bool_decide_eq_true_2 by done.
      rewrite bool_decide_eq_false_2 by lia. cbn. apply elem_of_app. right. by left.
  - intros self mt gt mp log1 d Htraces Hd Hmp.
    assert (forall n, num_particles (TraceMeanField_ELBO.base self) = n ->
              TraceMeanField_ELBO.single_particle_elbo self param_map model guide args
                rng_key log
              = if bool_decide (n = 1)
                then (Ok (if TraceMeanField_ELBO.sum_sites self
                          then Leaf (sum_values d) else Dict d, Some mp), log1)
                else (Ok (if TraceMeanField_ELBO.sum_sites self
                          then Leaf (sum_values d) else Dict d, None),
                      log1 ++ [mutable_warning])) as Hsingle.
    { intros n Hn. unfold TraceMeanField_ELBO.single_particle_elbo.
      rewrite (bind_ok _ _ _ _ _ Htraces). rewrite Hd.
      unfold lift at 1. unfold mbind at 1, M_bind.
      rewrite return_particle_run.
      rewrite bool_decide_eq_true_2 by done. rewrite Hn. by case_bool_decide. }
    split.
    + intros Hn. unfold TraceMeanField_ELBO.loss_with_mutable_state.
      apply loss_of_one_particle; [done|]. rewrite (Hsingle 1 Hn). done.
    + intros Hn. rewrite (Hsingle _ eq_refl).
      rewrite bool_decide_eq_false_2 by lia. done.
  - intros self out log' Hn Hrun.
    unfold TraceMeanField_ELBO.loss_with_mutable_state in Hrun.
    split.
    + eapply loss_of_particles_dropped; [| |exact Hrun]; [lia|].
      intros k l l' elbo ms Hk. unfold TraceMeanField_ELBO.single_particle_elbo in Hk.
      apply bind_inv in Hk as ([[mt gt] mp] & l1 & _ & Hk).
      apply bind_inv in Hk as (d & l2 & _ & Hret).
      eapply return_particle_dropped; [|exact Hret]. lia.
    + intros keys k mt gt mp w d Hkeys Hk Htraces Hd Hmp.
      unfold loss_of_particles in Hrun. rewrite bool_decide_eq_false_2 in Hrun by lia.
      apply bind_inv in Hrun as (keys' & log1 & Hsplit & Hrun).
      unfold lift in Hsplit. rewrite Hkeys in Hsplit. injection Hsplit as <- <-.
      apply bind_inv in Hrun as (outs & log2 & Hmap & Hret).
      injection Hret as _ <-. unfold vectorize in Hmap.
      eapply (mapM_warnings _ _ _ _ _ k); [|exact Hmap|done|].
      { intros k'. apply parametric_mean_field_single. }
      unfold TraceMeanField_ELBO.single_particle_elbo.
      rewrite (bind_ok _ _ _ _ _ Htraces). rewrite Hd.
      unfold lift at 1. unfold mbind at 1, M_bind.
      rewrite return_particle_run. rewrite bool_decide_eq_true_2 by done.
      rewrite bool_decide_eq_false_2 by lia. cbn. apply elem_of_app. right. by left.
Qed.

Lemma mutable_state_policy_witness :
  Trace_ELBO.loss_with_mutable_state (Example.trace_elbo 1 true) ∅
    Example.model Example.guide tt 5%nat []
  = (Ok {| loss := Leaf 47; mutable_state := Some {[ "counter" := scalar 7 ]} |}, [])
  /\ (exists out log',
        Trace_ELBO.loss_with_mutable_state (Example.trace_elbo 3 true) ∅
          Example.model Example.guide tt 5%nat [] = (Ok out, log')
        /\ mutable_state out = None /\ mutable_warning ∈ log')
  /\ TraceMeanField_ELBO.loss_with_mutable_state (Example.mean_field_elbo 1 true) ∅
       Example.model Example.guide tt 5%nat []
     = (Ok {| loss := Leaf 13; mutable_state := Some {[ "counter" := scalar 7 ]} |}, []).
Proof.
  pose proof (mutable_state_policy (H0 := Example.handlers) ∅ Example.model
                Example.guide tt 5%nat []) as (Hone & Hmany & Hone_mf & _).
  split_and!.
  - destruct (Hone (Example.trace_elbo 1 true)
                {[ "z" := -125; "x" := -4 ]} {[ "z" := -82 ]}
                {[ "counter" := scalar 7 ]} []) as [H1 _].
    + vm_compute. reflexivity.
    + intros Hempty. vm_compute in Hempty. discriminate.
    + rewrite (H1 eq_refl). vm_compute. reflexivity.
  - destruct (Trace_ELBO.loss_with_mutable_state (Example.trace_elbo 3 true) ∅
                Example.model Example.guide tt 5%nat []) as [[out|e] log'] eqn:Hrun.
    2: { vm_compute in Hrun. discriminate. }
    exists out, log'. split; [done|].
    destruct (Hmany (Example.trace_elbo 3 true) out log') as [Hnone Hwarn];
      [cbn; lia|exact Hrun|].
    split; [exact Hnone|].
    eapply (Hwarn _ 500%nat).
    + vm_compute. reflexivity.
    + by left.
    + vm_compute. reflexivity.
    + intros Hempty. vm_compute in Hempty. discriminate.
  - destruct (Hone_mf (Example.mean_field_elbo 1 true)
                (Example.run_trace (Example.model 11%nat))
                (Example.run_trace (Example.guide 12%nat))
                {[ "counter" := scalar 7 ]} [] {[ "z" := -9; "x" := -4 ]}) as [H1 _].
    + vm_compute. reflexivity.
    + vm_compute. reflexivity.
    + intros Hempty. vm_compute in Hempty. discriminate.
    + rewrite (H1 eq_refl). vm_compute. reflexivity.
Defined.

(** C5, against the check as the specification words it: in the default mode
    of the plain estimator, when a latent site of the guide has no site of
    its name in the model, or a latent site of the model none in the guide,
    the particle raises the structural error, and so does the call: with one
    particle, and with several when the mismatch is at the first sub-key. *)
Theorem trace_elbo_mismatch_raises `{Handlers} (self : Trace_ELBO.t)
    (param_map : gmap string tensor) (model guide : program) (args : arguments)
    (k : key) (log : list string)
    (glp mlp : gmap string Z) (gt mt : trace) (w1 w2 : list string) :
  check_model_guide_match = check_model_guide_match_spec ->
  Trace_ELBO.multi_sample_guide self = false ->
  compute_log_probs (seed guide (random_split k).2) args param_map
    = (Ok (glp, gt), w1) ->
  compute_log_probs (replay (seed model (random_split k).1) gt) args
      (mutable_values gt ∪ param_map)
    = (Ok (mlp, mt), w2) ->
  unmatched_latent gt mt \/ unmatched_latent mt gt ->
  Trace_ELBO.single_particle_elbo self param_map model guide args k log
    = (Raise (StructuralError "model/guide mismatch"), (log ++ w1) ++ w2)
  /\ (num_particles (Trace_ELBO.base self) = 1 ->
      Trace_ELBO.loss_with_mutable_state self param_map model guide args k log
      = (Raise (StructuralError "model/guide mismatch"), (log ++ w1) ++ w2))
  /\ (forall rng_key rest,
        num_particles (Trace_ELBO.base self) ≠ 1 ->
        random_split_n rng_key (num_particles (Trace_ELBO.base self))
          = Ok (k :: rest) ->
        Trace_ELBO.loss_with_mutable_state self param_map model guide args rng_key log
        = (Raise (StructuralError "model/guide mismatch"), (log ++ w1) ++ w2)).
Proof.
  intros Hcheck Hmode Hguide Hmodel Hmis.
  assert (check_model_guide_match_spec mt gt
          = (Raise (StructuralError "model/guide mismatch"), [])) as Hraise.
  { unfold check_model_guide_match_spec. rewrite bool_decide_eq_false_2; [done|].
    intros [Hm Hg].
    destruct Hmis as [(name & s & Hin & Hkind & Hobs & Hnot)
                     |(name & s & Hin & Hkind & Hobs & Hnot)].
    - rewrite Forall_forall in Hg. apply Hnot, Hg. unfold latent_names.
      apply list_elem_of_fmap. exists (name, s). split; [done|].
      apply list_elem_of_filter. done.
    - rewrite Forall_forall in Hm. apply Hnot, Hm. unfold latent_names.
      apply list_elem_of_fmap. exists (name, s). split; [done|].
      apply list_elem_of_filter. done. }
  assert (forall l,
            Trace_ELBO.single_particle_elbo self param_map model guide args k l
            = (Raise (StructuralError "model/guide mismatch"), (l ++ w1) ++ w2))
    as Hsingle.
  { intros l. unfold Trace_ELBO.single_particle_elbo, Trace_ELBO.particle_log_probs.
    destruct (random_split k) as [model_seed guide_seed]. cbn in Hguide, Hmodel.
    rewrite Hmode. unfold mbind, M_bind, call. rewrite Hguide. cbn.
    rewrite Hmodel. cbn. rewrite Hcheck, Hraise. cbn. by rewrite app_nil_r. }
  split; [apply Hsingle|]. split.
  - intros Hn. unfold Trace_ELBO.loss_with_mutable_state, loss_of_particles.
    rewrite bool_decide_eq_true_2 by done. by rewrite (bind_raise _ _ _ _ _ (Hsingle log)).
  - intros rng_key rest Hn Hkeys.
    unfold Trace_ELBO.loss_with_mutable_state, loss_of_particles.
    rewrite bool_decide_eq_false_2 by done. rewrite Hkeys.
    unfold lift at 1. unfold mbind at 1, M_bind. unfold vectorize. cbn [mapM].
    apply bind_raise. by apply bind_raise.
Qed.

Lemma trace_elbo_mismatch_raises_witness :
  unmatched_latent (Example.run_trace (Example.guide_extra 12%nat))
    (Example.run_trace (Example.model 11%nat))
  /\ Trace_ELBO.loss_with_mutable_state (Example.trace_elbo 1 true) ∅
       Example.model Example.guide_extra tt 5%nat []
     = (Raise (StructuralError "model/guide mismatch"), []).
Proof.
  assert (unmatched_latent (Example.run_trace (Example.guide_extra 12%nat))
            (Example.run_trace (Example.model 11%nat))) as Hmis.
  { exists "w", (Example.guide_z 12). cbn. split_and!; try done.
    - set_solver.
    - set_solver. }
  split; [exact Hmis|].
  destruct (trace_elbo_mismatch_raises (Example.trace_elbo 1 true) ∅
              Example.model Example.guide_extra tt 5%nat []
              (Example.run_log_probs (Example.guide_extra 12%nat))
              (Example.run_log_probs (Example.model 11%nat))
              (Example.run_trace (Example.guide_extra 12%nat))
              (Example.run_trace (Example.model 11%nat)) [] [])
    as (_ & Hcall & _); [done|done|done|done|by left|].
  by apply Hcall.
Defined.

(** ** [TraceMeanField_ELBO]: the contributions of the sites *)

Section mean_field_facts.
Context `{Handlers}.
Import TraceMeanField_ELBO.

Lemma trace_mem_true (tr : trace) (name : string) :
  trace_mem tr name = true <-> name ∈ tr.*1.
Proof. unfold trace_mem. apply bool_decide_eq_true. Qed.

Lemma latent_contribution_fallback (model_site guide_site : site) :
  kl_divergence (site_fn guide_site) (site_fn model_site) = Raise NotImplementedError ->
  latent_contribution model_site guide_site
  = Ok (_get_log_prob_sum model_site - _get_log_prob_sum guide_site).
Proof. intros Hkl. unfold latent_contribution. by rewrite Hkl. Qed.

Lemma model_site_step_spec (guide_trace : trace) (acc acc' : gmap string Z)
    (name : string) (s : site) :
  model_site_step guide_trace acc (name, s) = Ok acc' ->
  (forall n, n ≠ name -> acc' !! n = acc !! n)
  /\ (site_kind s = sample ->
      exists v, acc' !! name = Some v /\ mean_field_contribution guide_trace name s v).
Proof.
  unfold model_site_step, mean_field_contribution. case_bool_decide as Hkind.
  - destruct (site_is_observed s).
    + intros [= <-]. split.
      * intros n Hn. by rewrite lookup_insert_ne.
      * intros _. eexists. split; [apply lookup_insert_eq|done].
    + destruct (trace_item guide_trace name) as [gs|e] eqn:Hgs; cbn; [|done].
      unfold latent_contribution.
      destruct (kl_divergence (site_fn gs) (site_fn s)) as [kl|e] eqn:Hkl; cbn.
      * intros [= <-]. split.
        -- intros n Hn. by rewrite lookup_insert_ne.
        -- intros _. eexists. split; [apply lookup_insert_eq|].
           exists gs. split; [done|]. by rewrite Hkl.
      * destruct e; cbn; try done. intros [= <-]. split.
        -- intros n Hn. by rewrite lookup_insert_ne.
        -- intros _. eexists. split; [apply lookup_insert_eq|].
           exists gs. split; [done|]. by rewrite Hkl.
  - intros [= <-]. split; done.
Qed.

Lemma model_sites_fold (guide_trace model_trace : trace) (acc d : gmap string Z) :
  NoDup model_trace.*1 ->
  foldM (model_site_step guide_trace) acc model_trace = Ok d ->
  (forall n, n ∉ model_trace.*1 -> d !! n = acc !! n)
  /\ (forall name s, (name, s) ∈ model_trace -> site_kind s = sample ->
        exists v, d !! name = Some v /\ mean_field_contribution guide_trace name s v).
Proof.
  revert acc. induction model_trace as [|[n0 s0] tr IH]; intros acc Hnd Hfold.
  - cbn in Hfold. injection Hfold as <-. split; [done|].
    intros name s Hin. by apply elem_of_nil in Hin.
  - cbn in Hnd. apply NoDup_cons in Hnd as [Hn0 Hnd]. cbn [foldM] in Hfold.
    destruct (model_site_step guide_trace acc (n0, s0)) as [acc1|e] eqn:Hstep;
      [|done].
    cbn in Hfold. destruct (IH acc1 Hnd Hfold) as [Hout Hin].
    destruct (model_site_step_spec _ _ _ _ _ Hstep) as [Hother Hthis].
    split.
    + intros n Hn. cbn in Hn. apply not_elem_of_cons in Hn as [Hne Hn].
      rewrite Hout by done. by apply Hother.
    + intros name s [[= -> ->]|Hs]%elem_of_cons Hkind.
      * destruct (Hthis Hkind) as (v & Hv & Hc). exists v. split; [|done].
        by rewrite Hout.
      * by apply Hin.
Qed.

Lemma guide_sites_fold (model_trace guide_trace : trace) (acc d : gmap string Z) :
  foldM (guide_site_step model_trace) acc guide_trace = Ok d ->
  forall n, n ∈ model_trace.*1 -> d !! n = acc !! n.
Proof.
  revert acc. induction guide_trace as [|[n0 s0] tr IH]; intros acc Hfold n Hn.
  - cbn in Hfold. by injection Hfold as <-.
  - cbn [foldM] in Hfold.
    destruct (guide_site_step model_trace acc (n0, s0)) as [acc1|e] eqn:Hstep;
      [|done].
    cbn in Hfold. rewrite (IH acc1 Hfold n Hn).
    unfold guide_site_step in Hstep.
    destruct (bool_decide (site_kind s0 = sample) && negb (trace_mem model_trace n0))
      eqn:Hcond.
    + apply andb_true_iff in Hcond as [_ Hmem]. apply negb_true_iff in Hmem.
      destruct (site_is_auxiliary s0 || site_is_observed s0); [|done].
      injection Hstep as <-. rewrite lookup_insert_ne; [done|].
      intros ->. apply trace_mem_true in Hn. congruence.
    + by injection Hstep as <-.
Qed.

End mean_field_facts.

(** C2: in every evaluation of a particle of the mean-field estimator, the
    contribution of a sample site of the model is its log-density when the
    site is observed; when it is latent it is minus the sum of the scaled
    analytic divergence between the distribution of the guide and that of
    the model; and when the divergence raises [NotImplementedError] the
    contribution of that site is the log-density of the model minus that of
    the guide, and nothing is raised. *)
Theorem mean_field_site_contributions `{Handlers} (self : TraceMeanField_ELBO.t)
    (param_map : gmap string tensor) (model guide : program) (args : arguments)
    (rng_key : key) (log log' : list string) (elbo : pytree Z)
    (ms : option (gmap string tensor)) :
  TraceMeanField_ELBO.single_particle_elbo self param_map model guide args rng_key log
    = (Ok (elbo, ms), log') ->
  exists (mt gt : trace) (mp : gmap string tensor) (log1 : list string)
         (d : gmap string Z),
    TraceMeanField_ELBO.particle_traces param_map model guide args rng_key log
      = (Ok (mt, gt, mp), log1)
    /\ TraceMeanField_ELBO.elbo_sites_of_traces mt gt = Ok d
    /\ elbo = (if TraceMeanField_ELBO.sum_sites self then Leaf (sum_values d)
               else Dict d)
    /\ (NoDup mt.*1 ->
        forall name s, (name, s) ∈ mt -> site_kind s = sample ->
          exists v, d !! name = Some v /\ mean_field_contribution gt name s v)
    /\ (forall model_site guide_site,
          kl_divergence (site_fn guide_site) (site_fn model_site)
            = Raise NotImplementedError ->
          TraceMeanField_ELBO.latent_contribution model_site guide_site
          = Ok (_get_log_prob_sum model_site - _get_log_prob_sum guide_site)).
Proof.
  intros Hrun. unfold TraceMeanField_ELBO.single_particle_elbo in Hrun.
  apply bind_inv in Hrun as ([[mt gt] mp] & log1 & Htraces & Hrun).
  apply bind_inv in Hrun as (d & log2 & Hd & Hret).
  apply return_particle_value in Hret.
  unfold lift in Hd. injection Hd as Hd _.
  exists mt, gt, mp, log1, d. split_and!; try done.
  - intros Hnd name s Hin Hkind.
    unfold TraceMeanField_ELBO.elbo_sites_of_traces in Hd.
    destruct (foldM (TraceMeanField_ELBO.model_site_step gt) ∅ mt) as [d1|e] eqn:Hm;
      [|done].
    cbn in Hd. destruct (model_sites_fold gt mt ∅ d1 Hnd Hm) as [_ Hsites].
    destruct (Hsites name s Hin Hkind) as (v & Hv & Hc). exists v. split; [|done].
    rewrite (guide_sites_fold mt gt d1 d Hd); [done|].
    apply list_elem_of_fmap. by exists (name, s).
  - apply latent_contribution_fallback.
Qed.

Lemma mean_field_site_contributions_witness :
  kl_divergence (site_fn (Example.guide_z_far 12)) (site_fn (Example.model_z 11))
    = Raise NotImplementedError
  /\ TraceMeanField_ELBO.single_particle_elbo (Example.mean_field_elbo 1 false) ∅
       Example.model Example.guide_far tt 5%nat []
     = (Ok (Dict {[ "z" := -125 - (-100); "x" := -4 ]}, None), [])
  /\ TraceMeanField_ELBO.single_particle_elbo (Example.mean_field_elbo 1 false) ∅
       Example.model Example.guide tt 5%nat []
     = (Ok (Dict {[ "z" := - 9; "x" := -4 ]}, Some {[ "counter" := scalar 7 ]}), [])
  /\ exists v,
       ({[ "z" := - 9; "x" := -4 ]} : gmap string Z) !! "z" = Some v
       /\ mean_field_contribution (Example.run_trace (Example.guide 12%nat)) "z"
            (Example.model_z 11) v.
Proof.
  split; [vm_compute; reflexivity|]. split; [vm_compute; reflexivity|].
  assert (TraceMeanField_ELBO.single_particle_elbo (Example.mean_field_elbo 1 false) ∅
            Example.model Example.guide tt 5%nat []
          = (Ok (Dict {[ "z" := - 9; "x" := -4 ]}, Some {[ "counter" := scalar 7 ]}), []))
    as Hrun.
  { vm_compute. reflexivity. }
  split; [exact Hrun|].
  destruct (mean_field_site_contributions _ _ _ _ _ _ _ _ _ _ Hrun)
    as (mt & gt & mp & log1 & d & Htraces & Hd & Helbo & Hsites & _).
  vm_compute in Htraces. injection Htraces as <- <- <- <-.
  cbn in Helbo. injection Helbo as <-.
  apply (Hsites); [|by left|done].
  cbn. repeat (apply NoDup_cons; split; [set_solver|]). apply NoDup_nil_2.
Defined.

(** ** [RenyiELBO]: the order of the bound *)

(** C6: constructing a [RenyiELBO] whose order equals 1 raises [ValueError];
    for every other order the construction succeeds and keeps the order; the
    number of particles is the one given, and 2 when none is given; the
    order is 0 when none is given. *)
Theorem renyi_init_order (alpha : option Q) (particles : option Z) :
  (default 0%Q alpha == 1 ->
   exists msg, RenyiELBO.init alpha particles = Raise (ValueError msg))%Q
  /\ (~ (default 0%Q alpha == 1)%Q ->
      exists self,
        RenyiELBO.init alpha particles = Ok self
        /\ RenyiELBO.alpha self = default 0%Q alpha
        /\ num_particles (RenyiELBO.base self) = default 2 particles)
  /\ (forall self,
        RenyiELBO.init alpha None = Ok self ->
        num_particles (RenyiELBO.base self) = 2).
Proof.
  unfold RenyiELBO.init. split_and!.
  - intros Heq. apply Qeq_bool_iff in Heq. rewrite Heq. by eexists.
  - intros Hne. destruct (Qeq_bool (default 0%Q alpha) 1) eqn:Heq.
    + by apply Qeq_bool_iff in Heq.
    + cbn. by eexists.
  - intros self. destruct (Qeq_bool (default 0%Q alpha) 1); [done|].
    cbn. by intros [= <-].
Qed.

Lemma renyi_init_order_witness :
  (exists msg, RenyiELBO.init (Some (2 # 2)%Q) None = Raise (ValueError msg))
  /\ (exists self,
        RenyiELBO.init (Some (1 # 2)%Q) None = Ok self
        /\ RenyiELBO.alpha self = (1 # 2)%Q
        /\ num_particles (RenyiELBO.base self) = 2)
  /\ (exists self,
        RenyiELBO.init None (Some 7) = Ok self
        /\ RenyiELBO.alpha self = 0%Q
        /\ num_particles (RenyiELBO.base self) = 7).
Proof.
  split_and!.
  - apply (renyi_init_order (Some (2 # 2)%Q) None). reflexivity.
  - apply (renyi_init_order (Some (1 # 2)%Q) None). intros Heq. discriminate Heq.
  - apply (renyi_init_order None (Some 7)). intros Heq. discriminate Heq.
Defined.

(** ** Reproducibility *)

Section reproducible.
Context `{Handlers} `{!RenyiArithmetic} `{!Enumeration}.
Context (param_map : gmap string tensor) (model guide : program) (args : arguments).


Lemma parametric_again {A : Type} (m : M A) (log log' log2 : list string)
    (r : result A) :
  parametric m -> m log = (r, log') -> exists log2', m log2 = (r, log2').
Proof.
  intros Hm Hrun. apply (parametric_run _ _ _ _ Hm) in Hrun as [-> _].
  rewrite (Hm log2). by eexists.
Qed.

(** Once [max_plate_nesting] is set, a particle leaves the estimator as it
    is. *)
Lemma enum_single_stable (self self' : TraceEnum_ELBO.t) (k : key)
    (log log' : list string) (v : Z) :
  is_Some (TraceEnum_ELBO.max_plate_nesting self) ->
  TraceEnum_ELBO.single_particle_elbo param_map model guide args self k log
    = (Ok (v, self'), log') ->
  self' = self.
Proof.
  intros [n Hn]. unfold TraceEnum_ELBO.single_particle_elbo. rewrite Hn.
  destruct (random_split k) as [model_seed guide_seed].
  unfold mbind, M_bind, mret, M_ret, call. cbn.
  destruct (enum_particle_elbo _ _ _ _ _ _ _) as [[elbo|e] w]; cbn; [|done].
  by intros [= _ <- _].
Qed.

(** A particle sets [max_plate_nesting], and run again from the estimator it
    left it has the same value. *)
Lemma enum_single_again (self self' : TraceEnum_ELBO.t) (k : key)
    (log log' : list string) (v : Z) :
  TraceEnum_ELBO.single_particle_elbo param_map model guide args self k log
    = (Ok (v, self'), log') ->
  is_Some (TraceEnum_ELBO.max_plate_nesting self')
  /\ TraceEnum_ELBO.base self' = TraceEnum_ELBO.base self
  /\ forall log2, exists log2',
       TraceEnum_ELBO.single_particle_elbo param_map model guide args self' k log2
       = (Ok (v, self'), log2').
Proof.
  unfold TraceEnum_ELBO.single_particle_elbo.
  destruct (random_split k) as [model_seed guide_seed].
  destruct (TraceEnum_ELBO.max_plate_nesting self) as [n|] eqn:Hn.
  - unfold mbind, M_bind, mret, M_ret, call. cbn.
    destruct (enum_particle_elbo _ _ _ _ _ _ _) as [[elbo|e] w] eqn:Helbo; cbn; [|done].
    intros [= <- <- <-]. rewrite Hn. split_and!; [by eexists|done|].
    intros log2. cbn. rewrite Helbo. by eexists.
  - unfold mbind, M_bind, mret, M_ret, call. cbn.
    destruct (guess_max_plate_nesting _ _ _ _) as [[n|e] w0]; cbn; [|done].
    destruct (enum_particle_elbo _ _ _ _ _ _ _) as [[elbo|e] w] eqn:Helbo; cbn; [|done].
    intros [= <- <- <-]. cbn. split_and!; [by eexists|done|].
    intros log2. rewrite Helbo. by eexists.
Qed.

Lemma enum_particles_stable (self self' : TraceEnum_ELBO.t) (keys : list key)
    (log log' : list string) (vs : list Z) :
  is_Some (TraceEnum_ELBO.max_plate_nesting self) ->
  TraceEnum_ELBO.particles param_map model guide args self keys log
    = (Ok (vs, self'), log') ->
  self' = self.
Proof.
  intros Hset. revert log log' vs self'.
  induction keys as [|k keys IH]; intros log log' vs self';
    cbn [TraceEnum_ELBO.particles].
  - by intros [= _ <- _].
  - intros Hrun. apply bind_inv in Hrun as ([v s1] & log1 & Hk & Hrun).
    apply bind_inv in Hrun as ([vs' s2] & log2 & Hrest & Hret).
    injection Hret as _ <- _.
    apply (enum_single_stable _ _ _ _ _ _ Hset) in Hk as ->.
    by apply IH in Hrest.
Qed.

Lemma enum_particles_again (self self' : TraceEnum_ELBO.t) (keys : list key)
    (log log' : list string) (vs : list Z) :
  TraceEnum_ELBO.particles param_map model guide args self keys log = (Ok (vs, self'), log') ->
  TraceEnum_ELBO.base self' = TraceEnum_ELBO.base self
  /\ forall log2, exists log2',
       TraceEnum_ELBO.particles param_map model guide args self' keys log2
       = (Ok (vs, self'), log2').
Proof.
  destruct keys as [|k keys]; cbn [TraceEnum_ELBO.particles].
  - intros [= <- <- <-]. split; [done|]. intros log2. by eexists.
  - intros Hrun. apply bind_inv in Hrun as ([v s1] & log1 & Hk & Hrun).
    apply bind_inv in Hrun as ([vs' s2] & log2 & Hrest & Hret).
    injection Hret as <- <- <-.
    apply enum_single_again in Hk as (Hset & Hbase & Hagain).
    pose proof (enum_particles_stable _ _ _ _ _ _ Hset Hrest) as ->.
    split; [done|]. intros log3.
    destruct (Hagain log3) as [log4 Hk'].
    destruct (parametric_again _ _ _ log4 _ (parametric_enum_particles _ _ _ _ s1 keys)
                Hrest) as [log5 Hrest'].
    exists log5. unfold mbind, M_bind. rewrite Hk', Hrest'. done.
Qed.

Lemma enum_loss_again (self self' : TraceEnum_ELBO.t) (k : key)
    (log log' : list string) (v : Z) :
  TraceEnum_ELBO.loss param_map model guide args self k log = (Ok (v, self'), log') ->
  forall log2, exists log2',
    TraceEnum_ELBO.loss param_map model guide args self' k log2 = (Ok (v, self'), log2').
Proof.
  unfold TraceEnum_ELBO.loss. case_bool_decide as Hn.
  - intros Hrun. apply bind_inv in Hrun as ([elbo s1] & log1 & Hk & Hret).
    injection Hret as <- <- <-.
    apply enum_single_again in Hk as (_ & Hbase & Hagain).
    rewrite Hbase, bool_decide_eq_true_2 by done.
    intros log2. destruct (Hagain log2) as [log3 Hk'].
    exists log3. unfold mbind, M_bind. by rewrite Hk'.
  - intros Hrun. apply bind_inv in Hrun as (keys & log1 & Hkeys & Hrun).
    apply bind_inv in Hrun as ([elbos s1] & log2 & Hps & Hret).
    injection Hret as <- <- <-. injection Hkeys as Hkeys <-.
    apply enum_particles_again in Hps as (Hbase & Hagain).
    rewrite Hbase, bool_decide_eq_false_2 by done.
    intros log3. destruct (Hagain log3) as [log4 Hps'].
    exists log4. unfold mbind, M_bind, lift. rewrite Hkeys. cbn. by rewrite Hps'.
Qed.

Lemma parametric_estimator_loss (e : estimator) (k : key) :
  parametric (estimator_loss param_map model guide args e k).
Proof.
  destruct e as [self|self|self|self|self]; cbn [estimator_loss].
  - apply parametric_bind; [apply parametric_trace_loss|intros ?; apply parametric_ret].
  - apply parametric_bind; [apply parametric_mean_field_loss|intros ?; apply parametric_ret].
  - apply parametric_bind; [apply parametric_renyi_loss|intros ?; apply parametric_ret].
  - apply parametric_bind; [apply parametric_graph_loss|intros ?; apply parametric_ret].
  - apply parametric_bind; [apply parametric_enum_loss|intros [? ?]; apply parametric_ret].
Qed.

Lemma estimator_loss_again (e e' : estimator) (k : key) (log log' : list string)
    (v : pytree Z) :
  estimator_loss param_map model guide args e k log = (Ok (v, e'), log') ->
  forall log2, exists log2',
    estimator_loss param_map model guide args e' k log2 = (Ok (v, e'), log2').
Proof.
  intros Hrun log2.
  destruct e as [self|self|self|self|self].
  1-4: pose proof Hrun as Hrun'; cbn [estimator_loss] in Hrun';
       apply bind_inv in Hrun' as (r & log1 & _ & [= _ <- _]);
       exact (parametric_again _ _ _ log2 _ (parametric_estimator_loss _ k) Hrun).
  cbn [estimator_loss] in Hrun.
  apply bind_inv in Hrun as ([r self'] & log1 & Hloss & [= <- <- <-]).
  destruct (enum_loss_again _ _ _ _ _ _ Hloss log2) as [log3 Hloss'].
  exists log3. cbn [estimator_loss]. unfold mbind, M_bind. by rewrite Hloss'.
Qed.

(** The loss reads the key through the results of the splitting. *)
Lemma estimator_loss_factors (e : estimator) (k : key) (log : list string) :
  estimator_loss param_map model guide args e k log
  = (rng_keys ← lift (particle_keys e k);
     loss_from_particle_keys param_map model guide args e (random_split k).1
       rng_keys) log.
Proof.
  destruct e as [self|self|self|self|self];
    unfold particle_keys; cbn [estimator_loss splits_plate_key estimator_base
                                 loss_from_particle_keys].
  - unfold Trace_ELBO.loss, Trace_ELBO.loss_with_mutable_state, loss_of_particles,
      vectorize.
    case_bool_decide as Hn.
    + unfold mbind, M_bind, lift, mret, M_ret. cbn [mapM TraceEnum_ELBO.particles].
      unfold mbind, M_bind, mret, M_ret.
      destruct (Trace_ELBO.single_particle_elbo _ _ _ _ _ _ _)
        as [[[elbo ms]|ex] log1]; by cbn.
    + unfold mbind, M_bind, lift, mret, M_ret.
      destruct (random_split_n _ _) as [keys|ex]; [|done].
      destruct (mapM _ keys log) as [[outputs|ex] log1]; by cbn.
  - unfold TraceMeanField_ELBO.loss, TraceMeanField_ELBO.loss_with_mutable_state,
      loss_of_particles, vectorize.
    case_bool_decide as Hn.
    + unfold mbind, M_bind, lift, mret, M_ret. cbn [mapM TraceEnum_ELBO.particles].
      unfold mbind, M_bind, mret, M_ret.
      destruct (TraceMeanField_ELBO.single_particle_elbo _ _ _ _ _ _ _)
        as [[[elbo ms]|ex] log1]; by cbn.
    + unfold mbind, M_bind, lift, mret, M_ret.
      destruct (random_split_n _ _) as [keys|ex]; [|done].
      destruct (mapM _ keys log) as [[outputs|ex] log1]; by cbn.
  - unfold RenyiELBO.loss, vectorize.
    destruct (random_split k) as [plate_key rng_key]. cbn [fst snd].
    unfold mbind, M_bind, lift, mret, M_ret.
    destruct (random_split_n _ _) as [keys|ex]; [|done].
    destruct (mapM _ keys log) as [[outputs|ex] log1]; [|done].
    destruct (renyi_combine _ _ _ _); by cbn.
  - unfold TraceGraph_ELBO.loss, vectorize.
    case_bool_decide as Hn.
    + unfold mbind, M_bind, lift, mret, M_ret. cbn [mapM TraceEnum_ELBO.particles].
      unfold mbind, M_bind, mret, M_ret.
      destruct (TraceGraph_ELBO.single_particle_elbo _ _ _ _ _ _)
        as [[elbo|ex] log1]; by cbn.
    + unfold mbind, M_bind, lift, mret, M_ret.
      destruct (random_split_n _ _) as [keys|ex]; [|done].
      destruct (mapM _ keys log) as [[outputs|ex] log1]; by cbn.
  - unfold TraceEnum_ELBO.loss.
    case_bool_decide as Hn.
    + unfold mbind, M_bind, lift, mret, M_ret. cbn [mapM TraceEnum_ELBO.particles].
      unfold mbind, M_bind, mret, M_ret.
      destruct (TraceEnum_ELBO.single_particle_elbo _ _ _ _ _ _ _)
        as [[[elbo s1]|ex] log1]; by cbn.
    + unfold mbind, M_bind, lift, mret, M_ret.
      destruct (random_split_n _ _) as [keys|ex]; [|done].
      destruct (TraceEnum_ELBO.particles _ _ _ _ _ keys log)
        as [[[elbos s1]|ex] log1]; by cbn.
Qed.

End reproducible.

(** ** More on [MultiFrameTensor] *)

Section MultiFrameTensor_more.
Import MultiFrameTensor.

Lemma get_set_eq (self : t) (frames : gset frame) (value : tensor) :
  get (set self frames value) frames = Some value.
Proof.
  induction self as [|[k v] self IH]; cbn.
  - by rewrite bool_decide_eq_true_2.
  - case_bool_decide as Hk; cbn.
    + by rewrite bool_decide_eq_true_2.
    + by rewrite bool_decide_eq_false_2.
Qed.

Lemma get_set_ne (self : t) (frames k : gset frame) (value : tensor) :
  k ≠ frames -> get (set self frames value) k = get self k.
Proof.
  intros Hne. induction self as [|[k' v] self IH]; cbn.
  - by rewrite bool_decide_eq_false_2.
  - case_bool_decide as Hk; cbn.
    + subst k'. by rewrite !bool_decide_eq_false_2.
    + by rewrite IH.
Qed.

Lemma set_keys (self : t) (frames : gset frame) (value : tensor) :
  (set self frames value).*1
  = match get self frames with
    | Some _ => self.*1
    | None => self.*1 ++ [frames]
    end.
Proof.
  induction self as [|[k v] self IH]; cbn; [done|].
  case_bool_decide as Hk; cbn; [done|]. rewrite IH.
  by destruct (get self frames).
Qed.

End MultiFrameTensor_more.

(** X6: [add] of one pair, when it returns, leaves under the set of the
    frames of the stack the array given, or the sum of the array that was
    there and the one given; every other entry and the order of the keys are
    as before, a new key coming last.  The key is the set of the frames: the
    order of the frames in the stack and their repetitions make no
    difference.  It returns only if every frame of the stack has a negative
    dimension that is not below minus the rank of the array. *)
Theorem add_lookup (self self' : MultiFrameTensor.t) (stack : list frame)
    (value : tensor) :
  MultiFrameTensor.add self [(stack, value)] = Ok self' ->
  (forall f, f ∈ stack ->
     frame_dim f < 0 /\ - Z.of_nat (ndim value) <= frame_dim f)
  /\ (exists v,
        MultiFrameTensor.get self' (list_to_set stack) = Some v
        /\ match MultiFrameTensor.get self (list_to_set stack) with
           | Some old => tensor_add old value = Ok v
           | None => v = value
           end)
  /\ (forall frames, frames ≠ list_to_set stack ->
        MultiFrameTensor.get self' frames = MultiFrameTensor.get self frames)
  /\ self'.*1 = match MultiFrameTensor.get self (list_to_set stack) with
                | Some _ => self.*1
                | None => self.*1 ++ [list_to_set stack]
                end
  /\ (forall stack',
        (forall f, f ∈ stack' <-> f ∈ stack) ->
        MultiFrameTensor.add self [(stack', value)] = Ok self').
Proof.
  unfold MultiFrameTensor.add. cbn [foldM].
  intros Hadd.
  destruct (MultiFrameTensor.add1 self (stack, value)) as [r|e] eqn:Hadd1;
    cbn in Hadd; [|done].
  injection Hadd as ->. pose proof Hadd1 as Hadd1'.
  unfold MultiFrameTensor.add1 in Hadd1.
  destruct (MultiFrameTensor.frames_in_rank _ value) eqn:Hrank; [|done].
  split.
  { intros f Hf. unfold MultiFrameTensor.frames_in_rank in Hrank.
    rewrite forallb_forall in Hrank. specialize (Hrank f).
    rewrite <- list_elem_of_In, elem_of_elements, elem_of_list_to_set in Hrank.
    apply Hrank, andb_prop in Hf as [H1 H2].
    by apply bool_decide_eq_true in H1, H2. }
  assert (forall stack', (forall f, f ∈ stack' <-> f ∈ stack) ->
                         (list_to_set stack' : gset frame) = list_to_set stack) as Hset.
  { intros stack' Hiff. apply set_eq. intros f. by rewrite !elem_of_list_to_set. }
  destruct (MultiFrameTensor.get self (list_to_set stack)) as [old|] eqn:Hget.
  - destruct (tensor_add old value) as [v|e] eqn:Hv; cbn in Hadd1; [|done].
    injection Hadd1 as <-. split_and!.
    + exists v. by rewrite get_set_eq.
    + intros frames Hne. by apply get_set_ne.
    + by rewrite set_keys, Hget.
    + intros stack' Hiff. unfold MultiFrameTensor.add1.
      rewrite (Hset stack' Hiff), Hrank, Hget, Hv. done.
  - injection Hadd1 as <-. split_and!.
    + exists value. by rewrite get_set_eq.
    + intros frames Hne. by apply get_set_ne.
    + by rewrite set_keys, Hget.
    + intros stack' Hiff. unfold MultiFrameTensor.add1.
      rewrite (Hset stack' Hiff), Hrank, Hget. done.
Qed.

Lemma add_lookup_witness :
  exists self',
    MultiFrameTensor.add
      [(list_to_set [CondIndepStackFrame "a" (-1) 2; CondIndepStackFrame "b" (-2) 3],
        Tensor [3; 2]%nat [1; 2; 3; 4; 5; 6])]
      [([CondIndepStackFrame "b" (-2) 3; CondIndepStackFrame "a" (-1) 2],
        Tensor [1; 2]%nat [10; 20])] = Ok self'
    /\ MultiFrameTensor.get self'
         (list_to_set [CondIndepStackFrame "b" (-2) 3; CondIndepStackFrame "a" (-1) 2])
       = Some (Tensor [3; 2]%nat [11; 22; 13; 24; 15; 26])
    /\ self'.*1
       = [list_to_set [CondIndepStackFrame "a" (-1) 2; CondIndepStackFrame "b" (-2) 3]].
Proof.
  assert (MultiFrameTensor.add
            [(list_to_set [CondIndepStackFrame "a" (-1) 2; CondIndepStackFrame "b" (-2) 3],
              Tensor [3; 2]%nat [1; 2; 3; 4; 5; 6])]
            [([CondIndepStackFrame "b" (-2) 3; CondIndepStackFrame "a" (-1) 2],
              Tensor [1; 2]%nat [10; 20])]
          = Ok [(list_to_set [CondIndepStackFrame "a" (-1) 2; CondIndepStackFrame "b" (-2) 3],
                 Tensor [3; 2]%nat [11; 22; 13; 24; 15; 26])]) as Hrun.
  { vm_compute. reflexivity. }
  eexists. split; [exact Hrun|].
  destruct (add_lookup _ _ _ _ Hrun) as (_ & (v & Hget & Hv) & _ & Hkeys & _).
  split.
  - rewrite Hget. vm_compute in Hv. by injection Hv as <-.
  - rewrite Hkeys. vm_compute. reflexivity.
Defined.

Lemma foldM_ext_in {A B : Type} (f g : A -> B -> result A) (a : A) (l : list B) :
  (forall a b, b ∈ l -> f a b = g a b) -> foldM f a l = foldM g a l.
Proof.
  revert a. induction l as [|b l IH]; intros a Hfg; [done|].
  cbn. rewrite (Hfg a b) by (by left).
  destruct (g a b) as [a'|e]; cbn; [|done]. apply IH. intros a0 b0 Hb0.
  apply Hfg. by right.
Qed.

(** X7: what [sum_to] returns depends on the target frames only through
    which frames of the keys of the container are among them: two targets
    that hold the same frames of the keys give the same result, whatever
    their order, their repetitions and their other frames.  On an empty
    container the result is the scalar 0. *)
Theorem sum_to_target_membership (self : MultiFrameTensor.t)
    (target1 target2 : list frame) :
  (forall frames value f,
     (frames, value) ∈ self -> f ∈ frames -> f ∈ target1 <-> f ∈ target2) ->
  MultiFrameTensor.sum_to self target1 = MultiFrameTensor.sum_to self target2
  /\ MultiFrameTensor.sum_to [] target1 = Ok (scalar 0).
Proof.
  intros Hsame. split; [|done]. unfold MultiFrameTensor.sum_to.
  rewrite (foldM_ext_in (MultiFrameTensor.sum_to_step target1)
             (MultiFrameTensor.sum_to_step target2)); [done|].
  intros total [frames value] Hin. unfold MultiFrameTensor.sum_to_step.
  rewrite (foldM_ext_in (MultiFrameTensor.reduce_frame target1)
             (MultiFrameTensor.reduce_frame target2)); [done|].
  intros v f Hf. apply elem_of_elements in Hf.
  unfold MultiFrameTensor.reduce_frame.
  pose proof (Hsame frames value f Hin Hf) as Hiff.
  do 2 case_bool_decide; tauto.
Qed.

Lemma sum_to_target_membership_witness :
  MultiFrameTensor.sum_to
    [(list_to_set [CondIndepStackFrame "a" (-1) 2; CondIndepStackFrame "b" (-2) 3],
      Tensor [3; 2]%nat [1; 2; 3; 4; 5; 6])]
    [CondIndepStackFrame "a" (-1) 2]
  = MultiFrameTensor.sum_to
      [(list_to_set [CondIndepStackFrame "a" (-1) 2; CondIndepStackFrame "b" (-2) 3],
        Tensor [3; 2]%nat [1; 2; 3; 4; 5; 6])]
      [CondIndepStackFrame "c" (-3) 5; CondIndepStackFrame "a" (-1) 2;
       CondIndepStackFrame "a" (-1) 2].
Proof.
  apply sum_to_target_membership.
  intros frames value f Hin Hf.
  apply list_elem_of_singleton in Hin as [= -> ->].
  set_unfold in Hf.
  destruct Hf as [->|[->|[]]]; rewrite !list_elem_of_In; cbn; split; intros Hor.
  - tauto.
  - tauto.
  - destruct Hor as [Heq|[]]. discriminate Heq.
  - destruct Hor as [Heq|[Heq|[Heq|[]]]]; discriminate Heq.
Defined.

(** ** Sums over an axis, with exact numbers *)

Section totals.

Lemma total_app (l1 l2 : list Z) :
  foldr Z.add 0 (l1 ++ l2) = foldr Z.add 0 l1 + foldr Z.add 0 l2.
Proof. induction l1 as [|x l1 IH]; cbn; lia. Qed.

Lemma total_zip_add (a b : list Z) :
  length a = length b ->
  foldr Z.add 0 (zip_with Z.add a b) = foldr Z.add 0 a + foldr Z.add 0 b.
Proof.
  revert b. induction a as [|x a IH]; intros [|y b] Hlen; cbn in *; try done.
  rewrite IH by lia. lia.
Qed.

Lemma total_replicate_zero (n : nat) : foldr Z.add 0 (replicate n 0) = 0.
Proof. induction n as [|n IH]; cbn; lia. Qed.

Lemma chunks_length (k size : nat) (l : list Z) : length (chunks k size l) = k.
Proof. revert l. induction k as [|k IH]; intros l; cbn; [done|]. by rewrite IH. Qed.

Lemma chunks_concat (k size : nat) (l : list Z) :
  length l = (k * size)%nat -> concat (chunks k size l) = l.
Proof.
  revert l. induction k as [|k IH]; intros l Hlen; cbn.
  - by destruct l.
  - rewrite IH; [apply take_drop|]. rewrite length_drop. lia.
Qed.

Lemma chunks_each (k size : nat) (l : list Z) :
  length l = (k * size)%nat ->
  Forall (fun c => length c = size) (chunks k size l).
Proof.
  revert l. induction k as [|k IH]; intros l Hlen; cbn; constructor.
  - rewrite length_take. lia.
  - apply IH. rewrite length_drop. lia.
Qed.

Lemma sum_rows_fold (inner : nat) (rows : list (list Z)) (acc : list Z) :
  length acc = inner ->
  Forall (fun r => length r = inner) rows ->
  length (fold_left (zip_with Z.add) rows acc) = inner
  /\ foldr Z.add 0 (fold_left (zip_with Z.add) rows acc)
     = foldr Z.add 0 acc + foldr Z.add 0 (concat rows).
Proof.
  intros Hacc Hrows. revert acc Hacc.
  induction Hrows as [|r rows Hr _ IH]; intros acc Hacc; cbn.
  - split; [done|lia].
  - destruct (IH (zip_with Z.add acc r)) as [Hlen Htot].
    { rewrite length_zip_with. lia. }
    split; [done|]. rewrite Htot, total_zip_add, total_app by lia. lia.
Qed.

Lemma sum_rows_total (inner : nat) (rows : list (list Z)) :
  Forall (fun r => length r = inner) rows ->
  length (sum_rows inner rows) = inner
  /\ foldr Z.add 0 (sum_rows inner rows) = foldr Z.add 0 (concat rows).
Proof.
  intros Hrows. unfold sum_rows.
  destruct (sum_rows_fold inner rows (replicate inner 0)) as [Hlen Htot];
    [apply length_replicate|done|].
  split; [done|]. rewrite Htot, total_replicate_zero. lia.
Qed.

Lemma numel_app (s1 s2 : list nat) : numel (s1 ++ s2) = (numel s1 * numel s2)%nat.
Proof. unfold numel. induction s1 as [|a s1 IH]; cbn; [lia|]. rewrite IH. lia. Qed.

Lemma blocks_total (f : list Z -> list Z) (size size' : nat) (blocks : list (list Z)) :
  (forall b, length b = size ->
             length (f b) = size' /\ foldr Z.add 0 (f b) = foldr Z.add 0 b) ->
  Forall (fun b => length b = size) blocks ->
  length (concat (f <$> blocks)) = (length blocks * size')%nat
  /\ foldr Z.add 0 (concat (f <$> blocks)) = foldr Z.add 0 (concat blocks).
Proof.
  intros Hf Hblocks. induction Hblocks as [|b blocks Hb _ [IHlen IHtot]]; cbn; [done|].
  destruct (Hf b Hb) as [Hlen Htot].
  rewrite length_app, !total_app, Hlen, IHlen, Htot, IHtot. done.
Qed.

Lemma sum_axis_total (t : tensor) (ax : nat) :
  well_shaped t -> (ax < ndim t)%nat ->
  well_shaped (sum_axis t ax) /\ jnp_sum (sum_axis t ax) = jnp_sum t.
Proof.
  unfold well_shaped, ndim, jnp_sum, sum_axis. intros Hws Hax.
  destruct (lookup_lt_is_Some_2 (shape t) ax Hax) as [n Hn].
  rewrite Hn. change (default 1%nat (Some n)) with n. cbn [shape data].
  set (outer := numel (take ax (shape t))).
  set (inner := numel (drop (S ax) (shape t))).
  assert (numel (shape t) = (outer * (n * inner))%nat) as Hnumel.
  { rewrite <- (take_drop_middle (shape t) ax n Hn) at 1.
    rewrite numel_app. done. }
  assert (numel (<[ax := 1%nat]> (shape t)) = (outer * inner)%nat) as Hnumel'.
  { rewrite insert_take_drop by done. rewrite numel_app. unfold numel at 2.
    cbn. fold (numel (drop (S ax) (shape t))). unfold inner, outer. lia. }
  destruct (blocks_total (fun block => sum_rows inner (chunks n inner block))
              (n * inner) inner (chunks outer (n * inner) (data t))) as [Hlen Htot].
  - intros b Hb. destruct (sum_rows_total inner (chunks n inner b)) as [Hl Ht].
    { by apply chunks_each. }
    split; [done|]. rewrite Ht, chunks_concat by done. done.
  - apply chunks_each. lia.
  - split.
    + rewrite Hlen, chunks_length. by rewrite Hnumel'.
    + rewrite Htot, chunks_concat by lia. done.
Qed.

End totals.

(** ** More on [_partition] *)

Section partition_more.
Import OrderedDict.

(** What the two loops establish, for the use of the properties below. *)
Lemma partition_outer_inv (model_sum_deps : list (string * gset string))
    (sum_vars : gset string) :
  NoDup model_sum_deps.*1 ->
  (forall k, k ∈ model_sum_deps.*1 -> k ∉ sum_vars) ->
  exists g components,
    _partition model_sum_deps sum_vars = Ok components
    /\ (forall u, u ∈ keys g <->
          u ∈ model_sum_deps.*1 \/ exists k, depends model_sum_deps sum_vars k u)
    /\ (forall u w, adjacent g u w <-> linked model_sum_deps sum_vars u w)
    /\ outer_inv g sum_vars [] components.
Proof.
  intros Hnd Hdisj.
  destruct (build_neighbors_built model_sum_deps sum_vars Hnd Hdisj)
    as (g & Hbuild & Hbuilt).
  pose proof (bipartite_edges_of sum_vars model_sum_deps Hdisj) as Hbip.
  pose proof (elem_of_edges_of sum_vars model_sum_deps) as Hedge.
  destruct (built_wf_graph _ sum_vars _ g Hbuilt Hbip) as [Hg Hadj].
  { intros a b (deps & Hin & _)%Hedge. apply list_elem_of_fmap. by exists (a, deps). }
  assert (outer_inv g sum_vars g []) as Hinit.
  { split_and!; try done.
    - intros F M ?%elem_of_nil. done.
    - intros u Hu _. by left. }
  destruct (components_loop_inv g sum_vars (length g) g [] Hg Hinit (le_n _))
    as (components & Hloop & Hfinal).
  exists g, components. split_and!.
  - unfold _partition. rewrite Hbuild. exact Hloop.
  - intros u. destruct Hbuilt as (_ & Hkeys & _). rewrite Hkeys.
    by setoid_rewrite Hedge.
  - intros u w. rewrite Hadj, !Hedge. done.
  - done.
Qed.

(** Within a component, what is reachable stays inside. *)
Lemma component_closed (g : t) (sum_vars : gset string) (F M : gset string)
    (u w : string) :
  is_component g sum_vars F M -> u ∈ F ∪ M -> rtc (adjacent g) u w -> w ∈ F ∪ M.
Proof.
  intros (_ & _ & _ & _ & Hclosed & _) Hu Hrtc.
  induction Hrtc as [|x y z Hxy _ IH]; [done|]. apply IH. by apply (Hclosed x y).
Qed.

(** A cost term without enumerated dependency has no neighbour. *)
Lemma isolated_component (g : t) (sum_vars : gset string) (F M : gset string)
    (model_sum_deps : list (string * gset string)) (k : string) :
  (forall u w, adjacent g u w <-> linked model_sum_deps sum_vars u w) ->
  is_component g sum_vars F M ->
  k ∈ F -> (forall d, ~ depends model_sum_deps sum_vars k d) ->
  F = {[k]} /\ M = ∅.
Proof.
  intros Hlink Hcomp Hk Hnone.
  pose proof Hcomp as (_ & HF & HM & _ & _ & Hconn).
  assert (forall u, u ∈ F ∪ M -> u = k) as Hall.
  { intros u Hu. assert (rtc (adjacent g) k u) as Hrtc by (apply Hconn; set_solver).
    destruct Hrtc as [|x y z Hxy _]; [done|].
    apply Hlink in Hxy as [Hdep|Hdep]; [by apply Hnone in Hdep|].
    destruct Hdep as (deps & _ & _ & Hsv). by apply HF in Hk. }
  split; apply set_eq; intros u.
  - rewrite elem_of_singleton. split; [intros Hu; apply Hall; set_solver|by intros ->].
  - split; [|set_solver]. intros Hu. assert (u = k) as -> by (apply Hall; set_solver).
    apply HM in Hu. by apply HF in Hk.
Qed.

End partition_more.

(** X1: under the condition of its caller, a pair that [_partition] returns
    with no enumerated variable has exactly one cost term, one that depends
    on no enumerated variable; and every such cost term comes back as a pair
    of its own.  This is what the caller asserts of the pairs whose second
    set is empty. *)
Theorem partition_uncontracted_singleton
    (model_sum_deps : list (string * gset string)) (sum_vars : gset string) :
  NoDup model_sum_deps.*1 ->
  (forall k, k ∈ model_sum_deps.*1 -> k ∉ sum_vars) ->
  exists components,
    _partition model_sum_deps sum_vars = Ok components
    /\ (forall F M, (F, M) ∈ components -> M = ∅ ->
          exists k, F = {[k]} /\ k ∈ model_sum_deps.*1
                    /\ forall d, ~ depends model_sum_deps sum_vars k d)
    /\ (forall k, k ∈ model_sum_deps.*1 ->
          (forall d, ~ depends model_sum_deps sum_vars k d) ->
          ({[k]}, ∅) ∈ components).
Proof.
  intros Hnd Hdisj.
  destruct (partition_outer_inv model_sum_deps sum_vars Hnd Hdisj)
    as (g & components & Hrun & Hkeys & Hlink & (_ & _ & Hcomps & _ & Hcover)).
  exists components. split; [done|]. split.
  - intros F M HFM ->. destruct (Hcomps F ∅ HFM) as [Hcomp _].
    pose proof Hcomp as (Hne & HF & _ & Hin & Hclosed & _).
    apply set_choose_L in Hne as [k Hk]. exists k.
    assert (forall d, ~ depends model_sum_deps sum_vars k d) as Hnone.
    { intros d Hdep. pose proof Hdep as (deps & _ & _ & Hsv).
      assert (d ∈ F ∪ (∅ : gset string)) as Hd.
      { apply (Hclosed k d); [set_solver|]. apply Hlink. by left. }
      apply (HF d); [set_solver|done]. }
    split; [|split; [|done]].
    + by destruct (isolated_component g sum_vars F ∅ model_sum_deps k Hlink Hcomp Hk Hnone).
    + assert (k ∈ OrderedDict.keys g) as Hkg by (apply Hin; set_solver).
      apply Hkeys in Hkg as [?|[k' (deps & _ & _ & Hsv)]]; [done|].
      by apply HF in Hk.
  - intros k Hk Hnone.
    destruct (Hcover k) as [?%elem_of_nil|(F & M & HFM & HkF)]; [|by apply Hdisj|done|].
    { apply Hkeys. by left. }
    destruct (Hcomps F M HFM) as [Hcomp _].
    by destruct (isolated_component g sum_vars F M model_sum_deps k Hlink Hcomp HkF Hnone)
      as [<- <-].
Qed.

Lemma partition_uncontracted_singleton_witness :
  exists components,
    _partition [("a", {["x"]} : gset string); ("b", ∅); ("c", {["x"]})] {["x"; "y"]}
      = Ok components
    /\ ({["b"]}, ∅) ∈ components.
Proof.
  destruct (partition_uncontracted_singleton
              [("a", {["x"]} : gset string); ("b", ∅); ("c", {["x"]})] {["x"; "y"]})
    as (components & Hrun & _ & Hsingle).
  - cbn. repeat (apply NoDup_cons; split; [set_solver|]). apply NoDup_nil_2.
  - cbn. set_solver.
  - exists components. split; [done|]. apply Hsingle.
    + cbn. set_solver.
    + intros d (deps & Hin & Hd & _).
      apply list_elem_of_In in Hin. cbn in Hin.
      destruct Hin as [Heq|[Heq|[Heq|[]]]]; inversion Heq; subst. set_solver.
Defined.

(** X2: under the condition of its caller, the second sets of the pairs that
    [_partition] returns hold exactly the enumerated variables that some
    cost term depends on, and a cost term is paired with every enumerated
    variable it depends on: a contraction never misses a variable of one of
    its factors. *)
Theorem partition_measures_cover
    (model_sum_deps : list (string * gset string)) (sum_vars : gset string) :
  NoDup model_sum_deps.*1 ->
  (forall k, k ∈ model_sum_deps.*1 -> k ∉ sum_vars) ->
  exists components,
    _partition model_sum_deps sum_vars = Ok components
    /\ (forall d,
          (exists F M, (F, M) ∈ components /\ d ∈ M)
          <-> exists k, depends model_sum_deps sum_vars k d)
    /\ (forall F M k d,
          (F, M) ∈ components -> k ∈ F ->
          depends model_sum_deps sum_vars k d -> d ∈ M).
Proof.
  intros Hnd Hdisj.
  destruct (partition_outer_inv model_sum_deps sum_vars Hnd Hdisj)
    as (g & components & Hrun & Hkeys & Hlink & (_ & _ & Hcomps & _ & Hcover)).
  exists components. split; [done|].
  assert (forall F M k d,
            (F, M) ∈ components -> k ∈ F ->
            depends model_sum_deps sum_vars k d -> d ∈ M) as Hsame.
  { intros F M k d HFM Hk Hdep.
    destruct (Hcomps F M HFM) as [(_ & HF & _ & _ & Hclosed & _) _].
    assert (d ∈ F ∪ M) as Hd.
    { apply (Hclosed k d); [set_solver|]. apply Hlink. by left. }
    destruct Hdep as (deps & _ & _ & Hsv).
    apply elem_of_union in Hd as [Hd|Hd]; [|done]. by apply HF in Hd. }
  split; [|done]. intros d. split.
  - intros (F & M & HFM & Hd).
    destruct (Hcomps F M HFM) as [(_ & _ & HM & Hin & _) _].
    assert (d ∈ OrderedDict.keys g) as Hdg by (apply Hin; set_solver).
    apply Hkeys in Hdg as [Hkey|?]; [|done].
    apply Hdisj in Hkey. by apply HM in Hd.
  - intros [k Hdep]. pose proof Hdep as (deps & Hin & _ & _).
    assert (k ∈ model_sum_deps.*1) as Hk.
    { apply list_elem_of_fmap. by exists (k, deps). }
    destruct (Hcover k) as [?%elem_of_nil|(F & M & HFM & HkF)]; [|by apply Hdisj|done|].
    { apply Hkeys. by left. }
    exists F, M. split; [done|]. by apply (Hsame F M k d).
Qed.

Lemma partition_measures_cover_witness :
  exists components,
    _partition [("a", {["x"; "y"]} : gset string); ("b", {["y"; "w"]})] {["x"; "y"; "z"]}
      = Ok components
    /\ (forall F M, (F, M) ∈ components -> "a" ∈ F -> "x" ∈ M /\ "y" ∈ M).
Proof.
  destruct (partition_measures_cover
              [("a", {["x"; "y"]} : gset string); ("b", {["y"; "w"]})] {["x"; "y"; "z"]})
    as (components & Hrun & _ & Hsame).
  - cbn. repeat (apply NoDup_cons; split; [set_solver|]). apply NoDup_nil_2.
  - intros k Hk. cbn in Hk. set_solver.
  - exists components. split; [done|]. intros F M HFM Ha.
    split; apply (Hsame F M "a" _ HFM Ha); exists {["x"; "y"]}; set_solver.
Defined.

(** What [_partition] can raise: the lookups and pops of its dictionary. *)
Lemma visit_pending_raises (fuel : nat) (neighbors : OrderedDict.t)
    (component pending : list string) (e : exn) :
  visit_pending fuel neighbors component pending = Raise e ->
  e = LoopBound \/ exists k, e = KeyError k.
Proof.
  revert neighbors component pending.
  induction fuel as [|fuel IH]; intros neighbors component pending; cbn.
  - destruct (list_pop pending) as [[v pending']|]; [|done].
    destruct (OrderedDict.pop neighbors v) as [[adjacent neighbors']|e'] eqn:Hpop; cbn.
    + destruct (scan_neighbors _ _ _). intros [= <-]. by left.
    + intros [= <-]. apply pop_raise in Hpop as [-> _]. right. by eexists.
  - destruct (list_pop pending) as [[v pending']|]; [|done].
    destruct (OrderedDict.pop neighbors v) as [[adjacent neighbors']|e'] eqn:Hpop; cbn.
    + destruct (scan_neighbors _ _ _). apply IH.
    + intros [= <-]. apply pop_raise in Hpop as [-> _]. right. by eexists.
Qed.

Lemma components_loop_raises (fuel : nat) (sum_vars : gset string)
    (neighbors : OrderedDict.t) (components : list (gset string * gset string))
    (e : exn) :
  components_loop fuel sum_vars neighbors components = Raise e ->
  e = LoopBound \/ exists k, e = KeyError k.
Proof.
  revert neighbors components.
  induction fuel as [|fuel IH]; intros neighbors components.
  - destruct neighbors; cbn; [done|]. intros [= <-]. by left.
  - destruct neighbors as [|kv neighbors]; [done|].
    remember (kv :: neighbors) as nb eqn:Hnb.
    cbn. rewrite Hnb at 1. unfold OrderedDict.popitem.
    destruct (list_pop nb) as [[[v pending] nb']|] eqn:Hpop; cbn.
    2: { intros [= <-]. right. by eexists. }
    destruct (visit_pending (length nb') nb'
                (fold_left ordered_set_add pending [v]) pending)
      as [[nb'' component]|e'] eqn:Hvisit; cbn.
    + apply IH.
    + intros [= <-]. by apply visit_pending_raises in Hvisit.
Qed.

(** X3: on every input, whatever its keys and dependency sets, the two loops
    of [_partition] come to an end: it returns its list of pairs, or a
    lookup in its dictionary raises [KeyError]; it raises nothing else. *)
Theorem partition_returns_or_key_error
    (model_sum_deps : list (string * gset string)) (sum_vars : gset string) :
  (exists components, _partition model_sum_deps sum_vars = Ok components)
  \/ (exists k, _partition model_sum_deps sum_vars = Raise (KeyError k)).
Proof.
  pose proof (partition_bound model_sum_deps sum_vars) as Hbound.
  destruct (_partition model_sum_deps sum_vars) as [components|e] eqn:Hrun;
    [left; by eexists|right].
  unfold _partition in Hrun.
  destruct (build_neighbors model_sum_deps sum_vars) as [nb|e'] eqn:Hb;
    cbn in Hrun.
  - apply components_loop_raises in Hrun as [->|[k ->]]; [done|by eexists].
  - injection Hrun as ->. unfold build_neighbors in Hb.
    eapply (foldM_raise (fun e => exists k, e = KeyError k)) in Hb as [k ->];
      [by eexists|].
    intros nb [key deps] e' He.
    eapply (foldM_raise (fun e => exists k, e = KeyError k)); [|exact He].
    clear. intros nb dim e. unfold add_neighbor. case_bool_decide; [|done].
    destruct (OrderedDict.append_at nb key dim) as [nb'|e'] eqn:Happ; cbn; [done|].
    intros [= <-]. apply append_at_raise in Happ as [-> _]. by eexists.
Qed.

(** The dictionary comprehensions of the caller keep the keys that are not
    enumerated, once each. *)
Lemma model_sum_deps_keys (_model_deps : list (string * gset string))
    (sum_vars : gset string) :
  (EnumCosts.model_sum_deps _model_deps sum_vars).*1
  = filter (fun k => k ∉ sum_vars) _model_deps.*1.
Proof.
  unfold EnumCosts.model_sum_deps.
  induction _model_deps as [|[k deps] l IH]; [done|].
  rewrite fmap_cons, !filter_cons. cbn [fst].
  destruct (decide (k ∉ sum_vars)); cbn; by rewrite IH.
Qed.

(** X4: the cost terms that [TraceEnum_ELBO.loss] hands to [_partition] meet
    its condition, whatever the dependencies found: the call returns, every
    cost term that is not itself enumerated is in the first set of exactly
    one pair, no other name is in a first set, and the dependencies of such
    a cost term are split without loss into the enumerated ones, given to
    [_partition], and the others. *)
Theorem cost_groups_cover (_model_deps : list (string * gset string))
    (sum_vars : gset string) :
  NoDup _model_deps.*1 ->
  exists components,
    EnumCosts.cost_groups _model_deps sum_vars = Ok components
    /\ (forall k, k ∈ _model_deps.*1 -> k ∉ sum_vars ->
          exists i F M,
            components !! i = Some (F, M) /\ k ∈ F
            /\ (forall j F' M', components !! j = Some (F', M') -> k ∈ F' -> j = i))
    /\ (forall F M k, (F, M) ∈ components -> k ∈ F ->
          k ∈ _model_deps.*1 /\ k ∉ sum_vars)
    /\ (forall k deps, (k, deps) ∈ _model_deps -> k ∉ sum_vars ->
          exists enumerated others,
            (k, enumerated) ∈ EnumCosts.model_sum_deps _model_deps sum_vars
            /\ (k, others) ∈ EnumCosts.model_deps _model_deps sum_vars
            /\ enumerated ∪ others = deps
            /\ enumerated ⊆ sum_vars /\ others ## sum_vars).
Proof.
  intros Hnd. unfold EnumCosts.cost_groups.
  assert (NoDup (EnumCosts.model_sum_deps _model_deps sum_vars).*1) as Hnd'.
  { rewrite model_sum_deps_keys. by apply NoDup_filter. }
  assert (forall k, k ∈ (EnumCosts.model_sum_deps _model_deps sum_vars).*1 <->
                    k ∈ _model_deps.*1 /\ k ∉ sum_vars) as Hkeys'.
  { intros k. rewrite model_sum_deps_keys, list_elem_of_filter. tauto. }
  destruct (partition_outer_inv _ sum_vars Hnd') as
    (g & components & Hrun & Hkeys & Hlink & (_ & _ & Hcomps & Hpair & Hcover)).
  { intros k Hk. by apply Hkeys' in Hk as [_ ?]. }
  exists components. split; [done|]. split_and!.
  - intros k Hk Hsv.
    destruct (Hcover k) as [?%elem_of_nil|(F & M & HFM & HkF)]; [|done|done|].
    { apply Hkeys. left. by apply Hkeys'. }
    apply list_elem_of_lookup in HFM as [i Hi].
    exists i, F, M. split; [done|]. split; [done|].
    intros j F' M' Hj HkF'. destruct (decide (j = i)) as [|Hne]; [done|].
    pose proof (Hpair j i F' M' F M Hne Hj Hi). set_solver.
  - intros F M k HFM Hk.
    destruct (Hcomps F M HFM) as [(_ & HF & _ & Hin & _) _].
    assert (k ∈ OrderedDict.keys g) as Hkg by (apply Hin; set_solver).
    apply Hkeys in Hkg as [Hkey|[k' (deps & _ & _ & Hsv)]].
    + by apply Hkeys'.
    + by apply HF in Hk.
  - intros k deps Hin Hsv. exists (deps ∩ sum_vars), (deps ∖ sum_vars).
    split_and!.
    + unfold EnumCosts.model_sum_deps. apply list_elem_of_fmap.
      exists (k, deps). split; [done|]. by apply list_elem_of_filter.
    + unfold EnumCosts.model_deps. apply list_elem_of_fmap.
      exists (k, deps). split; [done|]. by apply list_elem_of_filter.
    + apply set_eq. intros x. destruct (decide (x ∈ sum_vars)); set_solver.
    + set_solver.
    + set_solver.
Qed.

Lemma cost_groups_cover_witness :
  exists components,
    EnumCosts.cost_groups
      [("a", {["b"]} : gset string); ("b", {["c"]}); ("d", {["b"; "e"]})] {["b"; "c"]}
      = Ok components
    /\ exists i F M, components !! i = Some (F, M) /\ "d" ∈ F.
Proof.
  destruct (cost_groups_cover
              [("a", {["b"]} : gset string); ("b", {["c"]}); ("d", {["b"; "e"]})]
              {["b"; "c"]})
    as (components & Hrun & Hcover & _).
  - cbn. repeat (apply NoDup_cons; split; [set_solver|]). apply NoDup_nil_2.
  - exists components. split; [done|].
    destruct (Hcover "d") as (i & F & M & Hi & Hd & _); [cbn; set_solver|set_solver|].
    by exists i, F, M.
Defined.

(** ** The descendants in the guide *)

Section guide_desc_facts.
Import EnumCosts.

Lemma guide_desc_add_get (name d x : string) (acc : gmap string (gset string))
    (n : string) :
  n ∈ guide_desc_get (guide_desc_add name acc d) x
  <-> n ∈ guide_desc_get acc x \/ (n = name /\ x = d /\ name ≠ d).
Proof.
  unfold guide_desc_add, guide_desc_get. case_bool_decide as Hne.
  - destruct (decide (d = x)) as [->|Hdx].
    + rewrite lookup_insert_eq. cbn. set_solver.
    + rewrite lookup_insert_ne by done. naive_solver.
  - naive_solver.
Qed.

Lemma guide_desc_inner (name x : string) (ds : list string)
    (acc : gmap string (gset string)) (n : string) :
  n ∈ guide_desc_get (fold_left (guide_desc_add name) ds acc) x
  <-> n ∈ guide_desc_get acc x \/ (n = name /\ x ∈ ds /\ name ≠ x).
Proof.
  revert acc. induction ds as [|d ds IH]; intros acc; cbn.
  - set_solver.
  - rewrite IH, guide_desc_add_get. set_solver.
Qed.

Lemma guide_desc_outer (guide_deps : list (string * gset string)) (x : string)
    (acc : gmap string (gset string)) (n : string) :
  n ∈ guide_desc_get
        (fold_left (fun acc '(name, deps) =>
                      fold_left (guide_desc_add name) (elements deps) acc)
                   guide_deps acc) x
  <-> n ∈ guide_desc_get acc x
      \/ exists deps, (n, deps) ∈ guide_deps /\ x ∈ deps /\ n ≠ x.
Proof.
  revert acc. induction guide_deps as [|[name deps] l IH]; intros acc; cbn.
  - set_solver.
  - rewrite IH, guide_desc_inner, elem_of_elements. split.
    + intros [[?|(-> & ? & ?)]|(deps' & ? & ? & ?)]; [by left|right..].
      * exists deps. split; [by left|done].
      * exists deps'. split; [by right|done].
    + intros [?|(deps' & Hin & ? & ?)]; [by left; left|].
      apply elem_of_cons in Hin as [[= -> ->]|Hin].
      * left. right. done.
      * right. by exists deps'.
Qed.

End guide_desc_facts.

(** X5: [guide_desc] inverts the dependencies of the guide: [name] is among
    the descendants of [d] exactly when [d] is one of the dependencies of
    [name] and is not [name] itself; so no variable is its own descendant,
    and a variable that nothing depends on reads as the empty set. *)
Theorem guide_desc_inverts (guide_deps : list (string * gset string))
    (name d : string) :
  (name ∈ EnumCosts.guide_desc_get (EnumCosts.guide_desc guide_deps) d
   <-> exists deps, (name, deps) ∈ guide_deps /\ d ∈ deps /\ name ≠ d)
  /\ d ∉ EnumCosts.guide_desc_get (EnumCosts.guide_desc guide_deps) d.
Proof.
  assert (forall n x,
            n ∈ EnumCosts.guide_desc_get (EnumCosts.guide_desc guide_deps) x
            <-> exists deps, (n, deps) ∈ guide_deps /\ x ∈ deps /\ n ≠ x) as Hiff.
  { intros n x. unfold EnumCosts.guide_desc. rewrite guide_desc_outer.
    unfold EnumCosts.guide_desc_get at 1. rewrite lookup_empty. cbn. set_solver. }
  split; [apply Hiff|]. intros (deps & _ & _ & Hne)%Hiff. done.
Qed.

(** ** The check of the mean-field requirement *)

Lemma NoDup_fst_inj {A B : Type} (l : list (A * B)) (x : A) (y1 y2 : B) :
  NoDup l.*1 -> (x, y1) ∈ l -> (x, y2) ∈ l -> y1 = y2.
Proof.
  induction l as [|[a b] l IH]; cbn; intros Hnd H1 H2; [by apply elem_of_nil in H1|].
  apply NoDup_cons in Hnd as [Ha Hnd].
  apply elem_of_cons in H1 as [H1|H1]; apply elem_of_cons in H2 as [H2|H2].
  - congruence.
  - injection H1 as -> ->. destruct Ha. apply list_elem_of_fmap. by exists (a, y2).
  - injection H2 as -> ->. destruct Ha. apply list_elem_of_fmap. by exists (a, y1).
  - by apply IH.
Qed.

Section mean_field_check.
Context `{Distributions}.

Lemma shared_sample_sites_elem (tr other : trace) (name : string) :
  name ∈ shared_sample_sites tr other
  <-> exists s, (name, s) ∈ tr /\ site_kind s = sample /\ name ∈ other.*1.
Proof.
  unfold shared_sample_sites. rewrite list_elem_of_fmap. split.
  - intros ([n s] & -> & Hin). apply list_elem_of_filter in Hin as [[Hk Hm] Hin].
    cbn in *. exists s. by rewrite <- trace_mem_true.
  - intros (s & Hin & Hk & Hm). exists (name, s). split; [done|].
    apply list_elem_of_filter. by rewrite <- trace_mem_true in Hm.
Qed.

Lemma shared_sample_sites_sets (model_trace guide_trace : trace) :
  NoDup model_trace.*1 -> NoDup guide_trace.*1 ->
  (list_to_set (shared_sample_sites model_trace guide_trace) : gset string)
    = list_to_set (shared_sample_sites guide_trace model_trace)
  <-> (forall name sm sg,
         (name, sm) ∈ model_trace -> (name, sg) ∈ guide_trace ->
         site_kind sm = sample <-> site_kind sg = sample).
Proof.
  intros Hndm Hndg. split.
  - intros Heq name sm sg Hm Hg.
    assert (name ∈ model_trace.*1) as Hnm by (apply list_elem_of_fmap; by exists (name, sm)).
    assert (name ∈ guide_trace.*1) as Hng by (apply list_elem_of_fmap; by exists (name, sg)).
    split; intros Hk.
    + assert (name ∈ (list_to_set (shared_sample_sites guide_trace model_trace)
                        : gset string)) as Hin.
      { rewrite <- Heq. apply elem_of_list_to_set.
        apply shared_sample_sites_elem. by exists sm. }
      apply elem_of_list_to_set, shared_sample_sites_elem in Hin as (sg' & Hg' & Hk' & _).
      by rewrite (NoDup_fst_inj _ _ _ _ Hndg Hg Hg').
    + assert (name ∈ (list_to_set (shared_sample_sites model_trace guide_trace)
                        : gset string)) as Hin.
      { rewrite Heq. apply elem_of_list_to_set.
        apply shared_sample_sites_elem. by exists sg. }
      apply elem_of_list_to_set, shared_sample_sites_elem in Hin as (sm' & Hm' & Hk' & _).
      by rewrite (NoDup_fst_inj _ _ _ _ Hndm Hm Hm').
  - intros Hagree. apply set_eq. intros name. rewrite !elem_of_list_to_set.
    rewrite !shared_sample_sites_elem. split.
    + intros (sm & Hm & Hk & Hng).
      apply list_elem_of_fmap in Hng as ([n sg] & -> & Hg). cbn in *.
      exists sg. split_and!; [done|by apply (Hagree n sm sg)|].
      apply list_elem_of_fmap. by exists (n, sm).
    + intros (sg & Hg & Hk & Hnm).
      apply list_elem_of_fmap in Hnm as ([n sm] & -> & Hm). cbn in *.
      exists sm. split_and!; [done|by apply (Hagree n sm sg)|].
      apply list_elem_of_fmap. by exists (n, sg).
Qed.

End mean_field_check.

(** X9: [_check_mean_field_requirement], on traces whose names are distinct
    as the keys of a dictionary are.  It fails its assertion exactly when
    some name is a [sample] site in one trace and a site of another kind in
    the other; otherwise it returns, with one warning when the sample sites
    that the traces share come in different orders, and with none when they
    come in the same order.  It raises nothing else and never emits more
    than that warning. *)
Theorem check_mean_field_outcome `{Distributions} (model_trace guide_trace : trace)
    (log : list string) :
  NoDup model_trace.*1 -> NoDup guide_trace.*1 ->
  ((exists name sm sg,
      (name, sm) ∈ model_trace /\ (name, sg) ∈ guide_trace
      /\ ~ (site_kind sm = sample <-> site_kind sg = sample))
   -> _check_mean_field_requirement model_trace guide_trace log
      = (Raise AssertionError, log))
  /\ ((forall name sm sg,
         (name, sm) ∈ model_trace -> (name, sg) ∈ guide_trace ->
         site_kind sm = sample <-> site_kind sg = sample)
      -> _check_mean_field_requirement model_trace guide_trace log
         = if bool_decide (shared_sample_sites model_trace guide_trace
                           = shared_sample_sites guide_trace model_trace)
           then (Ok tt, log)
           else (Ok tt,
                 log ++ [mean_field_warning
                           (shared_sample_sites model_trace guide_trace)
                           (shared_sample_sites guide_trace model_trace)])).
Proof.
  intros Hndm Hndg. unfold _check_mean_field_requirement.
  pose proof (shared_sample_sites_sets model_trace guide_trace Hndm Hndg) as Hsets.
  split.
  - intros (name & sm & sg & Hm & Hg & Hne).
    rewrite bool_decide_eq_false_2; [done|].
    intros Heq. apply Hne. by apply (proj1 Hsets Heq name sm sg).
  - intros Hagree. rewrite bool_decide_eq_true_2 by (by apply Hsets).
    do 2 case_bool_decide; done.
Qed.

Lemma check_mean_field_outcome_witness :
  _check_mean_field_requirement
    (Example.run_trace (Example.model 1%nat))
    (Example.run_trace (Example.guide 1%nat)) ["earlier"]
  = (Ok tt, ["earlier"]).
Proof.
  refine (proj2 (check_mean_field_outcome _ _ _ _ _) _).
  - cbn. repeat (apply NoDup_cons; split; [set_solver|]). apply NoDup_nil_2.
  - cbn. repeat (apply NoDup_cons; split; [set_solver|]). apply NoDup_nil_2.
  - intros name sm sg Hm Hg. apply list_elem_of_In in Hm, Hg. cbn in Hm, Hg.
    destruct Hm as [Hm|[Hm|[]]], Hg as [Hg|[Hg|[]]];
      inversion Hm; inversion Hg; subst; try done.
Defined.

(** ** The loss and the losses of the sites *)

Lemma sum_values_opp (d : gmap string Z) :
  sum_values (Z.opp <$> d) = - sum_values d.
Proof.
  induction d as [|i x d Hi _ IH] using map_first_key_ind.
  - by rewrite fmap_empty, sum_values_empty.
  - rewrite fmap_insert, !sum_values_insert, IH; [lia|done|].
    by rewrite lookup_fmap, Hi.
Qed.

(** X10: for [Trace_ELBO] and for [TraceMeanField_ELBO], in a call with one
    particle the loss with [sum_sites] is the sum of the losses of the sites
    that the same call returns without [sum_sites]; the mutable state and
    the warnings are the same. *)
Theorem site_losses_sum_to_loss `{Handlers} (param_map : gmap string tensor)
    (model guide : program) (args : arguments) (rng_key : key)
    (log log' : list string) (out : LossWithMutableState) :
  (forall (base : ELBO) (multi_sample_guide : bool),
     num_particles base = 1 ->
     Trace_ELBO.loss_with_mutable_state
       {| Trace_ELBO.base := base;
          Trace_ELBO.multi_sample_guide := multi_sample_guide;
          Trace_ELBO.sum_sites := false |}
       param_map model guide args rng_key log = (Ok out, log') ->
     exists d,
       loss out = Dict d
       /\ Trace_ELBO.loss_with_mutable_state
            {| Trace_ELBO.base := base;
               Trace_ELBO.multi_sample_guide := multi_sample_guide;
               Trace_ELBO.sum_sites := true |}
            param_map model guide args rng_key log
          = (Ok {| loss := Leaf (sum_values d);
                   mutable_state := mutable_state out |}, log'))
  /\ (forall (base : ELBO),
        num_particles base = 1 ->
        TraceMeanField_ELBO.loss_with_mutable_state
          {| TraceMeanField_ELBO.base := base;
             TraceMeanField_ELBO.sum_sites := false |}
          param_map model guide args rng_key log = (Ok out, log') ->
        exists d,
          loss out = Dict d
          /\ TraceMeanField_ELBO.loss_with_mutable_state
               {| TraceMeanField_ELBO.base := base;
                  TraceMeanField_ELBO.sum_sites := true |}
               param_map model guide args rng_key log
             = (Ok {| loss := Leaf (sum_values d);
                      mutable_state := mutable_state out |}, log')).
Proof.
  split.
  - intros base msg Hn.
    unfold Trace_ELBO.loss_with_mutable_state, loss_of_particles. cbn [Trace_ELBO.base].
    rewrite !bool_decide_eq_true_2 by done.
    intros Hrun. apply bind_inv in Hrun as ([elbo ms] & log1 & Hsingle & Hret).
    injection Hret as <- <-.
    unfold Trace_ELBO.single_particle_elbo in Hsingle.
    apply bind_inv in Hsingle as ([[m g] mp] & log2 & Hprobs & Hreturn).
    cbn [Trace_ELBO.base] in Hreturn.
    pose proof (return_particle_value _ _ _ _ _ _ _ Hreturn) as ->.
    unfold Trace_ELBO.elbo_particle_of in *. cbn [Trace_ELBO.sum_sites] in *.
    exists (Z.opp <$> elbo_sites m g). split; [done|].
    unfold Trace_ELBO.single_particle_elbo.
    assert (Trace_ELBO.particle_log_probs
              {| Trace_ELBO.base := base; Trace_ELBO.multi_sample_guide := msg;
                 Trace_ELBO.sum_sites := true |} param_map model guide args rng_key log
            = (Ok (m, g, mp), log2)) as Hprobs' by exact Hprobs.
    unfold mbind at 1, M_bind at 1. unfold mbind at 1, M_bind at 1.
    rewrite Hprobs'. cbn [Trace_ELBO.base Trace_ELBO.sum_sites].
    rewrite return_particle_run in Hreturn |- *.
    repeat case_bool_decide; try done; injection Hreturn as <- <-; cbn;
      by rewrite sum_values_opp.
  - intros base Hn.
    unfold TraceMeanField_ELBO.loss_with_mutable_state, loss_of_particles.
    cbn [TraceMeanField_ELBO.base].
    rewrite !bool_decide_eq_true_2 by done.
    intros Hrun. apply bind_inv in Hrun as ([elbo ms] & log1 & Hsingle & Hret).
    injection Hret as <- <-.
    unfold TraceMeanField_ELBO.single_particle_elbo in Hsingle.
    apply bind_inv in Hsingle as ([[mt gt] mp] & log2 & Htraces & Hrest).
    apply bind_inv in Hrest as (d & log3 & Hsites & Hreturn).
    injection Hsites as Hsites <-.
    cbn [TraceMeanField_ELBO.base TraceMeanField_ELBO.sum_sites] in Hreturn.
    pose proof (return_particle_value _ _ _ _ _ _ _ Hreturn) as ->.
    exists (Z.opp <$> d). split; [done|].
    unfold TraceMeanField_ELBO.single_particle_elbo.
    unfold mbind at 1, M_bind at 1. unfold mbind at 1, M_bind at 1.
    rewrite Htraces. unfold mbind at 1, M_bind at 1, lift. rewrite Hsites.
    cbn [TraceMeanField_ELBO.base TraceMeanField_ELBO.sum_sites].
    rewrite return_particle_run in Hreturn |- *.
    repeat case_bool_decide; try done; injection Hreturn as <- <-; cbn;
      by rewrite sum_values_opp.
Qed.

Lemma site_losses_sum_to_loss_witness :
  exists d ms log',
    Trace_ELBO.loss_with_mutable_state (Example.trace_elbo 1 false) ∅
      Example.model Example.guide tt 5%nat [] = (Ok {| loss := Dict d; mutable_state := ms |}, log')
    /\ Trace_ELBO.loss_with_mutable_state (Example.trace_elbo 1 true) ∅
         Example.model Example.guide tt 5%nat []
       = (Ok {| loss := Leaf (sum_values d); mutable_state := ms |}, log').
Proof.
  destruct (Trace_ELBO.loss_with_mutable_state (Example.trace_elbo 1 false) ∅
              Example.model Example.guide tt 5%nat []) as [[out|e] log'] eqn:Hrun.
  2: { vm_compute in Hrun. discriminate Hrun. }
  destruct (proj1 (site_losses_sum_to_loss ∅ Example.model Example.guide tt 5%nat
                     [] log' out)
              {| num_particles := 1; vectorize_particles := VBool true;
                 vectorize_particles_fn := _apply_vmap |} false eq_refl Hrun)
    as (d & Hd & Hsum).
  exists d, (mutable_state out), log'. split; [|exact Hsum].
  destruct out as [l ms]. cbn in Hd. by rewrite Hd.
Defined.

(** ** [Trace_ELBO] with [multi_sample_guide] *)

(** X11: with [multi_sample_guide], a guide whose trace has no [sample] site
    makes the particle raise [ValueError], and a guide whose first [sample]
    site has a value without axes makes it raise [IndexError] (the number
    of guide samples is read off the leading axis of that value); the model
    is not run, and a call with one particle raises the same. *)
Theorem multi_sample_guide_needs_samples `{Handlers} (self : Trace_ELBO.t)
    (param_map : gmap string tensor) (model guide : program) (args : arguments)
    (rng_key : key) (log w : list string) (glp : gmap string Z) (gt : trace) :
  Trace_ELBO.multi_sample_guide self = true ->
  compute_log_probs (seed guide (random_split rng_key).2) args param_map
    = (Ok (glp, gt), w) ->
  ((forall name s, (name, s) ∈ gt -> site_kind s ≠ sample) ->
   Trace_ELBO.single_particle_elbo self param_map model guide args rng_key log
   = (Raise (ValueError "guide is missing `sample` sites."), log ++ w)
   /\ (num_particles (Trace_ELBO.base self) = 1 ->
       Trace_ELBO.loss_with_mutable_state self param_map model guide args rng_key log
       = (Raise (ValueError "guide is missing `sample` sites."), log ++ w)))
  /\ (forall i name s,
        list_find (fun kv : string * site => site_kind kv.2 = sample) gt
          = Some (i, (name, s)) ->
        shape (site_value s) = [] ->
        Trace_ELBO.single_particle_elbo self param_map model guide args rng_key log
        = (Raise IndexError, log ++ w)
        /\ (num_particles (Trace_ELBO.base self) = 1 ->
            Trace_ELBO.loss_with_mutable_state self param_map model guide args
              rng_key log
            = (Raise IndexError, log ++ w))).
Proof.
  intros Hmode Hguide.
  assert (forall e,
            Trace_ELBO.single_particle_elbo self param_map model guide args rng_key log
            = (Raise e, log ++ w) ->
            num_particles (Trace_ELBO.base self) = 1 ->
            Trace_ELBO.loss_with_mutable_state self param_map model guide args
              rng_key log = (Raise e, log ++ w)) as Hcall.
  { intros e Hsingle Hn.
    unfold Trace_ELBO.loss_with_mutable_state, loss_of_particles.
    rewrite bool_decide_eq_true_2 by done.
    unfold mbind, M_bind. by rewrite Hsingle. }
  assert (forall e,
            match list_find (fun kv : string * site => site_kind kv.2 = sample) gt with
            | Some (_, (_, s)) => lift (shape_at (site_value s) 0)
            | None => raise (ValueError "guide is missing `sample` sites.")
            end (log ++ w) = (Raise e, log ++ w) ->
            Trace_ELBO.single_particle_elbo self param_map model guide args rng_key log
            = (Raise e, log ++ w)) as Hparticle.
  { intros e Hnum.
    unfold Trace_ELBO.single_particle_elbo, Trace_ELBO.particle_log_probs.
    destruct (random_split rng_key) as [model_seed guide_seed]. cbn [snd] in Hguide.
    rewrite Hmode. unfold Trace_ELBO.multi_sample_model_log_probs.
    unfold mbind, M_bind, call. rewrite Hguide. cbn [fst snd].
    unfold mbind, M_bind in Hnum. by rewrite Hnum. }
  split.
  - intros Hnone.
    assert (list_find (fun kv : string * site => site_kind kv.2 = sample) gt = None)
      as Hfind.
    { apply list_find_None, Forall_forall. intros [name s] Hin. by apply (Hnone name s). }
    assert (Trace_ELBO.single_particle_elbo self param_map model guide args rng_key log
            = (Raise (ValueError "guide is missing `sample` sites."), log ++ w))
      as Hsingle.
    { apply Hparticle. by rewrite Hfind. }
    split; [done|]. by apply Hcall.
  - intros i name s Hfind Hshape.
    assert (Trace_ELBO.single_particle_elbo self param_map model guide args rng_key log
            = (Raise IndexError, log ++ w)) as Hsingle.
    { apply Hparticle. rewrite Hfind. unfold lift, shape_at, ndim.
      by rewrite Hshape. }
    split; [done|]. by apply Hcall.
Qed.

Lemma multi_sample_guide_needs_samples_witness :
  Trace_ELBO.loss_with_mutable_state
    {| Trace_ELBO.base := {| num_particles := 1; vectorize_particles := VBool true;
                             vectorize_particles_fn := _apply_vmap |};
       Trace_ELBO.multi_sample_guide := true; Trace_ELBO.sum_sites := true |}
    ∅ Example.model
    (fun _ => {| Example.run_trace := [("counter", Example.counter)];
                 Example.run_log_probs := ∅; Example.run_deps := ∅ |})
    tt 5%nat []
  = (Raise (ValueError "guide is missing `sample` sites."), []).
Proof.
  refine (proj2 (proj1 (multi_sample_guide_needs_samples
                          {| Trace_ELBO.base :=
                               {| num_particles := 1; vectorize_particles := VBool true;
                                  vectorize_particles_fn := _apply_vmap |};
                             Trace_ELBO.multi_sample_guide := true;
                             Trace_ELBO.sum_sites := true |}
                          ∅ Example.model
                          (fun _ => {| Example.run_trace := [("counter", Example.counter)];
                                       Example.run_log_probs := ∅;
                                       Example.run_deps := ∅ |})
                          tt 5%nat [] [] ∅ [("counter", Example.counter)]
                          eq_refl eq_refl) _) eq_refl).
  intros name s Hin. apply list_elem_of_singleton in Hin as [= -> ->]. done.
Defined.

(** ** [TraceMeanField_ELBO]: the dictionary of the sites *)

Section mean_field_more.
Context `{Handlers}.
Import TraceMeanField_ELBO.

Lemma trace_item_raise (tr : trace) (name : string) (e : exn) :
  trace_item tr name = Raise e -> e = KeyError name /\ name ∉ tr.*1.
Proof.
  unfold trace_item. destruct (trace_get tr name) as [s|] eqn:Hget; [done|].
  intros [= <-]. split; [done|].
  induction tr as [|[k s] tr IH]; cbn in *; [apply not_elem_of_nil|].
  case_bool_decide; [done|]. apply not_elem_of_cons. split; [done|]. by apply IH.
Qed.

Lemma trace_item_ok (tr : trace) (name : string) :
  name ∈ tr.*1 -> exists s, trace_item tr name = Ok s.
Proof.
  intros Hin. destruct (trace_item tr name) as [s|e] eqn:Hitem; [by exists s|].
  by apply trace_item_raise in Hitem as [_ ?].
Qed.

Lemma model_site_step_dom (guide_trace : trace) (acc acc' : gmap string Z)
    (name : string) (s : site) :
  model_site_step guide_trace acc (name, s) = Ok acc' ->
  dom acc' = if bool_decide (site_kind s = sample) then {[name]} ∪ dom acc else dom acc.
Proof.
  unfold model_site_step. case_bool_decide; [|by intros [= <-]].
  destruct (site_is_observed s).
  - intros [= <-]. by rewrite dom_insert_L.
  - destruct (trace_item guide_trace name) as [gs|e]; cbn; [|done].
    destruct (latent_contribution s gs) as [v|e]; cbn; [|done].
    intros [= <-]. by rewrite dom_insert_L.
Qed.

Lemma model_sites_dom (guide_trace model_trace : trace) (acc d : gmap string Z) :
  foldM (model_site_step guide_trace) acc model_trace = Ok d ->
  forall n, n ∈ dom d <->
            n ∈ dom acc \/ exists s, (n, s) ∈ model_trace /\ site_kind s = sample.
Proof.
  revert acc. induction model_trace as [|[n0 s0] tr IH]; intros acc Hfold n.
  - cbn in Hfold. injection Hfold as <-. set_solver.
  - cbn [foldM] in Hfold.
    destruct (model_site_step guide_trace acc (n0, s0)) as [acc1|e] eqn:Hstep;
      [|done].
    cbn in Hfold. rewrite (IH acc1 Hfold n), (model_site_step_dom _ _ _ _ _ Hstep).
    case_bool_decide as Hk; split.
    + intros [[->%elem_of_singleton|?]%elem_of_union|(s & ? & ?)].
      * right. exists s0. split; [by left|done].
      * by left.
      * right. exists s. split; [by right|done].
    + intros [?|(s & [[= -> ->]|?]%elem_of_cons & ?)].
      * left. set_solver.
      * left. set_solver.
      * right. by exists s.
    + intros [?|(s & ? & ?)]; [by left|]. right. exists s. split; [by right|done].
    + intros [?|(s & [[= -> ->]|?]%elem_of_cons & ?)]; [by left|done|].
      right. by exists s.
Qed.

Lemma guide_site_step_spec (model_trace : trace) (acc acc' : gmap string Z)
    (name : string) (s : site) :
  guide_site_step model_trace acc (name, s) = Ok acc' ->
  if bool_decide (site_kind s = sample /\ name ∉ model_trace.*1)
  then (site_is_auxiliary s = true \/ site_is_observed s = true)
       /\ acc' = <[name := - _get_log_prob_sum s]> acc
  else acc' = acc.
Proof.
  unfold guide_site_step, trace_mem.
  destruct (decide (site_kind s = sample)) as [Hk|Hk];
    destruct (decide (name ∈ model_trace.*1)) as [Hm|Hm].
  - rewrite (bool_decide_eq_true_2 _ Hk), (bool_decide_eq_true_2 _ Hm). cbn.
    rewrite bool_decide_eq_false_2 by tauto. by intros [= <-].
  - rewrite (bool_decide_eq_true_2 _ Hk), (bool_decide_eq_false_2 _ Hm). cbn.
    rewrite bool_decide_eq_true_2 by done.
    destruct (site_is_auxiliary s) eqn:Ha, (site_is_observed s) eqn:Ho; cbn;
      try done; intros [= <-]; split; auto.
  - rewrite (bool_decide_eq_false_2 _ Hk). cbn.
    rewrite bool_decide_eq_false_2 by tauto. by intros [= <-].
  - rewrite (bool_decide_eq_false_2 _ Hk). cbn.
    rewrite bool_decide_eq_false_2 by tauto. by intros [= <-].
Qed.

Lemma guide_sites_values (model_trace guide_trace : trace) (acc d : gmap string Z) :
  NoDup guide_trace.*1 ->
  foldM (guide_site_step model_trace) acc guide_trace = Ok d ->
  (forall n, n ∈ dom d <->
             n ∈ dom acc
             \/ exists s, (n, s) ∈ guide_trace /\ site_kind s = sample
                          /\ n ∉ model_trace.*1)
  /\ (forall n s, (n, s) ∈ guide_trace -> site_kind s = sample ->
        n ∉ model_trace.*1 ->
        (site_is_auxiliary s = true \/ site_is_observed s = true)
        /\ d !! n = Some (- _get_log_prob_sum s))
  /\ (forall n, n ∉ guide_trace.*1 -> d !! n = acc !! n).
Proof.
  revert acc. induction guide_trace as [|[n0 s0] tr IH]; intros acc Hnd Hfold.
  - cbn in Hfold. injection Hfold as <-. split_and!; [set_solver| |done].
    intros n s Hin. by apply elem_of_nil in Hin.
  - cbn in Hnd. apply NoDup_cons in Hnd as [Hn0 Hnd]. cbn [foldM] in Hfold.
    destruct (guide_site_step model_trace acc (n0, s0)) as [acc1|e] eqn:Hstep;
      [|done].
    cbn in Hfold. destruct (IH acc1 Hnd Hfold) as (Hdom & Hval & Hout).
    apply guide_site_step_spec in Hstep.
    case_bool_decide as Hcond.
    + destruct Hcond as [Hk Hm]. destruct Hstep as [Hflag ->]. split_and!.
      * intros n. rewrite Hdom, dom_insert_L. split.
        -- intros [[->%elem_of_singleton|?]%elem_of_union|(s & ? & ? & ?)].
           ++ right. exists s0. split; [by left|done].
           ++ by left.
           ++ right. exists s. split; [by right|done].
        -- intros [?|(s & [[= -> ->]|?]%elem_of_cons & ? & ?)].
           ++ left. set_solver.
           ++ left. set_solver.
           ++ right. by exists s.
      * intros n s [[= -> ->]|Hin]%elem_of_cons Hks Hnm.
        -- split; [done|]. rewrite Hout by done. apply lookup_insert_eq.
        -- by apply Hval.
      * intros n [Hne Hn]%not_elem_of_cons. rewrite Hout by done.
        by rewrite lookup_insert_ne.
    + subst acc1. split_and!.
      * intros n. rewrite Hdom. split.
        -- intros [?|(s & ? & ? & ?)]; [by left|]. right. exists s.
           split; [by right|done].
        -- intros [?|(s & [[= -> ->]|?]%elem_of_cons & ? & ?)]; [by left|tauto|].
           right. by exists s.
      * intros n s [[= -> ->]|Hin]%elem_of_cons Hks Hnm; [tauto|]. by apply Hval.
      * intros n [Hne Hn]%not_elem_of_cons. by apply Hout.
Qed.

End mean_field_more.

Lemma foldM_raise_inv {A B : Type} (f : A -> B -> result A) (a : A) (l : list B)
    (e : exn) :
  foldM f a l = Raise e -> exists a' b, b ∈ l /\ f a' b = Raise e.
Proof.
  revert a. induction l as [|b l IH]; intros a; cbn; [done|].
  destruct (f a b) as [a'|e'] eqn:Hfa; cbn.
  - intros (a'' & b' & Hin & Hf)%IH. exists a'', b'. split; [by right|done].
  - intros [= <-]. exists a, b. split; [by left|done].
Qed.

Lemma foldM_ok {A B : Type} (f : A -> B -> result A) (a : A) (l : list B) :
  (forall a b, b ∈ l -> is_ok (f a b)) -> is_ok (foldM f a l).
Proof.
  revert a. induction l as [|b l IH]; intros a Hf; cbn; [done|].
  pose proof (Hf a b (list_elem_of_here _ _)) as Hb.
  destruct (f a b) as [a'|e]; [|done]. cbn. apply IH. intros a0 b0 Hb0.
  apply Hf. by right.
Qed.

(** X12: the dictionary that a particle of [TraceMeanField_ELBO] fills has
    one entry for every [sample] site of the model and for every [sample]
    site of the guide that the model does not have, and no other; the entry
    of such a site of the guide is minus its log-density, and the site is
    auxiliary or observed. *)
Theorem mean_field_sites_domain `{Handlers} (model_trace guide_trace : trace)
    (d : gmap string Z) :
  NoDup guide_trace.*1 ->
  TraceMeanField_ELBO.elbo_sites_of_traces model_trace guide_trace = Ok d ->
  (forall n,
     n ∈ dom d <->
     (exists s, (n, s) ∈ model_trace /\ site_kind s = sample)
     \/ (exists s, (n, s) ∈ guide_trace /\ site_kind s = sample
                   /\ n ∉ model_trace.*1))
  /\ (forall n s,
        (n, s) ∈ guide_trace -> site_kind s = sample -> n ∉ model_trace.*1 ->
        (site_is_auxiliary s = true \/ site_is_observed s = true)
        /\ d !! n = Some (- _get_log_prob_sum s)).
Proof.
  intros Hnd. unfold TraceMeanField_ELBO.elbo_sites_of_traces.
  destruct (foldM (TraceMeanField_ELBO.model_site_step guide_trace) ∅ model_trace)
    as [d1|e] eqn:Hm; [|done].
  cbn. intros Hg.
  destruct (guide_sites_values model_trace guide_trace d1 d Hnd Hg) as (Hdom & Hval & _).
  split; [|done]. intros n.
  rewrite Hdom, (model_sites_dom guide_trace model_trace ∅ d1 Hm n), dom_empty_L.
  set_solver.
Qed.

Lemma mean_field_sites_domain_witness :
  exists d,
    TraceMeanField_ELBO.elbo_sites_of_traces
      (Example.run_trace (Example.model 1%nat))
      (Example.run_trace (Example.guide 1%nat)) = Ok d
    /\ dom d = {["z"; "x"]}.
Proof.
  destruct (TraceMeanField_ELBO.elbo_sites_of_traces
              (Example.run_trace (Example.model 1%nat))
              (Example.run_trace (Example.guide 1%nat))) as [d|e] eqn:Hrun.
  2: { vm_compute in Hrun. discriminate Hrun. }
  exists d. split; [done|].
  assert (NoDup (Example.run_trace (Example.guide 1%nat)).*1) as Hnd.
  { cbn. repeat (apply NoDup_cons; split; [set_solver|]). apply NoDup_nil_2. }
  destruct (mean_field_sites_domain _ _ d Hnd Hrun) as [Hdom _].
  apply set_eq. intros n. rewrite Hdom. cbn. split.
  - intros [(s & Hin & Hk)|(s & Hin & Hk & Hnot)].
    + apply list_elem_of_In in Hin. cbn in Hin.
      destruct Hin as [Heq|[Heq|[]]]; inversion Heq; subst; set_solver.
    + apply list_elem_of_In in Hin. cbn in Hin.
      destruct Hin as [Heq|[Heq|[]]]; inversion Heq; subst; [set_solver|done].
  - intros Hn. left.
    apply elem_of_union in Hn as [Hn|Hn]; apply elem_of_singleton in Hn as ->.
    + exists (Example.model_z 1). split; [by left|done].
    + exists Example.model_x. split; [right; by left|done].
Defined.

(** X13: what the two loops of a particle of [TraceMeanField_ELBO] can
    raise.  They return when every latent [sample] site of the model has a
    site of its name in the guide for which [kl_divergence] returns or
    raises [NotImplementedError], and every [sample] site of the guide that
    the model does not have is auxiliary or observed.  When they raise, it
    is [KeyError] for a latent site of the model that the guide does not
    have, or what [kl_divergence] raised, or [AssertionError] for a [sample]
    site of the guide alone that is neither auxiliary nor observed. *)
Theorem mean_field_sites_errors `{Handlers} (model_trace guide_trace : trace) :
  ((forall n s, (n, s) ∈ model_trace -> site_kind s = sample ->
      site_is_observed s = false ->
      exists gs, trace_item guide_trace n = Ok gs
                 /\ (is_ok (kl_divergence (site_fn gs) (site_fn s))
                     \/ kl_divergence (site_fn gs) (site_fn s)
                        = Raise NotImplementedError)) ->
   (forall n s, (n, s) ∈ guide_trace -> site_kind s = sample ->
      n ∉ model_trace.*1 ->
      site_is_auxiliary s = true \/ site_is_observed s = true) ->
   is_ok (TraceMeanField_ELBO.elbo_sites_of_traces model_trace guide_trace))
  /\ (forall e,
        TraceMeanField_ELBO.elbo_sites_of_traces model_trace guide_trace = Raise e ->
        (exists n s, (n, s) ∈ model_trace /\ site_kind s = sample
                     /\ site_is_observed s = false
                     /\ (n ∉ guide_trace.*1) /\ e = KeyError n)
        \/ (exists n s gs, (n, s) ∈ model_trace /\ site_kind s = sample
                           /\ site_is_observed s = false
                           /\ trace_item guide_trace n = Ok gs
                           /\ kl_divergence (site_fn gs) (site_fn s) = Raise e
                           /\ e ≠ NotImplementedError)
        \/ (exists n s, (n, s) ∈ guide_trace /\ site_kind s = sample
                        /\ (n ∉ model_trace.*1)
                        /\ site_is_auxiliary s = false
                        /\ site_is_observed s = false /\ e = AssertionError)).
Proof.
  unfold TraceMeanField_ELBO.elbo_sites_of_traces. split.
  - intros Hlatent Hguide.
    pose proof (foldM_ok (TraceMeanField_ELBO.model_site_step guide_trace) ∅
                  model_trace) as Hm.
    destruct (foldM (TraceMeanField_ELBO.model_site_step guide_trace) ∅ model_trace)
      as [d1|e].
    + cbn. apply foldM_ok. intros acc [n s] Hin.
      unfold TraceMeanField_ELBO.guide_site_step, trace_mem.
      destruct (decide (site_kind s = sample)) as [Hk|Hk];
        destruct (decide (n ∈ model_trace.*1)) as [Hn|Hn];
        rewrite ?(bool_decide_eq_true_2 _ Hk), ?(bool_decide_eq_false_2 _ Hk),
          ?(bool_decide_eq_true_2 _ Hn), ?(bool_decide_eq_false_2 _ Hn); cbn;
        try done.
      by destruct (Hguide n s Hin Hk Hn) as [-> | ->]; rewrite ?orb_true_r.
    + apply Hm. intros acc [n s] Hin.
      unfold TraceMeanField_ELBO.model_site_step.
      case_bool_decide as Hk; [|done].
      destruct (site_is_observed s) eqn:Ho; [done|].
      destruct (Hlatent n s Hin Hk Ho) as (gs & -> & Hkl). cbn.
      unfold TraceMeanField_ELBO.latent_contribution.
      destruct Hkl as [Hkl| ->]; [|done].
      by destruct (kl_divergence (site_fn gs) (site_fn s)).
  - intros e.
    destruct (foldM (TraceMeanField_ELBO.model_site_step guide_trace) ∅ model_trace)
      as [d1|e'] eqn:Hm; cbn.
    + intros (acc & [n s] & Hin & Hstep)%foldM_raise_inv. right. right.
      unfold TraceMeanField_ELBO.guide_site_step, trace_mem in Hstep.
      destruct (decide (site_kind s = sample)) as [Hk|Hk];
        destruct (decide (n ∈ model_trace.*1)) as [Hn|Hn];
        rewrite ?(bool_decide_eq_true_2 _ Hk), ?(bool_decide_eq_false_2 _ Hk),
          ?(bool_decide_eq_true_2 _ Hn), ?(bool_decide_eq_false_2 _ Hn) in Hstep;
        cbn in Hstep; try done.
      destruct (site_is_auxiliary s) eqn:Ha, (site_is_observed s) eqn:Ho;
        cbn in Hstep; try done.
      injection Hstep as <-. by exists n, s.
    + intros [= <-].
      apply foldM_raise_inv in Hm as (acc & [n s] & Hin & Hstep).
      unfold TraceMeanField_ELBO.model_site_step in Hstep.
      case_bool_decide as Hk; [|done].
      destruct (site_is_observed s) eqn:Ho; [done|].
      destruct (trace_item guide_trace n) as [gs|e] eqn:Hitem; cbn in Hstep.
      * right. left. exists n, s, gs.
        unfold TraceMeanField_ELBO.latent_contribution in Hstep.
        destruct (kl_divergence (site_fn gs) (site_fn s)) as [kl|e] eqn:Hkl;
          cbn in Hstep; [done|].
        destruct e; cbn in Hstep; try done; injection Hstep as <-;
          split_and!; done.
      * injection Hstep as <-. apply trace_item_raise in Hitem as [-> Hnot].
        left. by exists n, s.
Qed.

Lemma mean_field_sites_errors_witness :
  TraceMeanField_ELBO.elbo_sites_of_traces
    [("z", Example.model_z 1)] [("w", Example.guide_z 1)]
  = Raise (KeyError "z").
Proof.
  destruct (TraceMeanField_ELBO.elbo_sites_of_traces
              [("z", Example.model_z 1)] [("w", Example.guide_z 1)])
    as [d|e] eqn:Hrun.
  { vm_compute in Hrun. discriminate Hrun. }
  destruct (proj2 (mean_field_sites_errors _ _) e Hrun)
    as [(n & s & Hin & _ & _ & _ & ->)
       |[(n & s & gs & Hin & _ & _ & Hitem & _)
        |(n & s & Hin & _ & _ & Haux & _)]].
  - by apply list_elem_of_singleton in Hin as [= -> ->].
  - apply list_elem_of_singleton in Hin as [= -> ->]. vm_compute in Hitem.
    discriminate Hitem.
  - apply list_elem_of_singleton in Hin as [= -> ->]. vm_compute in Hrun.
    by injection Hrun as <-.
Defined.

(** ** [TraceGraph_ELBO]: the nodes of the downstream costs *)

Lemma foldM_ok_inv {A B : Type} (f : A -> B -> result A) (a r : A) (l : list B) :
  foldM f a l = Ok r -> forall b, b ∈ l -> exists a' a'', f a' b = Ok a''.
Proof.
  revert a. induction l as [|b l IH]; intros a; cbn.
  - intros _ b Hb. by apply elem_of_nil in Hb.
  - destruct (f a b) as [a'|e] eqn:Hfa; cbn; [|done].
    intros Hfold b' [->|Hin]%elem_of_cons; [by exists a, a'|]. by apply (IH a').
Qed.

Section graph_costs.
Context `{Handlers}.
Import TraceGraph_ELBO.

Lemma costs_set_keys (d : costs) (name : string) (v : MultiFrameTensor.t) (n : string) :
  n ∈ (costs_set d name v).*1 <-> n = name \/ n ∈ d.*1.
Proof.
  induction d as [|[k v'] d IH]; cbn.
  - rewrite list_elem_of_singleton. set_solver.
  - case_bool_decide as Hk; rewrite !fmap_cons, !elem_of_cons; cbn [fst].
    + subst k. tauto.
    + rewrite IH. tauto.
Qed.

Lemma costs_add_keys (stack : list frame) (value : tensor) (d d' : costs)
    (name n : string) :
  costs_add stack value d name = Ok d' -> n ∈ d'.*1 <-> n = name \/ n ∈ d.*1.
Proof.
  unfold costs_add.
  destruct (MultiFrameTensor.add _ _) as [mft|e]; cbn; [|done].
  intros [= <-]. apply costs_set_keys.
Qed.

Lemma costs_fold_keys (stack : list frame) (value : tensor) (d d' : costs)
    (names : list string) (n : string) :
  foldM (costs_add stack value) d names = Ok d' ->
  n ∈ d'.*1 <-> n ∈ names \/ n ∈ d.*1.
Proof.
  revert d. induction names as [|name names IH]; intros d; cbn [foldM].
  - intros [= <-]. set_solver.
  - destruct (costs_add stack value d name) as [d1|e] eqn:Hadd;
      cbn [mbind result_bind]; [|done].
    intros Hfold. rewrite (IH d1 Hfold), (costs_add_keys _ _ _ _ _ _ Hadd).
    rewrite elem_of_cons. tauto.
Qed.

(** The nodes of the costs after a loop over the sites of a trace, for the
    loops of the model and of the guide alike. *)
Lemma step_keys (neg : bool) (deps : gmap string (gset string))
    (tr : trace) (elbo elbo' : Z) (c c' : costs) :
  foldM (if neg then guide_step deps else model_step deps) (elbo, c) tr
    = Ok (elbo', c') ->
  (forall name s, (name, s) ∈ tr -> site_kind s = sample -> is_Some (deps !! name))
  /\ (forall n,
        n ∈ c'.*1 <->
        n ∈ c.*1
        \/ exists name s up, (name, s) ∈ tr /\ site_kind s = sample
                             /\ deps !! name = Some up /\ n ∈ up).
Proof.
  revert elbo c. induction tr as [|[name s] tr IH]; intros elbo c; cbn [foldM].
  - intros [= <- <-]. split.
    + intros name s Hin. by apply elem_of_nil in Hin.
    + intros n. split; [by left|]. intros [?|(? & ? & ? & Hin & _)]; [done|].
      by apply elem_of_nil in Hin.
  - intros Hfold.
    assert (exists elbo1 c1,
              foldM (if neg then guide_step deps else model_step deps) (elbo1, c1) tr
                = Ok (elbo', c')
              /\ if bool_decide (site_kind s = sample)
                 then exists up, deps !! name = Some up
                                 /\ forall n, n ∈ c1.*1 <-> n ∈ up \/ n ∈ c.*1
                 else c1 = c) as (elbo1 & c1 & Hrest & Hhead).
    { destruct neg; cbn [guide_step model_step mbind result_bind] in Hfold.
      - unfold guide_step in Hfold at 1. case_bool_decide as Hk.
        + unfold deps_item in Hfold.
          destruct (deps !! name) as [up|] eqn:Hup; cbn in Hfold; [|done].
          destruct (foldM _ c (elements up)) as [c1|e] eqn:Hc1; cbn in Hfold; [|done].
          eexists _, c1. split; [exact Hfold|]. exists up. split; [done|].
          intros n. rewrite (costs_fold_keys _ _ _ _ _ n Hc1), elem_of_elements. done.
        + eexists _, c. split; [exact Hfold|done].
      - unfold model_step in Hfold at 1. case_bool_decide as Hk.
        + unfold deps_item in Hfold.
          destruct (deps !! name) as [up|] eqn:Hup; cbn in Hfold; [|done].
          destruct (foldM _ c (elements up)) as [c1|e] eqn:Hc1; cbn in Hfold; [|done].
          eexists _, c1. split; [exact Hfold|]. exists up. split; [done|].
          intros n. rewrite (costs_fold_keys _ _ _ _ _ n Hc1), elem_of_elements. done.
        + eexists _, c. split; [exact Hfold|done]. }
    destruct (IH elbo1 c1 Hrest) as [Hdeps Hkeys]. split.
    + intros name' s' [[= -> ->]|Hin]%elem_of_cons Hk'; [|by apply (Hdeps name' s')].
      rewrite bool_decide_eq_true_2 in Hhead by done.
      destruct Hhead as (up & -> & _). by eexists.
    + intros n. rewrite Hkeys. case_bool_decide as Hk.
      * destruct Hhead as (up & Hup & Hc1). rewrite Hc1. split.
        -- intros [[Hn|Hn]|(name' & s' & up' & Hin & ? & ? & ?)].
           ++ right. exists name, s, up. split; [by left|done].
           ++ by left.
           ++ right. exists name', s', up'. split; [by right|done].
        -- intros [Hn|(name' & s' & up' & [[= -> ->]|Hin]%elem_of_cons & ? & Hup' & ?)].
           ++ left. by right.
           ++ left. left. congruence.
           ++ right. by exists name', s', up'.
      * subst c1. split.
        -- intros [Hn|(name' & s' & up' & Hin & ? & ? & ?)]; [by left|].
           right. exists name', s', up'. split; [by right|done].
        -- intros [Hn|(name' & s' & up' & [[= -> ->]|Hin]%elem_of_cons & ? & Hup' & ?)];
             [by left|done|].
           right. by exists name', s', up'.
Qed.

End graph_costs.

Lemma trace_item_elem `{Distributions} (tr : trace) (name : string) (s : site) :
  trace_item tr name = Ok s -> (name, s) ∈ tr.
Proof.
  unfold trace_item. destruct (trace_get tr name) as [s'|] eqn:Hget; [|done].
  intros [= <-]. induction tr as [|[k s0] tr IH]; cbn in Hget; [done|].
  case_bool_decide as Hk.
  - injection Hget as <-. subst k. by left.
  - right. by apply IH.
Qed.

(** X14: a particle of [TraceGraph_ELBO] returns only if every [sample] site
    of the model has an entry in [model_deps] and every [sample] site of the
    guide one in [guide_deps], and every variable that such an entry names
    is a site of the guide trace: a missing entry or a variable that the
    guide does not have makes the particle raise ([KeyError]) instead. *)
Theorem trace_graph_returns_only_if `{Handlers} (model_trace guide_trace : trace)
    (model_deps guide_deps : gmap string (gset string)) (elbo : Z) :
  TraceGraph_ELBO.elbo_of_traces model_trace guide_trace model_deps guide_deps
    = Ok elbo ->
  (forall name s, (name, s) ∈ model_trace -> site_kind s = sample ->
     exists up, model_deps !! name = Some up
                /\ forall node, node ∈ up -> node ∈ guide_trace.*1)
  /\ (forall name s, (name, s) ∈ guide_trace -> site_kind s = sample ->
        exists up, guide_deps !! name = Some up
                   /\ forall node, node ∈ up -> node ∈ guide_trace.*1).
Proof.
  unfold TraceGraph_ELBO.elbo_of_traces. intros Hrun.
  destruct (foldM (TraceGraph_ELBO.model_step model_deps) _ model_trace)
    as [[e1 c1]|e] eqn:Hm; cbn [mbind result_bind] in Hrun; [|discriminate].
  destruct (foldM (TraceGraph_ELBO.guide_step guide_deps) _ guide_trace)
    as [[e2 c2]|e] eqn:Hg; cbn [mbind result_bind] in Hrun; [|discriminate].
  destruct (step_keys false model_deps model_trace _ _ _ _ Hm) as [Hmdeps Hmkeys].
  destruct (step_keys true guide_deps guide_trace _ _ _ _ Hg) as [Hgdeps Hgkeys].
  assert (forall node, node ∈ c2.*1 -> node ∈ guide_trace.*1) as Hnodes.
  { intros node ([n cost] & -> & Hin)%list_elem_of_fmap.
    destruct (foldM_ok_inv _ _ _ _ Hrun (n, cost) Hin) as (a' & a'' & Hstep).
    unfold TraceGraph_ELBO.surrogate_step, TraceGraph_ELBO.surrogate_of in Hstep.
    destruct (trace_item guide_trace n) as [gs|e] eqn:Hitem; [|done].
    apply trace_item_elem in Hitem. apply list_elem_of_fmap. by exists (n, gs). }
  split.
  - intros name s Hin Hk. destruct (Hmdeps name s Hin Hk) as [up Hup].
    exists up. split; [done|]. intros node Hnode. apply Hnodes, Hgkeys. left.
    apply Hmkeys. right. by exists name, s, up.
  - intros name s Hin Hk. destruct (Hgdeps name s Hin Hk) as [up Hup].
    exists up. split; [done|]. intros node Hnode. apply Hnodes, Hgkeys. right.
    by exists name, s, up.
Qed.

Lemma trace_graph_returns_only_if_witness :
  exists up,
    Example.run_deps (Example.model 1%nat) !! "x" = Some up
    /\ forall node, node ∈ up -> node ∈ (Example.run_trace (Example.guide 2%nat)).*1.
Proof.
  assert (TraceGraph_ELBO.elbo_of_traces
            (Example.run_trace (Example.model 1%nat))
            (Example.run_trace (Example.guide 2%nat))
            (Example.run_deps (Example.model 1%nat))
            (Example.run_deps (Example.guide 2%nat)) = Ok (-7)) as Hrun.
  { vm_compute. reflexivity. }
  apply (proj1 (trace_graph_returns_only_if _ _ _ _ _ Hrun) "x" Example.model_x).
  - right. by left.
  - reflexivity.
Defined.

(** ** The guessed plate nesting *)

Section plate_nesting.
Import PlateNesting.

Lemma foldl_max_spec (n : nat) (l : list nat) :
  (n <= foldl Nat.max n l)%nat
  /\ (forall x, x ∈ l -> x <= foldl Nat.max n l)%nat
  /\ foldl Nat.max n l ∈ n :: l.
Proof.
  revert n. induction l as [|y l IH]; intros n; cbn.
  - split_and!; [done| |by left]. intros x Hx. by apply elem_of_nil in Hx.
  - destruct (IH (n `max` y)%nat) as (H1 & H2 & H3). split_and!.
    + lia.
    + intros x [->|Hx]%elem_of_cons; [lia|by apply H2].
    + apply elem_of_cons in H3 as [H3|H3]; [|by do 2 right].
      rewrite H3. destruct (Nat.max_spec n y) as [[_ ->]|[_ ->]]; [right|]; by left.
Qed.

Lemma max_or_zero_spec (l : list nat) :
  (forall x, x ∈ l -> x <= max_or_zero l)%nat
  /\ (max_or_zero l = 0%nat \/ max_or_zero l ∈ l).
Proof.
  destruct l as [|n l]; cbn.
  - split; [|by left]. intros x Hx. by apply elem_of_nil in Hx.
  - destruct (foldl_max_spec n l) as (H1 & H2 & H3). split; [|by right].
    intros x [->|Hx]%elem_of_cons; [done|by apply H2].
Qed.

Lemma sample_log_probs_ndims `{Distributions} (tr : trace) (k : nat) :
  k ∈ (fun kv : string * tensor => length (shape kv.2)) <$> sample_log_probs tr
  <-> exists name s, (name, s) ∈ tr /\ site_kind s = sample
                     /\ ndim (site_log_prob s) = k.
Proof.
  unfold sample_log_probs. rewrite list_elem_of_fmap. split.
  - intros ([n t] & -> & ([name s] & [= -> ->] & Hin)%list_elem_of_fmap).
    apply list_elem_of_filter in Hin as [Hk Hin]. by exists name, s.
  - intros (name & s & Hin & Hk & <-). exists (name, site_log_prob s).
    split; [done|]. apply list_elem_of_fmap. exists (name, s). split; [done|].
    by apply list_elem_of_filter.
Qed.

End plate_nesting.

(** X15: the plate nesting that [guess_max_plate_nesting] returns is the
    largest rank of the log-density of a [sample] site of the two traces,
    and 0 when there is none.  So the first dimension that enumeration may
    use, [-max_plate_nesting - 1], lies to the left of every batch dimension
    of every [sample] site; it is [None] exactly when every such
    log-density has no axis. *)
Theorem guessed_nesting_clears_batch_dims `{Handlers} (model guide : program)
    (args : arguments) (param_map : gmap string tensor)
    (model_trace guide_trace : trace) (w : list string) :
  get_importance_trace model guide args param_map
    = (Ok (model_trace, guide_trace), w) ->
  exists n,
    PlateNesting.guess_max_plate_nesting model guide args param_map = (Ok n, w)
    /\ (forall name s,
          (name, s) ∈ model_trace ++ guide_trace -> site_kind s = sample ->
          (ndim (site_log_prob s) <= n)%nat)
    /\ (n = 0%nat
        \/ exists name s,
             (name, s) ∈ model_trace ++ guide_trace /\ site_kind s = sample
             /\ ndim (site_log_prob s) = n)
    /\ (forall d name s,
          PlateNesting.first_available_dim n = Some d ->
          (name, s) ∈ model_trace ++ guide_trace -> site_kind s = sample ->
          d < - Z.of_nat (ndim (site_log_prob s)))
    /\ (PlateNesting.first_available_dim n = None <->
        forall name s,
          (name, s) ∈ model_trace ++ guide_trace -> site_kind s = sample ->
          ndim (site_log_prob s) = 0%nat).
Proof.
  intros Htraces.
  unfold PlateNesting.guess_max_plate_nesting, PlateNesting.get_importance_log_probs.
  rewrite Htraces. cbn [fmap result_fmap].
  set (ndims := (fun kv : string * tensor => length (shape kv.2))
                  <$> (PlateNesting.sample_log_probs model_trace
                       ++ PlateNesting.sample_log_probs guide_trace)).
  exists (PlateNesting.max_or_zero ndims). split; [done|].
  assert (forall k, k ∈ ndims <->
                    exists name s, (name, s) ∈ model_trace ++ guide_trace
                                   /\ site_kind s = sample
                                   /\ ndim (site_log_prob s) = k) as Hndims.
  { intros k. unfold ndims. rewrite fmap_app, elem_of_app, !sample_log_probs_ndims.
    setoid_rewrite elem_of_app. naive_solver. }
  destruct (max_or_zero_spec ndims) as [Hle Hmax].
  assert (forall name s,
            (name, s) ∈ model_trace ++ guide_trace -> site_kind s = sample ->
            (ndim (site_log_prob s) <= PlateNesting.max_or_zero ndims)%nat) as Hbound.
  { intros name s Hin Hk. apply Hle, Hndims. by exists name, s. }
  split_and!.
  - done.
  - destruct Hmax as [?|Hin]; [by left|right]. by apply Hndims in Hin.
  - intros d name s Hd Hin Hk. unfold PlateNesting.first_available_dim in Hd.
    case_bool_decide; [|done]. injection Hd as <-.
    specialize (Hbound name s Hin Hk). lia.
  - unfold PlateNesting.first_available_dim. case_bool_decide as Hn; split; try done.
    + intros Hall. destruct Hmax as [?|Hin]; [done|].
      apply Hndims in Hin as (name & s & Hin & Hk & Hnd).
      destruct Hn. rewrite <- Hnd. by apply (Hall name s).
    + intros _ name s Hin Hk. specialize (Hbound name s Hin Hk). lia.
Qed.

Lemma guessed_nesting_clears_batch_dims_witness :
  exists n,
    PlateNesting.guess_max_plate_nesting Example.model Example.guide tt ∅ = (Ok n, [])
    /\ PlateNesting.first_available_dim n = Some (-2).
Proof.
  destruct (guessed_nesting_clears_batch_dims Example.model Example.guide tt ∅ _ _ []
              eq_refl) as (n & Hrun & _).
  exists n. split; [exact Hrun|]. vm_compute in Hrun. by injection Hrun as <-.
Defined.

(** ** The particle of [RenyiELBO]: plates *)

Section renyi_plates.
Context `{Distributions}.
Variable plate_size : site -> Z.
Import RenyiParticle.

Lemma elem_of_foldl_union (p : gset frame) (rest : list (gset frame)) (f : frame) :
  f ∈ foldl (∪) p rest <-> f ∈ p \/ exists q, q ∈ rest /\ f ∈ q.
Proof.
  revert p. induction rest as [|q rest IH]; intros p; cbn.
  - split; [by left|]. intros [?|(q & Hq & _)]; [done|]. by apply elem_of_nil in Hq.
  - rewrite IH, elem_of_union. split.
    + intros [[?|?]|(q' & ? & ?)]; [by left|right; exists q|right; exists q'];
        (split; [|done]); [by left|by right].
    + intros [?|(q' & [->|?]%elem_of_cons & ?)]; [by left; left|by left; right|].
      right. by exists q'.
Qed.

Lemma elem_of_foldl_intersection (p : gset frame) (rest : list (gset frame))
    (f : frame) :
  f ∈ foldl (∩) p rest <-> f ∈ p /\ forall q, q ∈ rest -> f ∈ q.
Proof.
  revert p. induction rest as [|q rest IH]; intros p; cbn.
  - split; [|by intros [? _]]. intros Hf. split; [done|].
    intros q Hq. by apply elem_of_nil in Hq.
  - rewrite IH, elem_of_intersection. split.
    + intros [[? ?] Hall]. split; [done|].
      intros q' [->|?]%elem_of_cons; [done|by apply Hall].
    + intros [? Hall]. split; [split; [done|apply Hall; by left]|].
      intros q' Hq'. apply Hall. by right.
Qed.

Lemma elem_of_site_plates (model_trace : trace) (q : gset frame) :
  q ∈ site_plates model_trace
  <-> exists name s, (name, s) ∈ model_trace /\ site_kind s = sample
                     /\ q = list_to_set (site_cond_indep_stack s).
Proof.
  unfold site_plates. rewrite list_elem_of_fmap. split.
  - intros ([name s] & -> & [Hk Hin]%list_elem_of_filter). by exists name, s.
  - intros (name & s & Hin & Hk & ->). exists (name, s). split; [done|].
    by apply list_elem_of_filter.
Qed.

(** A frame is in the union when it is in the stack of some [sample] site. *)
Lemma elem_of_all_plates (model_trace : trace) (plates : gset frame) (f : frame) :
  all_plates (site_plates model_trace) = Returns plates ->
  f ∈ plates <-> exists name s, (name, s) ∈ model_trace /\ site_kind s = sample
                                /\ f ∈ site_cond_indep_stack s.
Proof.
  unfold all_plates.
  destruct (site_plates model_trace) as [|p rest] eqn:Hsp; [done|].
  intros [= <-]. rewrite elem_of_foldl_union.
  assert (forall q, q ∈ p :: rest <-> q ∈ site_plates model_trace) as Hq
    by (intros q; by rewrite Hsp).
  split.
  - intros Hf.
    assert (exists q, q ∈ p :: rest /\ f ∈ q) as (q & Hin & Hfq).
    { destruct Hf as [?|(q & ? & ?)]; [exists p|exists q]; split; try done;
        [by left|by right]. }
    apply Hq, elem_of_site_plates in Hin as (name & s & Hin & Hk & ->).
    exists name, s. by rewrite elem_of_list_to_set in Hfq.
  - intros (name & s & Hin & Hk & Hf).
    assert (list_to_set (site_cond_indep_stack s) ∈ p :: rest) as Hmem.
    { apply Hq, elem_of_site_plates. by exists name, s. }
    apply elem_of_cons in Hmem as [<-|Hmem].
    + left. by apply elem_of_list_to_set.
    + right. eexists. split; [exact Hmem|]. by apply elem_of_list_to_set.
Qed.

(** A frame is common when it is in the stack of every [sample] site, and
    there is one. *)
Lemma elem_of_indep_plates (model_trace : trace) (f : frame) :
  f ∈ indep_plates (site_plates model_trace)
  <-> (exists name s, (name, s) ∈ model_trace /\ site_kind s = sample)
      /\ forall name s, (name, s) ∈ model_trace -> site_kind s = sample ->
                        f ∈ site_cond_indep_stack s.
Proof.
  unfold indep_plates.
  destruct (site_plates model_trace) as [|p rest] eqn:Hsp.
  - split; [set_solver|]. intros [(name & s & Hin & Hk) _].
    assert (list_to_set (site_cond_indep_stack s) ∈ site_plates model_trace) as Hmem.
    { apply elem_of_site_plates. by exists name, s. }
    rewrite Hsp in Hmem. by apply elem_of_nil in Hmem.
  - assert (forall q, q ∈ p :: rest <-> q ∈ site_plates model_trace) as Hq
      by (intros q; by rewrite Hsp).
    rewrite elem_of_foldl_intersection. split.
    + intros [Hp Hrest].
      assert (forall q, q ∈ p :: rest -> f ∈ q) as Hall.
      { intros q [->|?]%elem_of_cons; [done|by apply Hrest]. }
      split.
      * assert (p ∈ p :: rest) as Hmem by (by left).
        apply Hq, elem_of_site_plates in Hmem as (name & s & ? & ? & _).
        by exists name, s.
      * intros name s Hin Hk.
        apply (elem_of_list_to_set (C := gset frame)).
        apply Hall, Hq, elem_of_site_plates. by exists name, s.
    + intros [_ Hall].
      assert (forall q, q ∈ p :: rest -> f ∈ q) as Hall'.
      { intros q (name & s & Hin & Hk & ->)%Hq%elem_of_site_plates.
        apply elem_of_list_to_set. by apply (Hall name s). }
      split; [apply Hall'; by left|]. intros q Hq'. apply Hall'. by right.
Qed.

End renyi_plates.

Section renyi_checks.
Context `{Distributions}.
Variable plate_size : site -> Z.
Import RenyiParticle.

Lemma full_size_raise (model_trace : trace) (f : frame) (e : exn) :
  full_size plate_size model_trace f = Raise e -> e = KeyError (frame_name f).
Proof.
  unfold full_size.
  destruct (trace_item model_trace (frame_name f)) as [s|e'] eqn:Hitem; cbn; [done|].
  intros [= <-]. by apply trace_item_raise in Hitem as [-> _].
Qed.

Lemma check_plates_raise (model_trace : trace) (indep : gset frame)
    (frames : list frame) :
  (forall f, f ∈ frames -> is_ok (full_size plate_size model_trace f)) ->
  (exists f size, f ∈ frames /\ (f ∉ indep)
                  /\ full_size plate_size model_trace f = Ok size
                  /\ size > Z.of_nat (frame_size f)) ->
  foldM (check_plate plate_size model_trace indep) tt frames = Raise subsampling_error.
Proof.
  induction frames as [|f0 frames IH]; intros Hok (f & size & Hin & Hnot & Hsize & Hgt).
  - by apply elem_of_nil in Hin.
  - cbn [foldM].
    pose proof (Hok f0 (list_elem_of_here _ _)) as Hok0.
    destruct (check_plate plate_size model_trace indep () f0) as [[]|e] eqn:Hstep;
      unfold check_plate in Hstep; cbn [mbind result_bind].
    + apply IH; [intros f' Hf'; apply Hok; by right|].
      apply elem_of_cons in Hin as [->|Hin]; [|by exists f, size].
      rewrite bool_decide_eq_true_2, Hsize in Hstep by done. cbn in Hstep.
      by rewrite bool_decide_eq_true_2 in Hstep.
    + case_bool_decide as Hf0; [|done].
      destruct (full_size plate_size model_trace f0) as [size0|e0]; [|done].
      cbn in Hstep. case_bool_decide; [|done]. by injection Hstep as <-.
Qed.

Lemma check_plates_raise_inv (model_trace : trace) (indep : gset frame)
    (frames : list frame) :
  foldM (check_plate plate_size model_trace indep) tt frames = Raise subsampling_error ->
  exists f size, f ∈ frames /\ (f ∉ indep)
                 /\ full_size plate_size model_trace f = Ok size
                 /\ size > Z.of_nat (frame_size f).
Proof.
  intros (a & f & Hin & Hstep)%foldM_raise_inv. unfold check_plate in Hstep.
  case_bool_decide as Hf; [|done].
  destruct (full_size plate_size model_trace f) as [size|e] eqn:Hsize; cbn in Hstep.
  - case_bool_decide; [|done]. by exists f, size.
  - injection Hstep as ->. by apply full_size_raise in Hsize.
Qed.

(** The reduction of the log-densities does not raise the error of the
    plates. *)
Lemma log_density_raise (dims : gset Z) (tr : trace) (e : exn) :
  log_density dims tr = Raise e -> e ≠ subsampling_error.
Proof.
  unfold log_density. intros (acc & [name s] & _ & Hstep)%foldM_raise_inv.
  cbn in Hstep. case_bool_decide; [done|].
  destruct (reduce_log_prob dims (site_log_prob s)) as [lp|e'] eqn:Hred;
    cbn in Hstep.
  - unfold tensor_add, tensor_zip in Hstep.
    destruct (broadcast_shapes _ _); [done|]. by injection Hstep as <-.
  - injection Hstep as ->. unfold reduce_log_prob in Hred.
    destruct (foldM _ _ _) as [[lp axes]|e'] eqn:Hfold; cbn in Hred.
    + unfold squeeze in Hred. destruct (forallb _ _); [done|]. by injection Hred as <-.
    + injection Hred as ->.
      apply foldM_raise_inv in Hfold as ([lp axes] & dim & _ & Hdim).
      unfold reduce_dim in Hdim. case_bool_decide; [done|].
      unfold tensor_sum_keepdims in Hdim.
      destruct (py_index _ _); cbn in Hdim; [done|]. by injection Hdim as <-.
Qed.

(** What the loop of the scale can raise: a missing plate site, or the
    division by an empty subsample. *)
Lemma scale_raise (model_trace : trace) (frames : list frame) (scale : Q)
    (e : py_exn) :
  fold_outcome (scale_step plate_size model_trace) scale frames = Raises e ->
  e = ZeroDivisionError \/ exists k, e = Exn (KeyError k).
Proof.
  revert scale. induction frames as [|f frames IH]; intros scale;
    cbn [fold_outcome]; [done|].
  destruct (scale_step plate_size model_trace scale f) as [scale'|e'] eqn:Hstep;
    cbn [mbind outcome_bind]; [apply IH|].
  intros [= <-]. unfold scale_step in Hstep.
  destruct (full_size plate_size model_trace f) as [size|e0] eqn:Hsize;
    cbn [of_result mbind outcome_bind] in Hstep.
  - repeat case_bool_decide; try done. injection Hstep as <-. by left.
  - injection Hstep as <-. apply full_size_raise in Hsize as ->. right. by eexists.
Qed.

End renyi_checks.

(** X16: the plates of a particle of [RenyiELBO].  A model trace without
    [sample] site makes the particle raise [TypeError] (the union of no set).
    Otherwise, when the plate sites of the frames are in the trace, the
    particle raises the [ValueError] on subsampling exactly when a frame
    that is in the stack of one [sample] site of the model and not of
    another has a plate larger than its subsample. *)
Theorem renyi_plate_errors `{Distributions} (plate_size : site -> Z)
    (model_trace guide_trace : trace) :
  ((forall name s, (name, s) ∈ model_trace -> site_kind s ≠ sample) ->
   exists msg,
     RenyiParticle.elbo_of_traces plate_size model_trace guide_trace
     = RenyiParticle.Raises (RenyiParticle.TypeError msg))
  /\ ((forall name s f,
         (name, s) ∈ model_trace -> site_kind s = sample ->
         f ∈ site_cond_indep_stack s ->
         is_ok (RenyiParticle.full_size plate_size model_trace f)) ->
      (exists f size name1 s1 name2 s2,
         (name1, s1) ∈ model_trace /\ site_kind s1 = sample
         /\ f ∈ site_cond_indep_stack s1
         /\ (name2, s2) ∈ model_trace /\ site_kind s2 = sample
         /\ (f ∉ site_cond_indep_stack s2)
         /\ RenyiParticle.full_size plate_size model_trace f = Ok size
         /\ size > Z.of_nat (frame_size f))
      <-> RenyiParticle.elbo_of_traces plate_size model_trace guide_trace
          = RenyiParticle.Raises (RenyiParticle.Exn RenyiParticle.subsampling_error)).
Proof.
  unfold RenyiParticle.elbo_of_traces. split.
  - intros Hnone.
    assert (RenyiParticle.site_plates model_trace = []) as ->.
    { unfold RenyiParticle.site_plates.
      destruct (filter _ model_trace) as [|[name s] l] eqn:Hf; [done|].
      assert ((name, s) ∈ filter (fun kv : string * site => site_kind kv.2 = sample)
                                 model_trace) as Hin by (rewrite Hf; by left).
      apply list_elem_of_filter in Hin as [Hk Hin]. by apply Hnone in Hin. }
    by eexists.
  - intros Hok.
    destruct (RenyiParticle.all_plates (RenyiParticle.site_plates model_trace))
      as [plates|e] eqn:Hplates.
    2: { unfold RenyiParticle.all_plates in Hplates.
         destruct (RenyiParticle.site_plates model_trace) as [|p rest] eqn:Hsp; [|done].
         split; [|by injection Hplates as <-].
         intros (f & size & name1 & s1 & _ & _ & Hin & Hk & _).
         assert (list_to_set (site_cond_indep_stack s1)
                   ∈ RenyiParticle.site_plates model_trace) as Hmem.
         { apply elem_of_site_plates. by exists name1, s1. }
         rewrite Hsp in Hmem. by apply elem_of_nil in Hmem. }
    cbn [mbind RenyiParticle.outcome_bind].
    pose proof (elem_of_all_plates model_trace plates) as Hall.
    pose proof (elem_of_indep_plates model_trace) as Hindep.
    assert ((exists f size name1 s1 name2 s2,
               (name1, s1) ∈ model_trace /\ site_kind s1 = sample
               /\ f ∈ site_cond_indep_stack s1
               /\ (name2, s2) ∈ model_trace /\ site_kind s2 = sample
               /\ (f ∉ site_cond_indep_stack s2)
               /\ RenyiParticle.full_size plate_size model_trace f = Ok size
               /\ size > Z.of_nat (frame_size f))
            <-> exists f size,
                  f ∈ elements plates
                  /\ (f ∉ RenyiParticle.indep_plates
                            (RenyiParticle.site_plates model_trace))
                  /\ RenyiParticle.full_size plate_size model_trace f = Ok size
                  /\ size > Z.of_nat (frame_size f)) as ->.
    { split.
      - intros (f & size & name1 & s1 & name2 & s2 & Hin1 & Hk1 & Hf1 & Hin2 & Hk2
                & Hf2 & Hsize & Hgt).
        exists f, size. split_and!; try done.
        + apply elem_of_elements, Hall; [done|]. by exists name1, s1.
        + intros [_ Hcommon]%Hindep. by apply Hf2, (Hcommon name2 s2).
      - intros (f & size & Hin & Hnot & Hsize & Hgt).
        apply elem_of_elements, Hall in Hin as (name1 & s1 & Hin1 & Hk1 & Hf1); [|done].
        destruct (decide (Exists (fun kv : string * site =>
                                    site_kind kv.2 = sample
                                    /\ f ∉ site_cond_indep_stack kv.2) model_trace))
          as [Hex|Hnex].
        + apply Exists_exists in Hex as ([name2 s2] & Hin2 & Hk2 & Hf2).
          by exists f, size, name1, s1, name2, s2.
        + destruct Hnot. apply Hindep. split; [by exists name1, s1|].
          intros name s Hin Hk.
          destruct (decide (f ∈ site_cond_indep_stack s)) as [|Hf]; [done|].
          destruct Hnex. apply Exists_exists. by exists (name, s). }
    split.
    + intros Hbad.
      rewrite (check_plates_raise plate_size model_trace _ (elements plates)); [done| |done].
      intros f (name & s & Hin & Hk & Hf)%elem_of_elements%Hall; [|done].
      by apply (Hok name s f).
    + destruct (foldM (RenyiParticle.check_plate plate_size model_trace _) ()
                  (elements plates)) as [[]|e] eqn:Hcheck;
        cbn [RenyiParticle.of_result mbind RenyiParticle.outcome_bind].
      * intros Hrun. exfalso.
        destruct (RenyiParticle.fold_outcome _ _ _) as [scale|e] eqn:Hscale;
          cbn [mbind RenyiParticle.outcome_bind] in Hrun.
        2: { injection Hrun as ->.
             by apply scale_raise in Hscale as [?|[k ?]]. }
        destruct (RenyiParticle.log_density _ guide_trace) as [g|e] eqn:Hg;
          cbn [RenyiParticle.of_result mbind RenyiParticle.outcome_bind] in Hrun.
        2: { injection Hrun as ->. by apply log_density_raise in Hg. }
        destruct (RenyiParticle.log_density _ model_trace) as [m|e] eqn:Hm;
          cbn [RenyiParticle.of_result mbind RenyiParticle.outcome_bind] in Hrun.
        2: { injection Hrun as ->. by apply log_density_raise in Hm. }
        unfold tensor_sub, tensor_zip in Hrun.
        destruct (broadcast_shapes _ _); cbn in Hrun; [done|].
        injection Hrun as Hrun. discriminate Hrun.
      * intros [= ->]. by apply check_plates_raise_inv.
Qed.

Lemma renyi_plate_errors_witness :
  RenyiParticle.elbo_of_traces (RenyiExample.plate_size 6)
    RenyiExample.model_across_plate RenyiExample.guide_in_plate
  = RenyiParticle.Raises (RenyiParticle.Exn RenyiParticle.subsampling_error).
Proof.
  apply (proj2 (renyi_plate_errors (RenyiExample.plate_size 6)
                  RenyiExample.model_across_plate RenyiExample.guide_in_plate)).
  - intros name s f Hin Hk Hf. apply list_elem_of_In in Hin. cbn in Hin.
    destruct Hin as [Heq|[Heq|[Heq|[]]]]; inversion Heq; subst; try done.
    + apply list_elem_of_singleton in Hf as ->. done.
    + by apply elem_of_nil in Hf.
  - exists Example.data_plate, 6, "z", (Example.model_z 1), "y", RenyiExample.model_y.
    split_and!; try done.
    + right. by left.
    + by left.
    + do 2 right. by left.
    + apply not_elem_of_nil.
Defined.

(** ** The particle of [RenyiELBO]: the log-densities *)

Lemma foldM_app {A B : Type} (f : A -> B -> result A) (a : A) (l1 l2 : list B) :
  foldM f a (l1 ++ l2) = (a' ← foldM f a l1; foldM f a' l2).
Proof.
  revert a. induction l1 as [|b l1 IH]; intros a; cbn; [done|].
  destruct (f a b) as [a'|e]; cbn; [apply IH|done].
Qed.

Section renyi_reduce.
Import RenyiParticle.

Lemma reduce_dim_loop (dims : gset Z) (lp : tensor) (k : nat) :
  well_shaped lp -> (k <= ndim lp)%nat ->
  exists t axes,
    foldM (reduce_dim dims) (lp, []) (seq 0 k) = Ok (t, axes)
    /\ ndim t = ndim lp /\ well_shaped t /\ jnp_sum t = jnp_sum lp
    /\ axes = filter (fun i => Z.of_nat i - Z.of_nat (ndim lp) ∉ dims) (seq 0 k)
    /\ (forall i, i ∈ axes -> shape t !! i = Some 1%nat)
    /\ (forall i, i ∉ axes -> shape t !! i = shape lp !! i).
Proof.
  intros Hws. induction k as [|k IH]; intros Hk.
  - exists lp, []. split_and!; try done. intros i Hi. by apply elem_of_nil in Hi.
  - destruct IH as (t & axes & Hfold & Hnd & Hwst & Htot & Haxes & Hone & Hsame); [lia|].
    rewrite seq_S, foldM_app, Hfold. cbn [mbind result_bind foldM Nat.add].
    unfold reduce_dim. rewrite Hnd.
    rewrite filter_app, filter_cons, filter_nil, <- Haxes.
    destruct (decide (Z.of_nat k - Z.of_nat (ndim lp) ∈ dims)) as [Hin|Hout].
    + rewrite bool_decide_eq_true_2 by done. cbn [mbind result_bind].
      rewrite decide_False by tauto. rewrite app_nil_r.
      exists t, axes. split_and!; done.
    + rewrite bool_decide_eq_false_2 by done.
      rewrite decide_True by done.
      unfold tensor_sum_keepdims, py_index.
      rewrite bool_decide_eq_true_2 by lia. rewrite Nat2Z.id.
      cbn [mbind result_bind].
      destruct (sum_axis_total t k Hwst) as [Hws' Htot']; [lia|].
      exists (sum_axis t k), (axes ++ [k]).
      assert (k ∉ axes) as Hk'.
      { rewrite Haxes. intros [_ Hseq]%list_elem_of_filter.
        apply elem_of_seq in Hseq. lia. }
      split_and!; try done.
      * unfold ndim, sum_axis in *. cbn [shape]. by rewrite length_insert.
      * lia.
      * intros i [Hi| ->%list_elem_of_singleton]%elem_of_app; unfold sum_axis; cbn [shape].
        -- rewrite list_lookup_insert_ne; [by apply Hone|]. by intros <-.
        -- apply list_lookup_insert_eq. unfold ndim in *. lia.
      * intros i Hi. apply not_elem_of_app in Hi as [Hi Hik].
        unfold sum_axis. cbn [shape].
        rewrite list_lookup_insert_ne; [by apply Hsame|].
        intros <-. apply Hik. by apply list_elem_of_singleton.
Qed.

End renyi_reduce.

Section renyi_reduce_more.
Import RenyiParticle.

Lemma imap_ext_lookup {A B C : Type} (f : nat -> A -> C) (g : nat -> B -> C)
    (l1 : list A) (l2 : list B) :
  length l1 = length l2 ->
  (forall i x y, l1 !! i = Some x -> l2 !! i = Some y -> f i x = g i y) ->
  imap f l1 = imap g l2.
Proof.
  intros Hlen Hfg. apply list_eq. intros i. rewrite !list_lookup_imap.
  destruct (l1 !! i) as [x|] eqn:H1, (l2 !! i) as [y|] eqn:H2; cbn.
  - f_equal. by apply Hfg.
  - apply lookup_lt_Some in H1. apply lookup_ge_None in H2. lia.
  - apply lookup_lt_Some in H2. apply lookup_ge_None in H1. lia.
  - done.
Qed.

Lemma numel_squeeze (axes : list nat) (s : list nat) :
  (forall i n, i ∈ axes -> s !! i = Some n -> n = 1%nat) ->
  numel (omap id (imap (fun i n => if bool_decide (i ∈ axes) then None else Some n) s))
  = numel s.
Proof.
  induction s as [|n s IH] using rev_ind; intros Hone; [done|].
  rewrite imap_app, omap_app, !numel_app. cbn [imap omap]. rewrite Nat.add_0_r.
  rewrite IH.
  2: { intros i n' Hi Hs. apply (Hone i n' Hi). by apply lookup_app_l_Some. }
  case_bool_decide as Hin; cbn; [|done].
  rewrite (Hone (length s) n Hin); [done|].
  rewrite lookup_app_r, Nat.sub_diag by lia. done.
Qed.

Lemma reduce_log_prob_spec (dims : gset Z) (lp : tensor) :
  well_shaped lp ->
  exists r,
    reduce_log_prob dims lp = Ok r
    /\ shape r = common_axes dims (shape lp)
    /\ well_shaped r /\ jnp_sum r = jnp_sum lp.
Proof.
  intros Hws.
  destruct (reduce_dim_loop dims lp (ndim lp) Hws (le_n _))
    as (t & axes & Hfold & Hnd & Hwst & Htot & Haxes & Hone & Hsame).
  unfold reduce_log_prob. rewrite Hfold. cbn [mbind result_bind].
  unfold squeeze.
  assert (forallb (fun ax => bool_decide (shape t !! ax = Some 1%nat)) axes = true)
    as ->.
  { apply forallb_forall. intros ax Hax%list_elem_of_In.
    apply bool_decide_eq_true. by apply Hone. }
  eexists. split; [done|]. cbn [shape data].
  assert (omap id (imap (fun i n => if bool_decide (i ∈ axes) then None else Some n)
                        (shape t))
          = common_axes dims (shape lp)) as Hshape.
  { unfold common_axes. f_equal. apply imap_ext_lookup; [exact Hnd|].
    intros i x y Hx Hy.
    assert (i < ndim lp)%nat as Hi by (apply lookup_lt_Some in Hy; done).
    assert (i ∈ axes <-> Z.of_nat i - Z.of_nat (ndim lp) ∉ dims) as Hiff.
    { rewrite Haxes, list_elem_of_filter, elem_of_seq. split; [tauto|].
      intros ?. split; [done|lia]. }
    fold (ndim lp).
    destruct (decide (Z.of_nat i - Z.of_nat (ndim lp) ∈ dims)) as [Hin|Hout].
    - rewrite bool_decide_eq_false_2 by tauto.
      rewrite (bool_decide_eq_true_2 _ Hin).
      rewrite Hsame in Hx by tauto. congruence.
    - rewrite bool_decide_eq_true_2 by tauto.
      by rewrite (bool_decide_eq_false_2 _ Hout). }
  split; [done|]. split; [|done].
  unfold well_shaped in *. cbn [shape data]. rewrite Hwst.
  symmetry. apply numel_squeeze. intros i n Hi Hn.
  rewrite (Hone i Hi) in Hn. by injection Hn as <-.
Qed.

End renyi_reduce_more.

Lemma omap_imap_none (f : nat -> nat -> option nat) (s : list nat) :
  (forall i n, f i n = None) -> omap id (imap f s) = [].
Proof.
  intros Hf. induction s as [|a l IH] using rev_ind; [done|].
  rewrite imap_app, omap_app, IH. cbn. by rewrite Hf.
Qed.

Lemma omap_imap_some (f : nat -> nat -> option nat) (s : list nat) :
  (forall i n, f i n = Some n) -> omap id (imap f s) = s.
Proof.
  intros Hf. induction s as [|a l IH] using rev_ind; [done|].
  rewrite imap_app, omap_app, IH. cbn. by rewrite Hf.
Qed.

Lemma reduce_log_prob_scalar (log_prob : tensor) :
  well_shaped log_prob ->
  RenyiParticle.reduce_log_prob ∅ log_prob = Ok (scalar (jnp_sum log_prob)).
Proof.
  intros Hws.
  destruct (reduce_log_prob_spec ∅ log_prob Hws) as (r & -> & Hshape & Hwsr & Htot).
  f_equal. destruct r as [s d]. unfold well_shaped, jnp_sum, scalar in *.
  cbn [shape data] in *.
  assert (s = []) as ->.
  { rewrite Hshape. apply omap_imap_none. intros i n.
    rewrite bool_decide_eq_false_2; [done|]. apply not_elem_of_empty. }
  cbn in Hwsr. destruct d as [|x [|y d]]; try done.
  cbn in Htot. f_equal. f_equal. lia.
Qed.

(** X17: the reduction of the log-density of a site in a particle of
    [RenyiELBO] never raises on an array that holds as many entries as its
    shape says.  Of the axes it keeps those of the common plates, in their
    order; so without common plate it returns an array without axes, and
    when every axis is one of a common plate it returns the array as it
    is. *)
Theorem renyi_reduce_log_prob (indep_plate_dims : gset Z) (log_prob : tensor) :
  well_shaped log_prob ->
  (exists r,
     RenyiParticle.reduce_log_prob indep_plate_dims log_prob = Ok r
     /\ shape r = common_axes indep_plate_dims (shape log_prob)
     /\ well_shaped r)
  /\ (exists r,
        RenyiParticle.reduce_log_prob ∅ log_prob = Ok r /\ shape r = [])
  /\ ((forall i, (i < ndim log_prob)%nat ->
         Z.of_nat i - Z.of_nat (ndim log_prob) ∈ indep_plate_dims) ->
      RenyiParticle.reduce_log_prob indep_plate_dims log_prob = Ok log_prob).
Proof.
  intros Hws. split_and!.
  - destruct (reduce_log_prob_spec indep_plate_dims log_prob Hws)
      as (r & Hr & Hshape & Hwsr & _).
    by exists r.
  - exists (scalar (jnp_sum log_prob)). split; [|done].
    by apply reduce_log_prob_scalar.
  - intros Hall. unfold RenyiParticle.reduce_log_prob.
    rewrite foldM_unchanged.
    + cbn [mbind result_bind]. unfold RenyiParticle.squeeze. cbn [forallb].
      f_equal. destruct log_prob as [s d]. cbn [shape data]. f_equal.
      apply omap_imap_some. intros i n.
      rewrite bool_decide_eq_false_2; [done|]. apply not_elem_of_nil.
    + intros dim Hdim%elem_of_seq. unfold RenyiParticle.reduce_dim.
      rewrite bool_decide_eq_true_2; [done|]. apply Hall. lia.
Qed.

Lemma renyi_reduce_log_prob_witness :
  RenyiParticle.reduce_log_prob {[ -1 ]} (Tensor [2; 3]%nat [1; 2; 3; 4; 5; 6])
    = Ok (Tensor [3%nat] [5; 7; 9])
  /\ exists r,
       RenyiParticle.reduce_log_prob ∅ (Tensor [2; 3]%nat [1; 2; 3; 4; 5; 6]) = Ok r
       /\ shape r = [].
Proof.
  split; [vm_compute; reflexivity|].
  apply (renyi_reduce_log_prob {[ -1 ]} (Tensor [2; 3]%nat [1; 2; 3; 4; 5; 6])).
  reflexivity.
Defined.

Section renyi_scalar.
Context `{Distributions}.
Import RenyiParticle.

Lemma scalar_add (a b : Z) : tensor_add (scalar a) (scalar b) = Ok (scalar (a + b)).
Proof. reflexivity. Qed.

Lemma log_density_scalar (tr : trace) (a : Z) :
  (forall name s, (name, s) ∈ tr -> site_kind s = sample ->
     well_shaped (site_log_prob s)) ->
  foldM (fun acc (kv : string * site) =>
           if bool_decide (site_kind kv.2 ≠ sample) then Ok acc
           else
             log_prob ← reduce_log_prob ∅ (site_log_prob kv.2);
             tensor_add acc log_prob)
        (scalar a) tr
  = Ok (scalar (a + sum_log_probs tr)).
Proof.
  revert a. induction tr as [|[name s] tr IH]; intros a Hws.
  - cbn. unfold sum_log_probs. cbn. by rewrite Z.add_0_r.
  - cbn [foldM snd]. unfold sum_log_probs. rewrite filter_cons. cbn [snd].
    destruct (decide (site_kind s = sample)) as [Hk|Hk].
    + rewrite bool_decide_eq_false_2 by tauto.
      rewrite reduce_log_prob_scalar by (apply (Hws name s); [by left|done]).
      cbn [mbind result_bind]. rewrite scalar_add. cbn [mbind result_bind].
      rewrite IH by (intros n' s' Hin; apply (Hws n' s'); by right).
      unfold sum_log_probs. rewrite fmap_cons. cbn. do 2 f_equal. lia.
    + rewrite bool_decide_eq_true_2 by done. cbn [mbind result_bind].
      rewrite IH by (intros n' s' Hin; apply (Hws n' s'); by right). done.
Qed.

End renyi_scalar.

Section renyi_scale.
Context `{Distributions}.
Variable plate_size : site -> Z.
Import RenyiParticle.

Lemma check_plates_pass (model_trace : trace) (indep : gset frame)
    (frames : list frame) :
  (forall f, f ∈ frames -> f ∉ indep ->
     exists size, full_size plate_size model_trace f = Ok size
                  /\ size <= Z.of_nat (frame_size f)) ->
  foldM (check_plate plate_size model_trace indep) tt frames = Ok tt.
Proof.
  intros Hok. apply foldM_unchanged. intros f Hf. unfold check_plate.
  case_bool_decide as Hnot; [|done].
  destruct (Hok f Hf Hnot) as (size & -> & Hle). cbn.
  by rewrite bool_decide_eq_false_2 by lia.
Qed.

Lemma scale_step_grows (model_trace : trace) (f : frame) (q q' : Q) :
  (1 <= q)%Q ->
  scale_step plate_size model_trace q f = Returns q' -> (q <= q')%Q.
Proof.
  intros Hq. unfold scale_step.
  destruct (full_size plate_size model_trace f) as [size|e];
    cbn [of_result mbind outcome_bind]; [|done].
  case_bool_decide as Hgt; [|intros [= <-]; apply Qle_refl].
  case_bool_decide as Hz; [done|]. intros [= <-].
  assert (0 < inject_Z (Z.of_nat (frame_size f)))%Q as Hpos.
  { change 0%Q with (inject_Z 0). rewrite <- Zlt_Qlt. lia. }
  apply Qle_shift_div_l; [done|].
  apply Qmult_le_l; [|rewrite <- Zle_Qle; lia].
  eapply Qlt_le_trans; [|exact Hq]. done.
Qed.

Lemma scale_fold_grows (model_trace : trace) (frames : list frame) (q q' : Q) :
  (1 <= q)%Q ->
  fold_outcome (scale_step plate_size model_trace) q frames = Returns q' ->
  (q <= q')%Q.
Proof.
  revert q. induction frames as [|f frames IH]; intros q Hq; cbn [fold_outcome].
  - intros [= <-]. apply Qle_refl.
  - destruct (scale_step plate_size model_trace q f) as [q1|e] eqn:Hstep;
      cbn [mbind outcome_bind]; [|done].
    apply scale_step_grows in Hstep; [|done]. intros Hrest.
    apply IH in Hrest; [|by eapply Qle_trans]. by eapply Qle_trans.
Qed.

Lemma scale_fold_one (model_trace : trace) (frames : list frame) (q : Q) :
  (forall f, f ∈ frames ->
     exists size, full_size plate_size model_trace f = Ok size
                  /\ size <= Z.of_nat (frame_size f)) ->
  fold_outcome (scale_step plate_size model_trace) q frames = Returns q.
Proof.
  induction frames as [|f frames IH]; intros Hok; cbn [fold_outcome]; [done|].
  unfold scale_step at 1.
  destruct (Hok f (list_elem_of_here _ _)) as (size & Hsize & Hle).
  assert (scale_step plate_size model_trace q f = Returns q) as Hstep.
  { unfold scale_step. rewrite Hsize. cbn [of_result mbind outcome_bind].
    by rewrite bool_decide_eq_false_2 by lia. }
  fold (scale_step plate_size model_trace q f). rewrite Hstep.
  cbn [mbind outcome_bind]. apply IH. intros f' Hf'. apply Hok. by right.
Qed.

End renyi_scale.

(** X18: when the model has a [sample] site, no frame is in the stack of
    every [sample] site of the model and no plate is subsampled, a particle
    of [RenyiELBO] does not raise: it returns an array without axes
    together with the scale 1. *)
Theorem renyi_without_common_plate `{Distributions} (plate_size : site -> Z)
    (model_trace guide_trace : trace) :
  (exists name s, (name, s) ∈ model_trace /\ site_kind s = sample) ->
  (forall f, exists name s,
     (name, s) ∈ model_trace /\ site_kind s = sample
     /\ f ∉ site_cond_indep_stack s) ->
  (forall name s f,
     (name, s) ∈ model_trace -> site_kind s = sample ->
     f ∈ site_cond_indep_stack s ->
     exists size, RenyiParticle.full_size plate_size model_trace f = Ok size
                  /\ size <= Z.of_nat (frame_size f)) ->
  (forall name s,
     (name, s) ∈ model_trace ++ guide_trace -> site_kind s = sample ->
     well_shaped (site_log_prob s)) ->
  exists elbo,
    RenyiParticle.elbo_of_traces plate_size model_trace guide_trace
    = RenyiParticle.Returns (elbo, 1%Q)
    /\ shape elbo = [].
Proof.
  intros (name0 & s0 & Hin0 & Hk0) Hnone Hsizes Hws.
  unfold RenyiParticle.elbo_of_traces.
  assert (RenyiParticle.indep_plates (RenyiParticle.site_plates model_trace) = ∅)
    as Hindep.
  { apply set_eq. intros f. split; [|by intros ?%elem_of_empty].
    intros [_ Hall]%elem_of_indep_plates.
    destruct (Hnone f) as (name & s & Hin & Hk & Hf). destruct Hf.
    by apply (Hall name s). }
  rewrite Hindep.
  destruct (RenyiParticle.all_plates (RenyiParticle.site_plates model_trace))
    as [plates|e] eqn:Hplates.
  2: { unfold RenyiParticle.all_plates in Hplates.
       destruct (RenyiParticle.site_plates model_trace) as [|p rest] eqn:Hsp; [|done].
       assert (list_to_set (site_cond_indep_stack s0)
                 ∈ RenyiParticle.site_plates model_trace) as Hmem.
       { apply elem_of_site_plates. by exists name0, s0. }
       rewrite Hsp in Hmem. by apply elem_of_nil in Hmem. }
  cbn [mbind RenyiParticle.outcome_bind].
  rewrite (check_plates_pass plate_size).
  2: { intros f (name & s & Hin & Hk & Hf)%elem_of_elements%(elem_of_all_plates model_trace plates);
         [|done].
       intros _. by apply (Hsizes name s f). }
  cbn [RenyiParticle.of_result mbind RenyiParticle.outcome_bind].
  rewrite elements_empty. cbn [RenyiParticle.fold_outcome mbind RenyiParticle.outcome_bind].
  rewrite set_map_empty. unfold RenyiParticle.log_density.
  rewrite !log_density_scalar.
  - cbn [RenyiParticle.of_result mbind RenyiParticle.outcome_bind].
    by eexists.
  - intros name s Hin. apply (Hws name s), elem_of_app. eauto.
  - intros name s Hin. apply (Hws name s), elem_of_app. eauto.
Qed.

Lemma renyi_without_common_plate_witness :
  exists elbo,
    RenyiParticle.elbo_of_traces (RenyiExample.plate_size 2)
      RenyiExample.model_across_plate RenyiExample.guide_in_plate
    = RenyiParticle.Returns (elbo, 1%Q)
    /\ shape elbo = [].
Proof.
  apply (renyi_without_common_plate (RenyiExample.plate_size 2)
           RenyiExample.model_across_plate RenyiExample.guide_in_plate).
  - exists "y", RenyiExample.model_y. split; [|done]. do 2 right. by left.
  - intros f. exists "y", RenyiExample.model_y.
    split_and!; [do 2 right; by left|done|apply not_elem_of_nil].
  - intros name s f Hin Hk Hf. apply list_elem_of_In in Hin. cbn in Hin.
    destruct Hin as [Heq|[Heq|[Heq|[]]]]; inversion Heq; subst; try done.
    + apply list_elem_of_singleton in Hf as ->. by exists 2.
    + by apply elem_of_nil in Hf.
  - intros name s Hin Hk. apply list_elem_of_In in Hin. cbn in Hin.
    destruct Hin as [Heq|[Heq|[Heq|[Heq|[Heq|[]]]]]]; inversion Heq; subst;
      try done.
Defined.

(** X19: the scale that a particle of [RenyiELBO] returns is at least 1, and
    it is 1 when no plate that is common to all the [sample] sites of the
    model is subsampled. *)
Theorem renyi_scale_at_least_one `{Distributions} (plate_size : site -> Z)
    (model_trace guide_trace : trace) (elbo : tensor) (indep_plate_scale : Q) :
  RenyiParticle.elbo_of_traces plate_size model_trace guide_trace
    = RenyiParticle.Returns (elbo, indep_plate_scale) ->
  (1 <= indep_plate_scale)%Q
  /\ ((forall f,
         (forall name s, (name, s) ∈ model_trace -> site_kind s = sample ->
                         f ∈ site_cond_indep_stack s) ->
         exists size, RenyiParticle.full_size plate_size model_trace f = Ok size
                      /\ size <= Z.of_nat (frame_size f)) ->
      indep_plate_scale = 1%Q).
Proof.
  unfold RenyiParticle.elbo_of_traces. intros Hrun.
  destruct (RenyiParticle.all_plates _) as [plates|e];
    cbn [mbind RenyiParticle.outcome_bind] in Hrun; [|done].
  destruct (foldM _ _ (elements plates)) as [[]|e];
    cbn [RenyiParticle.of_result mbind RenyiParticle.outcome_bind] in Hrun; [|done].
  destruct (RenyiParticle.fold_outcome _ _ _) as [scale|e] eqn:Hscale;
    cbn [mbind RenyiParticle.outcome_bind] in Hrun; [|done].
  destruct (RenyiParticle.log_density _ guide_trace) as [g|e];
    cbn [RenyiParticle.of_result mbind RenyiParticle.outcome_bind] in Hrun; [|done].
  destruct (RenyiParticle.log_density _ model_trace) as [m|e];
    cbn [RenyiParticle.of_result mbind RenyiParticle.outcome_bind] in Hrun; [|done].
  destruct (tensor_sub m g) as [d|e];
    cbn [RenyiParticle.of_result mbind RenyiParticle.outcome_bind] in Hrun; [|done].
  injection Hrun as <- <-. split.
  - by apply (scale_fold_grows plate_size) in Hscale.
  - intros Hfull. rewrite (scale_fold_one plate_size) in Hscale.
    + by injection Hscale as <-.
    + intros f [_ Hall]%elem_of_elements%elem_of_indep_plates. by apply Hfull.
Qed.

Lemma renyi_scale_at_least_one_witness :
  RenyiParticle.elbo_of_traces (RenyiExample.plate_size 6)
    RenyiExample.model_in_plate RenyiExample.guide_in_plate
  = RenyiParticle.Returns (Tensor [2%nat] [0; -7], (6 # 2)%Q)
  /\ (1 <= 6 # 2)%Q.
Proof.
  assert (RenyiParticle.elbo_of_traces (RenyiExample.plate_size 6)
            RenyiExample.model_in_plate RenyiExample.guide_in_plate
          = RenyiParticle.Returns (Tensor [2%nat] [0; -7], (6 # 2)%Q)) as Hrun.
  { vm_compute. reflexivity. }
  split; [exact Hrun|]. exact (proj1 (renyi_scale_at_least_one _ _ _ _ _ Hrun)).
Defined.

(** ** The enumerated variables *)

Section enum_trace_facts.
Context `{Distributions}.
Variable kl_analytic : site -> bool.
Context (model_trace guide_trace : trace)
        (model_deps guide_desc : gmap string (gset string)).
Import EnumTrace.

Local Abbreviation step :=
  (model_site_step kl_analytic model_trace guide_trace model_deps guide_desc).

Lemma enum_model_site_step_spec (sum_vars kl_names sum_vars' kl_names' : gset string)
    (name : string) (s : site) :
  step (sum_vars, kl_names) (name, s) = Ok (sum_vars', kl_names') ->
  (forall n, n ∈ sum_vars' <->
             n ∈ sum_vars
             \/ (n = name /\ site_kind s = sample /\ site_is_observed s = false
                 /\ name ∉ guide_trace.*1))
  /\ (forall n, n ∈ kl_names' ->
        n ∈ kl_names
        \/ (n = name /\ name ∈ guide_trace.*1
            /\ exists deps, model_deps !! name = Some deps
                            /\ deps ## EnumCosts.guide_desc_get guide_desc name
                            /\ deps ## sum_vars)).
Proof.
  unfold model_site_step. case_bool_decide as Hk.
  2: { intros [= <- <-]. split; [|by left]. intros n. split; [by left|].
       intros [?|(_ & ? & _)]; done. }
  destruct (trace_item model_trace name) as [ms|e]; cbn [mbind result_bind]; [|done].
  destruct (if kl_analytic ms then _ else _) as [kl1|e] eqn:Hkl;
    cbn [mbind result_bind]; [|done].
  assert (forall n, n ∈ kl1 ->
            n ∈ kl_names
            \/ (n = name /\ name ∈ guide_trace.*1
                /\ exists deps, model_deps !! name = Some deps
                                /\ deps ## EnumCosts.guide_desc_get guide_desc name
                                /\ deps ## sum_vars)) as Hkl1.
  { destruct (kl_analytic ms); [|injection Hkl as <-; by left].
    destruct (analytic_kl _ _ _ _ _ _ _) as [[]|e] eqn:Hcheck;
      cbn [mbind result_bind] in Hkl; [|done].
    injection Hkl as <-. intros n [->%elem_of_singleton|Hn]%elem_of_union; [|by left].
    right. split; [done|]. unfold analytic_kl, deps_item in Hcheck.
    destruct (model_deps !! name) as [deps|]; cbn [mbind result_bind] in Hcheck;
      [|done].
    case_bool_decide as Hd1; [done|]. cbn [mbind result_bind] in Hcheck.
    case_bool_decide as Hd2; [done|].
    destruct (trace_mem guide_trace name) eqn:Hmem; [|done].
    split; [by apply trace_mem_true|]. exists deps. split; [done|].
    split.
    - destruct (decide (deps ## EnumCosts.guide_desc_get guide_desc name)); tauto.
    - destruct (decide (deps ## sum_vars)); tauto. }
  destruct (site_is_observed s) eqn:Ho; cbn.
  - intros [= <- <-]. split; [|done]. intros n. split; [by left|].
    intros [?|(_ & _ & ? & _)]; done.
  - destruct (trace_mem guide_trace name) eqn:Hmem; cbn; intros [= <- <-].
    + split; [|done]. intros n. split; [by left|].
      intros [?|(_ & _ & _ & Hnot)]; [done|]. by apply trace_mem_true in Hmem.
    + split; [|done]. intros n. rewrite elem_of_union, elem_of_singleton. split.
      * intros [->|?]; [right|by left]. split_and!; try done.
        intros Hin%trace_mem_true. congruence.
      * intros [?|(-> & _)]; [by right|by left].
Qed.

Lemma enum_model_sites_spec (tr : trace) (sum_vars kl_names sum_vars' kl_names' : gset string) :
  foldM step (sum_vars, kl_names) tr = Ok (sum_vars', kl_names') ->
  (forall n, n ∈ sum_vars' <->
             n ∈ sum_vars
             \/ exists s, (n, s) ∈ tr /\ site_kind s = sample
                          /\ site_is_observed s = false /\ n ∉ guide_trace.*1)
  /\ (forall n, n ∈ kl_names' ->
        n ∈ kl_names
        \/ (n ∈ guide_trace.*1
            /\ exists deps, model_deps !! n = Some deps
                            /\ deps ## EnumCosts.guide_desc_get guide_desc n)).
Proof.
  revert sum_vars kl_names.
  induction tr as [|[name s] tr IH]; intros sum_vars kl_names; cbn [foldM].
  - intros [= <- <-]. split; [|by left]. intros n. split; [by left|].
    intros [?|(s & Hin & _)]; [done|]. by apply elem_of_nil in Hin.
  - destruct (step (sum_vars, kl_names) (name, s)) as [[sv1 kl1]|e] eqn:Hstep;
      cbn [mbind result_bind]; [|done].
    intros Hrest. destruct (IH _ _ Hrest) as [Hsv Hkl].
    destruct (enum_model_site_step_spec _ _ _ _ _ _ Hstep) as [Hsv1 Hkl1]. split.
    + intros n. rewrite Hsv, Hsv1. split.
      * intros [[?|(-> & ? & ? & ?)]|(s' & ? & ?)]; [by left|right..].
        -- exists s. split; [by left|done].
        -- exists s'. split; [by right|done].
      * intros [?|(s' & [[= -> ->]|?]%elem_of_cons & ? & ? & ?)].
        -- by left; left.
        -- left. right. done.
        -- right. by exists s'.
    + intros n [Hn|Hn]%Hkl; [|by right].
      apply Hkl1 in Hn as [?|(-> & ? & deps & ? & ? & _)]; [by left|right].
      split; [done|]. by exists deps.
Qed.

Lemma enum_guide_sites_spec (tr : trace) (st st' : gset string * gset string) :
  foldM (guide_site_step model_trace) st tr = Ok st' ->
  st' = st
  /\ forall n s, (n, s) ∈ tr -> site_kind s = sample -> n ∈ model_trace.*1.
Proof.
  revert st. induction tr as [|[name s] tr IH]; intros st; cbn [foldM].
  - intros [= <-]. split; [done|]. intros n s Hin. by apply elem_of_nil in Hin.
  - destruct (guide_site_step model_trace st (name, s)) as [st1|e] eqn:Hstep;
      cbn [mbind result_bind]; [|done].
    intros [-> Hall]%IH. unfold guide_site_step in Hstep.
    case_bool_decide as Hk.
    + destruct (trace_item model_trace name) as [ms|e] eqn:Hitem;
        cbn [mbind result_bind] in Hstep; [|done].
      injection Hstep as <-. split; [done|].
      intros n s' [[= -> ->]|Hin]%elem_of_cons Hk'; [|by apply (Hall n s')].
      apply trace_item_elem in Hitem. apply list_elem_of_fmap. by exists (name, ms).
    + injection Hstep as <-. split; [done|].
      intros n s' [[= -> ->]|Hin]%elem_of_cons Hk'; [done|by apply (Hall n s')].
Qed.

End enum_trace_facts.

(** X20: when the loop of [get_importance_trace_enum] over the sites comes
    to its end, [sum_vars] holds exactly the [sample] sites of the model
    that are not observed and have no site of their name in the guide; every
    [sample] site of the guide has a site of its name in the model (the loop
    raises [KeyError] otherwise); and every site that got an analytic
    divergence is a site of the guide whose dependencies in the model are
    disjoint from its descendants in the guide, so that no such site is
    enumerated. *)
Theorem enum_sum_vars `{Distributions} (kl_analytic : site -> bool)
    (model_trace guide_trace : trace)
    (model_deps guide_desc : gmap string (gset string))
    (sum_vars kl_names : gset string) :
  EnumTrace.sum_vars_of_traces kl_analytic model_trace guide_trace model_deps
    guide_desc = Ok (sum_vars, kl_names) ->
  (forall n,
     n ∈ sum_vars <->
     exists s, (n, s) ∈ model_trace /\ site_kind s = sample
               /\ site_is_observed s = false /\ n ∉ guide_trace.*1)
  /\ (forall n s, (n, s) ∈ guide_trace -> site_kind s = sample ->
        n ∈ model_trace.*1)
  /\ (forall n, n ∈ kl_names ->
        n ∈ guide_trace.*1
        /\ (exists deps, model_deps !! n = Some deps
                         /\ deps ## EnumCosts.guide_desc_get guide_desc n)
        /\ n ∉ sum_vars).
Proof.
  unfold EnumTrace.sum_vars_of_traces. intros Hrun.
  destruct (foldM _ (∅, ∅) model_trace) as [[sv kl]|e] eqn:Hm;
    cbn [mbind result_bind] in Hrun; [|done].
  apply enum_guide_sites_spec in Hrun as [[= <- <-] Hguide].
  destruct (enum_model_sites_spec _ _ _ _ _ _ _ _ _ _ Hm) as [Hsv Hkl].
  assert (forall n,
            n ∈ sum_vars <->
            exists s, (n, s) ∈ model_trace /\ site_kind s = sample
                      /\ site_is_observed s = false /\ n ∉ guide_trace.*1) as Hsum.
  { intros n. rewrite Hsv. split; [|by right]. by intros [?%elem_of_empty|?]. }
  split_and!; [done|done|].
  intros n [?%elem_of_empty|[Hg Hdeps]]%Hkl; [done|]. split_and!; [done|done|].
  intros (s & _ & _ & _ & Hnot)%Hsum. done.
Qed.

Lemma enum_sum_vars_witness :
  EnumTrace.sum_vars_of_traces (fun s => bool_decide (site_fn s = 0%nat))
    [("data", RenyiExample.data_site); ("c", Example.guide_z 2);
     ("z", Example.model_z 1); ("x", Example.model_x)]
    RenyiExample.guide_in_plate
    {[ "z" := {["z"]}; "x" := {["z"]} ]} ∅
  = Ok ({["c"]}, {["z"]})
  /\ "z" ∉ ({["c"]} : gset string).
Proof.
  assert (EnumTrace.sum_vars_of_traces (fun s => bool_decide (site_fn s = 0%nat))
            [("data", RenyiExample.data_site); ("c", Example.guide_z 2);
             ("z", Example.model_z 1); ("x", Example.model_x)]
            RenyiExample.guide_in_plate
            {[ "z" := {["z"]}; "x" := {["z"]} ]} ∅
          = Ok ({["c"]}, {["z"]})) as Hrun by (vm_compute; reflexivity).
  split; [exact Hrun|].
  destruct (enum_sum_vars _ _ _ _ _ _ _ Hrun) as (_ & _ & Hkl).
  apply (Hkl "z"). set_solver.
Defined.

(** * The value of a loss: rounding and order *)

(** ** [TraceGraph_ELBO]: the value of a particle *)

Section graph_value.
Context `{Handlers}.
Import TraceGraph_ELBO.

Lemma model_fold_in_order (model_deps : gmap string (gset string)) (tr : trace)
    (elbo elbo' : Z) (c c' : costs) :
  foldM (model_step model_deps) (elbo, c) tr = Ok (elbo', c') ->
  elbo' = fold_left Z.add (log_prob_sums tr) elbo.
Proof.
  revert elbo c. induction tr as [|[name s] tr IH]; intros elbo c; cbn [foldM].
  - by intros [= <- <-].
  - destruct (model_step model_deps (elbo, c) (name, s)) as [[e1 c1]|e] eqn:Hstep;
      cbn [mbind result_bind]; [|done].
    intros Hfold. rewrite (IH _ _ Hfold). unfold model_step in Hstep.
    unfold log_prob_sums. case_bool_decide as Hkind.
    + rewrite (filter_cons_True (fun kv : string * site => site_kind kv.2 = sample))
        by done.
      destruct (deps_item model_deps name) as [up|e]; cbn in Hstep; [|done].
      destruct (foldM _ c (elements up)) as [c2|e]; cbn in Hstep; [|done].
      by injection Hstep as <- <-.
    + rewrite (filter_cons_False (fun kv : string * site => site_kind kv.2 = sample))
        by done. by injection Hstep as <- <-.
Qed.

Lemma guide_fold_in_order (guide_deps : gmap string (gset string)) (tr : trace)
    (elbo elbo' : Z) (c c' : costs) :
  foldM (guide_step guide_deps) (elbo, c) tr = Ok (elbo', c') ->
  elbo' = fold_left Z.sub (log_prob_sums tr) elbo.
Proof.
  revert elbo c. induction tr as [|[name s] tr IH]; intros elbo c; cbn [foldM].
  - by intros [= <- <-].
  - destruct (guide_step guide_deps (elbo, c) (name, s)) as [[e1 c1]|e] eqn:Hstep;
      cbn [mbind result_bind]; [|done].
    intros Hfold. rewrite (IH _ _ Hfold). unfold guide_step, stop_gradient in Hstep.
    unfold log_prob_sums. case_bool_decide as Hkind.
    + rewrite (filter_cons_True (fun kv : string * site => site_kind kv.2 = sample))
        by done.
      destruct (deps_item guide_deps name) as [up|e]; cbn in Hstep; [|done].
      destruct (foldM _ c (elements up)) as [c2|e]; cbn in Hstep; [|done].
      by destruct (has_rsample (site_fn s)); injection Hstep as <- <-.
    + rewrite (filter_cons_False (fun kv : string * site => site_kind kv.2 = sample))
        by done. by injection Hstep as <- <-.
Qed.

Lemma surrogate_fold_in_order (guide_trace : trace) (downstream_costs : costs)
    (elbo elbo' : Z) :
  foldM (surrogate_step guide_trace) elbo downstream_costs = Ok elbo' ->
  exists surrogates,
    Forall2 (fun item surrogate => surrogate_of guide_trace item = Ok surrogate)
      downstream_costs surrogates
    /\ elbo' = fold_left (add_surrogate Z.add Z.sub) surrogates elbo.
Proof.
  revert elbo. induction downstream_costs as [|item dc IH]; intros elbo; cbn [foldM].
  - intros [= <-]. exists []. split; [constructor|done].
  - destruct (surrogate_step guide_trace elbo item) as [e1|e] eqn:Hstep;
      cbn [mbind result_bind]; [|done].
    unfold surrogate_step in Hstep.
    destruct (surrogate_of guide_trace item) as [v|e] eqn:Hv;
      cbn [mbind result_bind] in Hstep; [|done].
    injection Hstep as <-.
    intros (vs & Hvs & ->)%IH. exists (v :: vs). split; [by constructor|done].
Qed.

End graph_value.




(** ** [Trace_ELBO]: the order of the sites *)

Section site_order.

Lemma iterates_permutation (o1 o2 : list string) (union : gset string) :
  SiteOrder.iterates o1 union -> SiteOrder.iterates o2 union -> o1 ≡ₚ o2.
Proof.
  intros [Hnd1 H1] [Hnd2 H2]. apply NoDup_Permutation; [done|done|].
  intros name. by rewrite H1, H2.
Qed.

Lemma iterates_elements (union : gset string) : SiteOrder.iterates (elements union) union.
Proof. split; [apply NoDup_elements|]. intros name. apply elem_of_elements. Qed.

Lemma lookup_elbo_particle {R : Type} (zero : R) (sub : R -> R -> R)
    (order : list string) (m g : gmap string R) (name : string) :
  (list_to_map (SiteOrder._elbo_particle zero sub order m g) : gmap string R) !! name
  = if bool_decide (name ∈ order)
    then Some (sub (default zero (m !! name)) (default zero (g !! name)))
    else None.
Proof.
  unfold SiteOrder._elbo_particle. induction order as [|n order IH]; cbn.
  - rewrite lookup_empty. by rewrite bool_decide_eq_false_2 by apply not_elem_of_nil.
  - destruct (decide (name = n)) as [->|Hne].
    + rewrite lookup_insert_eq. by rewrite bool_decide_eq_true_2 by by left.
    + rewrite lookup_insert_ne by done. rewrite IH.
      case_bool_decide as Hin.
      * by rewrite bool_decide_eq_true_2 by by right.
      * rewrite bool_decide_eq_false_2; [done|].
        intros [?|?]%elem_of_cons; done.
Qed.

Lemma loss_sites_lookup {R : Type} (zero : R) (sub : R -> R -> R) (neg : R -> R)
    (order : list string) (union : gset string) (m g : gmap string R)
    (name : string) :
  SiteOrder.iterates order union ->
  SiteOrder.loss_sites zero sub neg order m g !! name
  = if bool_decide (name ∈ union)
    then Some (neg (sub (default zero (m !! name)) (default zero (g !! name))))
    else None.
Proof.
  intros [_ Hin]. unfold SiteOrder.loss_sites. rewrite lookup_fmap, lookup_elbo_particle.
  case_bool_decide as Ho.
  - by rewrite bool_decide_eq_true_2 by by apply Hin.
  - rewrite bool_decide_eq_false_2; [done|]. by rewrite <- Hin.
Qed.

Lemma sum_values_exact (order : list string) (m g : gmap string Z) :
  SiteOrder.iterates order (dom m ∪ dom g) ->
  SiteOrder.sum_values 0 Z.add (SiteOrder._elbo_particle 0 Z.sub order m g)
  = sum_values (elbo_sites m g).
Proof.
  intros Hit. unfold SiteOrder.sum_values, SiteOrder._elbo_particle.
  rewrite foldl_add_foldr, <- list_fmap_compose.
  unfold elbo_sites, set_to_map.
  rewrite (sum_values_list_to_map
             (fun name => default 0 (m !! name) - default 0 (g !! name)))
    by apply NoDup_elements.
  rewrite Z.add_0_l. apply foldr_add_perm, fmap_Permutation.
  apply (iterates_permutation _ _ (dom m ∪ dom g)); [done|apply iterates_elements].
Qed.

End site_order.

(** ** Single precision: the addition *)

Lemma float32_add_comm (x y : Float32.t) : Float32.add x y = Float32.add y x.
Proof.
  unfold Float32.add.
  destruct x as [[]|[]| |sx mx ex], y as [[]|[]| |sy my ey]; try reflexivity.
  unfold SFadd. by rewrite Z.min_comm, Z.add_comm.
Qed.

(** The sum of two arrays from zero does not depend on their order. *)
Lemma float32_sum_two (x y : Float32.t) :
  Float32.add (Float32.add Float32.zero x) y
  = Float32.add (Float32.add Float32.zero y) x.
Proof.
  unfold Float32.add, Float32.zero.
  destruct x as [[]|[]| |sx mx ex], y as [[]|[]| |sy my ey]; try reflexivity.
  apply (float32_add_comm (S754_finite sx mx ex) (S754_finite sy my ey)).
Qed.

Lemma float32_loss_two_sites (m g : gmap string Float32.t) (o1 o2 : list string)
    (union : gset string) :
  SiteOrder.iterates o1 union -> SiteOrder.iterates o2 union ->
  (size union <= 2)%nat ->
  SiteOrder.loss_value Float32.zero Float32.add Float32.sub Float32.neg o1 m g
  = SiteOrder.loss_value Float32.zero Float32.add Float32.sub Float32.neg o2 m g.
Proof.
  intros H1 H2 Hsize.
  pose proof (iterates_permutation _ _ _ H1 H2) as Hperm.
  pose proof (iterates_permutation _ _ _ H1 (iterates_elements union)) as Hel.
  apply Permutation_length in Hel.
  assert (length o1 <= 2)%nat as Hle by (rewrite Hel; exact Hsize). clear Hel.
  pose proof (Permutation_length Hperm) as Hlen.
  destruct H1 as [Hnd1 _].
  destruct o1 as [|a [|b [|c o1]]], o2 as [|a' [|b' [|c' o2]]];
    cbn [length] in Hlen, Hle; try lia.
  - done.
  - apply Permutation_singleton_l in Hperm. by injection Hperm as <-.
  - assert (a' ∈ [a; b]) as Ha' by (rewrite Hperm; by left).
    assert (b' ∈ [a; b]) as Hb' by (rewrite Hperm; right; by left).
    assert (NoDup [a'; b']) as Hnd2 by by rewrite <- Hperm.
    apply NoDup_cons in Hnd2 as [Hne _]. rewrite list_elem_of_singleton in Hne.
    apply elem_of_cons in Ha' as [->|Ha']; apply elem_of_cons in Hb' as [->|Hb'];
      try apply list_elem_of_singleton in Ha'; try apply list_elem_of_singleton in Hb';
      subst; try done.
    unfold SiteOrder.loss_value, SiteOrder.sum_values, SiteOrder._elbo_particle.
    cbn. f_equal. apply float32_sum_two.
Qed.

Section reproducible_keys.
Context `{Handlers} `{!RenyiArithmetic} `{!Enumeration}.
Context (param_map : gmap string tensor) (model guide : program) (args : arguments).

(** A call leaves the estimator with the same number of particles: the call
    that follows splits the key in the same way. *)
Lemma estimator_loss_keys (e e' : estimator) (k : key) (log log' : list string)
    (v : pytree Z) :
  estimator_loss param_map model guide args e k log = (Ok (v, e'), log') ->
  particle_keys e' k = particle_keys e k.
Proof.
  intros Hrun. destruct e as [self|self|self|self|self].
  1-4: cbn [estimator_loss] in Hrun;
       by apply bind_inv in Hrun as (r & log1 & _ & [= _ <- _]).
  cbn [estimator_loss] in Hrun.
  apply bind_inv in Hrun as ([r self'] & log1 & Hloss & [= <- <- <-]).
  assert (TraceEnum_ELBO.base self' = TraceEnum_ELBO.base self) as Hbase.
  { unfold TraceEnum_ELBO.loss in Hloss. case_bool_decide as Hn.
    - apply bind_inv in Hloss as ([elbo s1] & log2 & Hk & [= _ <- _]).
      by apply (enum_single_again param_map model guide args) in Hk as (_ & Hb & _).
    - apply bind_inv in Hloss as (keys & log2 & Hkeys & Hloss).
      apply bind_inv in Hloss as ([elbos s1] & log3 & Hps & [= _ <- _]).
      by apply (enum_particles_again param_map model guide args) in Hps as (Hb & _). }
  unfold particle_keys. cbn [splits_plate_key estimator_base]. by rewrite Hbase.
Qed.

End reproducible_keys.



